(** * TWKB decoder (devork/twkb): a shallow embedding and its properties

    The Go package decodes Tiny Well-Known Binary geometries from an
    [io.Reader].  The embedding follows the two source files: the data
    types of [types.go] and the decoder of the package's main file.

    - [uint8], [uint64], [int64] and [uint] values are integers in [Z]
      with the wrap-around of each operation written out;
    - [float64] is Rocq's primitive binary64 float;
    - the reader is the list of bytes still unread, a read at its end
      fails with [EOF];
    - a Go function returning [(T, error)] over the mutable [*decoder]
      is a function from the decoder state to an [outcome]: the value
      or the error, together with the state the call leaves behind. *)

From Stdlib Require Import ZArith List Bool Lia Floats.
From Stdlib Require Import Strings.Byte.
Import ListNotations.
#[local] Set Warnings "-register-all".
Local Open Scope Z_scope.

(** ** Machine integers *)

(** Arithmetic on [uint64] is modulo 2^64. *)
Definition wrap64 (x : Z) : Z := x mod 2 ^ 64.

(** The conversion [int64(x)], also the result of [int64] arithmetic:
    the representative of [x] modulo 2^64 in [-2^63, 2^63). *)
Definition int64 (x : Z) : Z :=
  let u := wrap64 x in if u <? 2 ^ 63 then u else u - 2 ^ 64.

(** [x << s] on [uint64] with a variable count [s]: Go gives 0 once the
    count reaches the width. *)
Definition shl64 (x s : Z) : Z :=
  if s <? 64 then wrap64 (Z.shiftl x s) else 0.

Definition MaxInt64 : Z := 2 ^ 63 - 1.
Definition MinInt64 : Z := - 2 ^ 63.

(** The value of a byte as a [uint8]. *)
Definition uint8 (b : byte) : Z := Z.of_N (Byte.to_N b).

(** [float64(x)] for an integer [x]: rounding to nearest, ties to even. *)
Definition float64 (x : Z) : float :=
  SF2Prim (binary_normalize prec emax x 0 false).

(** [int64(math.Pow10(n))].  For [0 <= n <= 18] the power is an exact
    [int64]; a negative [n] gives a float in (0,1), truncated to 0; above
    18 the conversion is out of range (amd64 yields [MinInt64]).  Every
    call site has [0 <= n <= 7], see [precision_range]. *)
Definition Pow10_int64 (n : Z) : Z :=
  if n <? 0 then 0 else if n <=? 18 then 10 ^ n else MinInt64.

(** ** Data types ([types.go]) *)

Definition Coordinate := list float.
Definition BBox := list float.
Definition LinearRing := list Coordinate.

(** [GeomType] is a [uint8]; the constants come from [iota]. *)
Definition GeomType := Z.
Definition POINT : GeomType := 1.
Definition LINESTRING : GeomType := 2.
Definition POLYGON : GeomType := 3.
Definition MULTIPOINT : GeomType := 4.
Definition MULTILINESTRING : GeomType := 5.
Definition MULTIPOLYGON : GeomType := 6.
Definition GEOMETRYCOLLECTION : GeomType := 7.

Definition XY : Z := 0.
Definition XYZ : Z := 1.
Definition XYM : Z := 2.
Definition XYZM : Z := 3.

(** Flag masks of the metadata byte. *)
Definition bbox : Z := 1.
Definition size : Z := 2.
Definition idlist : Z := 4.
Definition exprec : Z := 8.
Definition empty : Z := 16.

(** [Hdr.bbox] is a slice: [None] is the nil slice. *)
Record Hdr : Type := mkHdr {
  gtype : GeomType;
  dim : Z;
  hdr_bbox : option BBox
}.

(** Every geometry embeds a [*Hdr]; [None] is the nil pointer. *)
Record Point : Type := mkPoint {
  Point_Hdr : option Hdr;
  Coord : Coordinate
}.

Record LineString : Type := mkLineString {
  LineString_Hdr : option Hdr;
  Coords : list Coordinate
}.

Record Polygon : Type := mkPolygon {
  Polygon_Hdr : option Hdr;
  Rings : list LinearRing
}.

Record MultiPoint : Type := mkMultiPoint {
  MultiPoint_Hdr : option Hdr;
  MultiPoint_Ids : list Z;
  Points : list Point
}.

Record MultiLineString : Type := mkMultiLineString {
  MultiLineString_Hdr : option Hdr;
  MultiLineString_Ids : list Z;
  LineStrings : list LineString
}.

Record MultiPolygon : Type := mkMultiPolygon {
  MultiPolygon_Hdr : option Hdr;
  MultiPolygon_Ids : list Z;
  Polygons : list Polygon
}.

(** The values of the interface [Geometry] that [Decode] can return.
    [GHdr] is the bare [*Hdr] of [Decode]'s last [return]. *)
Inductive Geometry : Type :=
| GPoint (p : Point)
| GLineString (l : LineString)
| GPolygon (p : Polygon)
| GMultiPoint (m : MultiPoint)
| GMultiLineString (m : MultiLineString)
| GMultiPolygon (m : MultiPolygon)
| GGeometryCollection (h : option Hdr) (Ids : list Z) (Geometries : list Geometry)
| GHdr (h : Hdr).

(** The methods [(h *Hdr) Type()] and [(h *Hdr) Dim()]: they read a
    field through the receiver, so a nil receiver panics ([None]). *)
Definition Hdr_Type (h : option Hdr) : option GeomType := option_map gtype h.
Definition Hdr_Dim (h : option Hdr) : option Z := option_map dim h.

(** The embedded header of a geometry value. *)
Definition Geometry_Hdr (g : Geometry) : option Hdr :=
  match g with
  | GPoint p => Point_Hdr p
  | GLineString l => LineString_Hdr l
  | GPolygon p => Polygon_Hdr p
  | GMultiPoint m => MultiPoint_Hdr m
  | GMultiLineString m => MultiLineString_Hdr m
  | GMultiPolygon m => MultiPolygon_Hdr m
  | GGeometryCollection h _ _ => h
  | GHdr h => Some h
  end.

(** [g.Type()] and [g.Dim()] on the interface: the promoted methods. *)
Definition Geometry_Type (g : Geometry) : option GeomType := Hdr_Type (Geometry_Hdr g).
Definition Geometry_Dim (g : Geometry) : option Z := Hdr_Dim (Geometry_Hdr g).

(** ** The decoder state and its outcomes *)

Inductive error : Set :=
| ErrUnknownGeom
| EOF.

Record decoder : Type := mkDecoder {
  d_r : list byte;
  d_refpoint : list Z;
  d_factors : list Z;
  d_ndims : nat;
  d_bbox : bool;
  d_size : bool;
  d_idlist : bool;
  d_empty : bool;
  d_length : Z
}.

(** What a call leaves: a value, an error, a run-time panic, or (for
    the recursion of [Decode] only) no fuel left.  [S] is the state that
    survives the call. *)
Inductive outcome (S A : Type) : Type :=
| Ok (a : A) (s : S)
| Err (e : error) (s : S)
| Panic
| OutOfFuel.

Arguments Ok {S A} a s.
Arguments Err {S A} e s.
Arguments Panic {S A}.
Arguments OutOfFuel {S A}.

Definition M (A : Type) : Type := decoder -> outcome decoder A.

Definition ret {A : Type} (a : A) : M A := fun d => Ok a d.

Definition bind {A B : Type} (m : M A) (k : A -> M B) : M B :=
  fun d =>
    match m d with
    | Ok a d' => k a d'
    | Err e d' => Err e d'
    | Panic => Panic
    | OutOfFuel => OutOfFuel
    end.

Definition panic {A : Type} : M A := fun _ => Panic.
Definition fail {A : Type} (e : error) : M A := fun d => Err e d.
Definition get : M decoder := fun d => Ok d d.

(** An assignment to fields of the decoder. *)
Definition modify (f : decoder -> decoder) : M unit := fun d => Ok tt (f d).

Declare Scope twkb_scope.
Delimit Scope twkb_scope with twkb.
Notation "x <- m ;; k" := (bind m (fun x => k))
  (at level 61, m at next level, right associativity) : twkb_scope.
Notation "' p <- m ;; k" := (bind m (fun x => let p := x in k))
  (at level 61, p pattern, m at next level, right associativity) : twkb_scope.
Local Open Scope twkb_scope.

Definition set_r (d : decoder) (bs : list byte) : decoder :=
  mkDecoder bs (d_refpoint d) (d_factors d) (d_ndims d)
            (d_bbox d) (d_size d) (d_idlist d) (d_empty d) (d_length d).

Definition set_refpoint (d : decoder) (rp : list Z) : decoder :=
  mkDecoder (d_r d) rp (d_factors d) (d_ndims d)
            (d_bbox d) (d_size d) (d_idlist d) (d_empty d) (d_length d).

Definition set_factors (d : decoder) (fs : list Z) : decoder :=
  mkDecoder (d_r d) (d_refpoint d) fs (d_ndims d)
            (d_bbox d) (d_size d) (d_idlist d) (d_empty d) (d_length d).

Definition set_ndims (d : decoder) (n : nat) : decoder :=
  mkDecoder (d_r d) (d_refpoint d) (d_factors d) n
            (d_bbox d) (d_size d) (d_idlist d) (d_empty d) (d_length d).

Definition set_flags (d : decoder) (b s i e : bool) : decoder :=
  mkDecoder (d_r d) (d_refpoint d) (d_factors d) (d_ndims d) b s i e (d_length d).

Definition set_empty (e : bool) (d : decoder) : decoder :=
  mkDecoder (d_r d) (d_refpoint d) (d_factors d) (d_ndims d)
            (d_bbox d) (d_size d) (d_idlist d) e (d_length d).

Definition set_length (d : decoder) (n : Z) : decoder :=
  mkDecoder (d_r d) (d_refpoint d) (d_factors d) (d_ndims d)
            (d_bbox d) (d_size d) (d_idlist d) (d_empty d) n.

(** Assignment to a slice or array element.  Go panics on an index
    out of range; here the list is left as it is.  The decoder only
    indexes the four-entry arrays [refpoint] and [factors] below
    [ndims <= 4], and a box of [2 * ndims] entries below that length. *)
Fixpoint upd {A : Type} (l : list A) (i : nat) (v : A) : list A :=
  match l, i with
  | [], _ => []
  | _ :: t, O => v :: t
  | x :: t, S i' => x :: upd t i' v
  end.

(** ** Primitives: bytes, varints, zigzag *)

(** [d.read(&byte)]: one byte through [binary.Read]. *)
Definition read : M Z :=
  fun d =>
    match d_r d with
    | [] => Err EOF d
    | b :: rest => Ok (uint8 b) (set_r d rest)
    end.

(** [unzigzag(nVal uint64) int64]. *)
Definition unzigzag (nVal : Z) : Z :=
  if Z.land nVal 1 =? 0
  then int64 (Z.shiftr nVal 1)
  else int64 (wrap64 (wrap64 (- Z.shiftr nVal 1) - 1)).

(** The loop of [readVarInt64] over the unread bytes: the value and the
    bytes left, or [None] when the reader ends inside the varint. *)
Fixpoint readVarInt64_loop (val shift : Z) (bs : list byte) : option (Z * list byte) :=
  match bs with
  | [] => None
  | b :: rest =>
      let byte := uint8 b in
      if Z.land byte 128 =? 0
      then Some (Z.lor val (shl64 byte shift), rest)
      else readVarInt64_loop (Z.lor val (shl64 (Z.land byte 127) shift))
                             (wrap64 (shift + 7)) rest
  end.

Definition readVarInt64 : M Z :=
  fun d =>
    match readVarInt64_loop 0 0 (d_r d) with
    | Some (v, rest) => Ok v (set_r d rest)
    | None => Err EOF (set_r d [])
    end.

Definition readVarSInt64 : M Z :=
  val <- readVarInt64 ;; ret (unzigzag val).

(** [make([]T, n)] panics on a negative length; memory is not bounded
    here.  The loops that fill the slice by index run [n] times. *)
Definition make_len {A : Type} (n : Z) (k : nat -> M A) : M A :=
  if n <? 0 then panic else k (Z.to_nat n).

(** [readIDList]: [ngeoms] signed varints, in order. *)
Fixpoint readIDList_loop (n : nat) (ids : list Z) : M (list Z) :=
  match n with
  | O => ret ids
  | S n' => id <- readVarSInt64 ;; readIDList_loop n' (ids ++ [id])
  end.

Definition readIDList (ngeoms : Z) : M (list Z) :=
  make_len ngeoms (fun n => readIDList_loop n []).

Record mhdr : Type := mkMhdr {
  m_idlist : list Z;
  ngeoms : Z
}.

Definition readMHdr : M mhdr :=
  n <- readVarInt64 ;;
  d <- get ;;
  if d_idlist d
  then ids <- readIDList (int64 n) ;; ret (mkMhdr ids (int64 n))
  else ret (mkMhdr [] (int64 n)).

(** ** Coordinates *)

(** The box [readCoords] starts from when the header gave none. *)
Definition bbox_init (n : nat) : BBox :=
  repeat (float64 MaxInt64) n ++ repeat (float64 MinInt64) n.

(** The two comparisons of [readCoords] for dimension [j]. *)
Definition bbox_extend (n j : nat) (c : float) (bb : BBox) : BBox :=
  let bb1 := if PrimFloat.ltb c (nth j bb 0%float) then upd bb j c else bb in
  if PrimFloat.ltb (nth (j + n) bb1 0%float) c then upd bb1 (j + n) c else bb1.

(** [d.refpoint[j] += val] and the value of
    [float64(d.refpoint[j]) / float64(d.factors[j])]. *)
Definition accumulate (j : nat) (val : Z) : M float :=
  fun d =>
    let rp := int64 (nth j (d_refpoint d) 0 + val) in
    Ok (PrimFloat.div (float64 rp) (float64 (nth j (d_factors d) 0)))
       (set_refpoint d (upd (d_refpoint d) j rp)).

(** The inner loop of [readCoords]: dimensions [j], [j+1], ... ([k] of
    them) of one coordinate. *)
Fixpoint readCoord_loop (k j : nat) (coord : Coordinate) (bb : option BBox)
  : M (Coordinate * option BBox) :=
  match k with
  | O => ret (coord, bb)
  | S k' =>
      val <- readVarSInt64 ;;
      c <- accumulate j val ;;
      d <- get ;;
      readCoord_loop k' (S j) (coord ++ [c])
                     (option_map (bbox_extend (d_ndims d) j c) bb)
  end.

(** The outer loop of [readCoords]. *)
Fixpoint readCoords_loop (n : nat) (coords : list Coordinate) (bb : option BBox)
  : M (list Coordinate * option BBox) :=
  match n with
  | O => ret (coords, bb)
  | S n' =>
      d <- get ;;
      '(coord, bb') <- readCoord_loop (d_ndims d) 0 [] bb ;;
      readCoords_loop n' (coords ++ [coord]) bb'
  end.

Definition readCoords (size : Z) : M (list Coordinate * option BBox) :=
  make_len size (fun n =>
    d <- get ;;
    readCoords_loop n [] (if d_bbox d then None else Some (bbox_init (d_ndims d)))).

(** ** Body decoders *)

Definition set_bbox (h : Hdr) (bb : option BBox) : Hdr :=
  match bb with
  | Some b => mkHdr (gtype h) (dim h) (Some b)
  | None => h
  end.

Definition decodePoint (h : option Hdr) : M Point :=
  '(coords, bb) <- readCoords 1 ;;
  match coords with
  | [] => panic
  | c :: _ =>
      match h with
      | Some h' => ret (mkPoint (Some (set_bbox h' bb)) c)
      | None => ret (mkPoint None c)
      end
  end.

Definition decodeLineString (h : option Hdr) : M LineString :=
  size <- readVarInt64 ;;
  '(coords, bb) <- readCoords (int64 size) ;;
  match h with
  | Some h' => ret (mkLineString (Some (set_bbox h' bb)) coords)
  | None => ret (mkLineString None coords)
  end.

(** The ring loop of [decodePolygon].  The error of [readCoords] is
    assigned and never tested: the ring is then the nil slice and the
    loop goes on from the state the failed call left. *)
Fixpoint decodePolygon_loop (n : nat) (rings : list LinearRing) : M (list LinearRing) :=
  match n with
  | O => ret rings
  | S n' =>
      ringSize <- readVarInt64 ;;
      fun d =>
        match readCoords (int64 ringSize) d with
        | Ok (coords, _) d' => decodePolygon_loop n' (rings ++ [coords]) d'
        | Err _ d' => decodePolygon_loop n' (rings ++ [[]]) d'
        | Panic => Panic
        | OutOfFuel => OutOfFuel
        end
  end.

Definition decodePolygon (h : option Hdr) : M Polygon :=
  size <- readVarInt64 ;;
  make_len (int64 size) (fun n =>
    rings <- decodePolygon_loop n [] ;;
    ret (mkPolygon h rings)).

(** The member loop shared by the three multi-geometry decoders: [n]
    calls of the body decoder with a nil header. *)
Fixpoint members_loop {A : Type} (body : option Hdr -> M A) (n : nat) (acc : list A)
  : M (list A) :=
  match n with
  | O => ret acc
  | S n' => p <- body None ;; members_loop body n' (acc ++ [p])
  end.

Definition decodeMultiPoint (h : option Hdr) : M MultiPoint :=
  m <- readMHdr ;;
  make_len (ngeoms m) (fun n =>
    points <- members_loop decodePoint n [] ;;
    ret (mkMultiPoint h (m_idlist m) points)).

Definition decodeMultiLineString (h : option Hdr) : M MultiLineString :=
  m <- readMHdr ;;
  make_len (ngeoms m) (fun n =>
    lines <- members_loop decodeLineString n [] ;;
    ret (mkMultiLineString h (m_idlist m) lines)).

Definition decodeMultiPolygon (h : option Hdr) : M MultiPolygon :=
  m <- readMHdr ;;
  make_len (ngeoms m) (fun n =>
    polys <- members_loop decodePolygon n [] ;;
    ret (mkMultiPolygon h (m_idlist m) polys)).

(** [decodeCollection]: every member is a call of [Decode] on the
    parent's reader, here [dec]. *)
Fixpoint decodeCollection_loop (dec : list byte -> outcome (list byte) Geometry)
         (n : nat) (geoms : list Geometry) : M (list Geometry) :=
  match n with
  | O => ret geoms
  | S n' =>
      fun d =>
        match dec (d_r d) with
        | Ok g rest => decodeCollection_loop dec n' (geoms ++ [g]) (set_r d rest)
        | Err e rest => Err e (set_r d rest)
        | Panic => Panic
        | OutOfFuel => OutOfFuel
        end
  end.

Definition decodeCollection (dec : list byte -> outcome (list byte) Geometry)
           (h : option Hdr) : M Geometry :=
  m <- readMHdr ;;
  make_len (ngeoms m) (fun n =>
    geoms <- decodeCollection_loop dec n [] ;;
    ret (GGeometryCollection h (m_idlist m) geoms)).

(** ** [Decode] *)

Definition new_decoder (rd : list byte) : decoder :=
  mkDecoder rd [0; 0; 0; 0] [0; 0; 0; 0] 0 false false false false 0.

(** The precision taken from the type-and-precision byte. *)
Definition precision (flag : Z) : Z :=
  Z.shiftr (unzigzag (Z.land flag 240)) 4.

(** The [switch] on the extended-dimensions byte: the dimension code,
    the number of dimensions and the factors array. *)
Definition extended_dims (extended : Z) (fs : list Z) : Z * nat * list Z :=
  let zprec := Z.shiftr (Z.land extended 28) 2 in
  let mprec := Z.shiftr (Z.land extended 224) 5 in
  if Z.land extended XYZM =? XYZM
  then (XYZM, 4%nat, upd (upd fs 2 (Pow10_int64 zprec)) 3 (Pow10_int64 mprec))
  else if Z.land extended XYZ =? XYZ
  then (XYZ, 3%nat, upd fs 2 (Pow10_int64 zprec))
  else if Z.land extended XYM =? XYM
  then (XYM, 3%nat, upd fs 2 (Pow10_int64 mprec))
  else (XY, 2%nat, fs).

(** The loop over the dimensions of a bounding box given in the header. *)
Fixpoint readBBox_loop (k idx n : nat) (bb : BBox) : M BBox :=
  match k with
  | O => ret bb
  | S k' =>
      min <- readVarSInt64 ;;
      max <- readVarSInt64 ;;
      readBBox_loop k' (S idx) n
        (upd (upd bb idx (float64 min)) (idx + n) (float64 (int64 (min + max))))
  end.

(** [Decode] from the comment [// Z and/or M Dims] up to the [switch]
    on the geometry type: the optional extended-dimensions byte, size
    and bounding box.  [flag] is the metadata byte and [gt] the geometry
    type already read; the result is the header. *)
Definition Decode_dims (flag : Z) (gt : GeomType) : M Hdr :=
  dm <- (if Z.land flag exprec =? exprec
         then extended <- read ;;
              d <- get ;;
              let '(dm, nd, fs) := extended_dims extended (d_factors d) in
              _ <- modify (fun d => set_ndims (set_factors d fs) nd) ;;
              ret dm
         else ret XY) ;;
  d <- get ;;
  _ <- (if d_size d
        then len <- readVarInt64 ;; modify (fun d => set_length d len)
        else ret tt) ;;
  bb <- (if d_bbox d
         then b <- readBBox_loop (d_ndims d) 0 (d_ndims d)
                                 (repeat 0%float (d_ndims d * 2)) ;;
              ret (Some b)
         else ret None) ;;
  ret (mkHdr gt dm bb).

(** The first part of [Decode]: the type-and-precision byte and the
    metadata byte, then [Decode_dims].  It fills the decoder and
    returns the header. *)
Definition Decode_header : M Hdr :=
  flag <- read ;;
  let gt := Z.land flag 15 in
  if (gt >? GEOMETRYCOLLECTION) || (gt <? POINT)
  then fail ErrUnknownGeom
  else
    let f0 := Pow10_int64 (precision flag) in
    _ <- modify (fun d => set_factors d (upd (upd (d_factors d) 0 f0) 1 f0)) ;;
    flag <- read ;;
    _ <- modify (fun d => set_flags d (Z.land flag bbox =? bbox)
                                      (Z.land flag size =? size)
                                      (Z.land flag idlist =? idlist)
                                      (Z.land flag empty =? empty)) ;;
    _ <- modify (fun d => set_ndims d 2) ;;
    Decode_dims flag gt.

(** The [switch] of [Decode] on the geometry type; [dec] is [Decode]
    itself, called for the members of a collection. *)
Definition Decode_switch (dec : list byte -> outcome (list byte) Geometry) (hdr : Hdr)
  : M Geometry :=
  let gt := gtype hdr in
  if gt =? POINT then p <- decodePoint (Some hdr) ;; ret (GPoint p)
  else if gt =? LINESTRING then l <- decodeLineString (Some hdr) ;; ret (GLineString l)
  else if gt =? POLYGON then p <- decodePolygon (Some hdr) ;; ret (GPolygon p)
  else if gt =? MULTIPOINT then m <- decodeMultiPoint (Some hdr) ;; ret (GMultiPoint m)
  else if gt =? MULTILINESTRING
  then m <- decodeMultiLineString (Some hdr) ;; ret (GMultiLineString m)
  else if gt =? MULTIPOLYGON
  then m <- decodeMultiPolygon (Some hdr) ;; ret (GMultiPolygon m)
  else if gt =? GEOMETRYCOLLECTION then decodeCollection dec (Some hdr)
  else ret (GHdr hdr).

(** The body of [Decode] on a fresh decoder. *)
Definition Decode_body (dec : list byte -> outcome (list byte) Geometry) : M Geometry :=
  hdr <- Decode_header ;; Decode_switch dec hdr.

(** A call [Decode(r)]: a new decoder on the reader; what survives the
    call is the reader. *)
Definition run_Decode (m : M Geometry) (rd : list byte) : outcome (list byte) Geometry :=
  match m (new_decoder rd) with
  | Ok g d => Ok g (d_r d)
  | Err e d => Err e (d_r d)
  | Panic => Panic
  | OutOfFuel => OutOfFuel
  end.

(** [Decode] calls itself through [decodeCollection]; [fuel] bounds the
    nesting of collections. *)
Fixpoint Decode_fuel (fuel : nat) (rd : list byte) : outcome (list byte) Geometry :=
  match fuel with
  | O => OutOfFuel
  | S fuel' => run_Decode (Decode_body (Decode_fuel fuel')) rd
  end.

(** Every level of nesting reads at least one byte, so the length of
    the input is fuel enough (see [Decode_fuel_enough]). *)
Definition Decode (rd : list byte) : outcome (list byte) Geometry :=
  Decode_fuel (S (List.length rd)) rd.

(** ** Reference definitions

    The package has no encoder.  The definitions below state what the
    format means by a zigzag value and by a varint, for the round-trip
    properties of the decoder. *)

(** [byte(x)]: the low eight bits of [x] as a byte. *)
Definition byte_of (x : Z) : byte :=
  match Byte.of_N (Z.to_N (x mod 256)) with
  | Some b => b
  | None => x00
  end.

(** An input written as the list of its byte values. *)
Definition bytes (l : list Z) : list byte := map byte_of l.

(** The zigzag encoding of a signed 64-bit value:
    [(v << 1) ^ (v >> 63)] as a [uint64]. *)
Definition zigzag (v : Z) : Z :=
  wrap64 (Z.lxor (Z.shiftl v 1) (Z.shiftr v 63)).

(** The little-endian base-128 encoding of an unsigned value: seven
    bits per byte, low group first, the top bit set on every byte but
    the last.  [n] bounds the number of continuation bytes. *)
Fixpoint encode_varint_aux (n : nat) (u : Z) : list byte :=
  match n with
  | O => [byte_of u]
  | S n' =>
      if u <? 128 then [byte_of u]
      else byte_of (Z.lor (Z.land u 127) 128) :: encode_varint_aux n' (Z.shiftr u 7)
  end.

(** A [uint64] takes at most ten bytes. *)
Definition encode_varint (u : Z) : list byte := encode_varint_aux 9 u.

(** The number a sequence of seven-bit groups denotes, low group first. *)
Fixpoint varint_value (bs : list byte) : Z :=
  match bs with
  | [] => 0
  | b :: tl => Z.land (uint8 b) 127 + 128 * varint_value tl
  end.

(** A byte with the continuation bit set, and one without. *)
Definition continues (b : byte) : Prop := Z.land (uint8 b) 128 <> 0.
Definition terminates (b : byte) : Prop := Z.land (uint8 b) 128 = 0.

(** ** Vocabulary of the properties *)

(** The outcome of a call with its surviving state mapped. *)
Definition map_state {S T A : Type} (f : S -> T) (o : outcome S A) : outcome T A :=
  match o with
  | Ok a s => Ok a (f s)
  | Err e s => Err e (f s)
  | Panic => Panic
  | OutOfFuel => OutOfFuel
  end.

(** A property of the state a call leaves, whether it returned a
    value or an error; the call did not stop for lack of fuel. *)
Definition after {A : Type} (o : outcome decoder A) (P : decoder -> Prop) : Prop :=
  match o with
  | Ok _ d' => P d'
  | Err _ d' => P d'
  | Panic => True
  | OutOfFuel => False
  end.

(** The context of a decoder: everything but the reader and the
    reference point. *)
Definition same_context (d d' : decoder) : Prop :=
  d_factors d' = d_factors d
  /\ d_ndims d' = d_ndims d
  /\ d_bbox d' = d_bbox d
  /\ d_size d' = d_size d
  /\ d_idlist d' = d_idlist d
  /\ d_empty d' = d_empty d
  /\ d_length d' = d_length d.

(** One decoder reached from another by reading: the same context,
    and no more bytes left than before. *)
Definition reads_on (d d' : decoder) : Prop :=
  same_context d d' /\ (List.length (d_r d') <= List.length (d_r d))%nat.

(** A call that leaves the context as it found it and only consumes
    bytes of the reader. *)
Definition framed {A : Type} (m : M A) : Prop :=
  forall d : decoder, after (m d) (reads_on d).

(** The same, for a call that may change the context. *)
Definition bounded {A : Type} (m : M A) : Prop :=
  forall d : decoder,
    after (m d) (fun d' => (List.length (d_r d') <= List.length (d_r d))%nat).

(** An outcome of [Decode] that is not a lack of fuel and leaves at
    most [n] bytes unread. *)
Definition leaves {A : Type} (n : nat) (o : outcome (list byte) A) : Prop :=
  match o with
  | Ok _ rest => (List.length rest <= n)%nat
  | Err _ rest => (List.length rest <= n)%nat
  | Panic => True
  | OutOfFuel => False
  end.

(** A call that does not look at the [empty] field: run on a state
    with another value of the field, it does the same and leaves that
    value in place. *)
Definition blind {A : Type} (m : M A) : Prop :=
  forall (e : bool) (d : decoder), m (set_empty e d) = map_state (set_empty e) (m d).


(** A geometry whose [Type()] and [Dim()] are defined: the type is one
    of the seven kinds, the dimension one of the four codes.  The
    members of a collection are such geometries again; the members of
    the three multi-geometries carry a nil header, on which both
    methods panic. *)
Definition kind_and_dim (g : Geometry) : Prop :=
  exists (t : GeomType) (dm : Z),
    Geometry_Type g = Some t /\ POINT <= t <= GEOMETRYCOLLECTION
    /\ Geometry_Dim g = Some dm /\ XY <= dm <= XYZM.

Definition no_kind_nor_dim (h : option Hdr) : Prop :=
  Hdr_Type h = None /\ Hdr_Dim h = None.

Fixpoint typed (g : Geometry) : Prop :=
  kind_and_dim g
  /\ match g with
     | GMultiPoint m => Forall (fun p => no_kind_nor_dim (Point_Hdr p)) (Points m)
     | GMultiLineString m =>
         Forall (fun l => no_kind_nor_dim (LineString_Hdr l)) (LineStrings m)
     | GMultiPolygon m => Forall (fun p => no_kind_nor_dim (Polygon_Hdr p)) (Polygons m)
     | GGeometryCollection _ _ gs =>
         (fix all (l : list Geometry) : Prop :=
            match l with
            | [] => True
            | x :: tl => typed x /\ all tl
            end) gs
     | _ => True
     end.


(** What the three body decoders put in the header field: the header
    they were given, its type and dimension untouched, or nil. *)
Definition keeps_header (h h' : option Hdr) : Prop :=
  match h, h' with
  | Some x, Some x' => gtype x' = gtype x /\ dim x' = dim x
  | None, None => True
  | _, _ => False
  end.

(** The box of [readCoords] after the ordinates [c] of one coordinate,
    taken from dimension [j] on. *)
Fixpoint coord_extend (n j : nat) (c : Coordinate) (bb : BBox) : BBox :=
  match c with
  | [] => bb
  | x :: tl => coord_extend n (S j) tl (bbox_extend n j x bb)
  end.

(** The box grown from [init] over the coordinates, in order. *)
Definition bbox_from (init : BBox) (n : nat) (coords : list Coordinate) : BBox :=
  fold_left (fun bb c => coord_extend n 0 c bb) coords init.

(** The box of the code: grown from [MaxInt64] and [MinInt64]. *)
Definition bbox_of (n : nat) (coords : list Coordinate) : BBox :=
  bbox_from (bbox_init n) n coords.

(** The box of the specification: grown from plus and minus infinity. *)
Definition bbox_inf (n : nat) : BBox :=
  repeat PrimFloat.infinity n ++ repeat PrimFloat.neg_infinity n.

(** The number of ordinates of a dimension code. *)
Definition ndims_of (dm : Z) : nat :=
  if dm =? XYZM then 4%nat else if dm =? XY then 2%nat else 3%nat.



(** A call that only reads: it leaves the decoder as it was but for
    the reader. *)
Definition only_reads {A : Type} (m : M A) : Prop :=
  forall d : decoder, after (m d) (fun d' => exists rest : list byte, d' = set_r d rest).

(** The members of a multi-geometry, as the member loop decodes them
    from [d] to [d']: each by the body decoder with a nil header, from
    the decoder the member before it left (reader, reference point and
    all), which has the context it had at the start; each member's
    header is nil.  [obs] is what a member shows of the decoder it
    starts from and the one it leaves. *)
Inductive members {A : Type} (body : option Hdr -> M A) (hdr_of : A -> option Hdr)
          (obs : decoder -> A -> decoder -> Prop)
  : decoder -> list A -> decoder -> Prop :=
| members_nil (d : decoder) : members body hdr_of obs d [] d
| members_cons (d d1 d2 : decoder) (p : A) (ps : list A) :
    body None d = Ok p d1 ->
    same_context d d1 ->
    hdr_of p = None ->
    obs d p d1 ->
    members body hdr_of obs d1 ps d2 ->
    members body hdr_of obs d (p :: ps) d2.


(** ** Vocabulary of the further properties *)

(** The bytes of a list of signed values: each the varint of its
    zigzag code. *)
Definition encode_svarints (vs : list Z) : list byte :=
  concat (map (fun v => encode_varint (zigzag v)) vs).

(** A value of type [int64]. *)
Definition is_int64 (v : Z) : Prop := MinInt64 <= v <= MaxInt64.


(** The factor of every dimension in use is a power of ten from 1 to
    10^7. *)
Definition factors_ok (d : decoder) : Prop :=
  forall j : nat, (j < d_ndims d)%nat ->
    exists p : Z, 0 <= p <= 7 /\ nth j (d_factors d) 0 = 10 ^ p.

(** The constructor of a geometry value, as a type code. *)
Definition kind_of (g : Geometry) : option GeomType :=
  match g with
  | GPoint _ => Some POINT
  | GLineString _ => Some LINESTRING
  | GPolygon _ => Some POLYGON
  | GMultiPoint _ => Some MULTIPOINT
  | GMultiLineString _ => Some MULTILINESTRING
  | GMultiPolygon _ => Some MULTIPOLYGON
  | GGeometryCollection _ _ _ => Some GEOMETRYCOLLECTION
  | GHdr _ => None
  end.


(** The identifier list of a multi-geometry of [n] members: one entry
    per member when the id-list flag is set, the nil slice otherwise. *)
Definition ids_match (flag : bool) (ids : list Z) (n : nat) : Prop :=
  if flag then List.length ids = n else ids = [].


(** Coordinates of [n] ordinates each. *)
Definition coords_have (n : nat) (cs : list Coordinate) : Prop :=
  Forall (fun c => List.length c = n) cs.

(** A geometry all of whose coordinates have the number of ordinates
    of its dimension code: the coordinate of a point, the coordinates
    of a line string, of every ring of a polygon, and of every member
    of a multi-geometry, under the header of the multi-geometry; the
    members of a collection each under their own header. *)
Fixpoint dims_ok (g : Geometry) : Prop :=
  match g with
  | GPoint p =>
      exists h : Hdr, Point_Hdr p = Some h
                      /\ List.length (Coord p) = ndims_of (dim h)
  | GLineString l =>
      exists h : Hdr, LineString_Hdr l = Some h
                      /\ coords_have (ndims_of (dim h)) (Coords l)
  | GPolygon p =>
      exists h : Hdr, Polygon_Hdr p = Some h
                      /\ Forall (coords_have (ndims_of (dim h))) (Rings p)
  | GMultiPoint m =>
      exists h : Hdr, MultiPoint_Hdr m = Some h
                      /\ Forall (fun p => List.length (Coord p) = ndims_of (dim h)) (Points m)
  | GMultiLineString m =>
      exists h : Hdr, MultiLineString_Hdr m = Some h
                      /\ Forall (fun l => coords_have (ndims_of (dim h)) (Coords l))
                                (LineStrings m)
  | GMultiPolygon m =>
      exists h : Hdr, MultiPolygon_Hdr m = Some h
                      /\ Forall (fun p => Forall (coords_have (ndims_of (dim h))) (Rings p))
                                (Polygons m)
  | GGeometryCollection _ _ gs =>
      (fix all (l : list Geometry) : Prop :=
         match l with
         | [] => True
         | x :: tl => dims_ok x /\ all tl
         end) gs
  | GHdr _ => True
  end.


(** The reference point after the deltas [vs] of one coordinate are
    added, dimension [j] first: [int64] additions. *)
Fixpoint add_deltas (rp : list Z) (j : nat) (vs : list Z) : list Z :=
  match vs with
  | [] => rp
  | v :: tl => add_deltas (upd rp j (int64 (nth j rp 0 + v))) (S j) tl
  end.

(** The coordinate of [n] ordinates a reference point stands for under
    the factors [fs]. *)
Definition coord_at (n : nat) (fs rp : list Z) : Coordinate :=
  map (fun j => PrimFloat.div (float64 (nth j rp 0)) (float64 (nth j fs 0))) (seq 0 n).

(** The coordinates of rows of deltas, each row added to the reference
    point the row before left. *)
Fixpoint delta_coords (n : nat) (fs rp : list Z) (rows : list (list Z)) : list Coordinate :=
  match rows with
  | [] => []
  | row :: tl =>
      coord_at n fs (add_deltas rp 0 row) :: delta_coords n fs (add_deltas rp 0 row) tl
  end.

(** The reference point after all the rows. *)
Definition final_refpoint (rp : list Z) (rows : list (list Z)) : list Z :=
  fold_left (fun r row => add_deltas r 0 row) rows rp.

(** The bytes of rows of deltas: signed varints, row after row. *)
Definition encode_rows (rows : list (list Z)) : list byte :=
  concat (map encode_svarints rows).

(** A row of deltas for [n] dimensions. *)
Definition is_row (n : nat) (row : list Z) : Prop :=
  List.length row = n /\ Forall is_int64 row.


(** What a call did to the reader: it took bytes off its front. *)
Definition took (d d' : decoder) : Prop :=
  exists c : list byte, d_r d = c ++ d_r d'.

(** A call that only takes bytes off the front of the reader, and
    fails with [EOF] only, the reader exhausted. *)
Definition settles {A : Type} (m : M A) : Prop :=
  forall d : decoder,
    match m d with
    | Ok _ d' => took d d'
    | Err e d' => e = EOF /\ d_r d' = []
    | Panic => True
    | OutOfFuel => True
    end.

(** A type byte whose low nibble is none of the seven kinds. *)
Definition unknown_type (t : byte) : Prop :=
  ~ (POINT <= Z.land (uint8 t) 15 <= GEOMETRYCOLLECTION).

(** What an outcome on the input [rd] leaves unread: after a success a
    tail of the input; after [EOF] nothing; after the unknown-geometry
    error the tail behind a type byte of unknown kind. *)
Definition settled {A : Type} (rd : list byte) (o : outcome (list byte) A) : Prop :=
  match o with
  | Ok _ rest => exists c : list byte, rd = c ++ rest
  | Err EOF rest => rest = []
  | Err ErrUnknownGeom rest =>
      exists (c : list byte) (t : byte), rd = c ++ t :: rest /\ unknown_type t
  | Panic => True
  | OutOfFuel => True
  end.

(** The same for a call on a decoder. *)
Definition resolves {A : Type} (m : M A) : Prop :=
  forall d : decoder, settled (d_r d) (map_state d_r (m d)).


(** Geometries decoded one after the other by [Decode] itself, each
    from the bytes the one before left. *)
Inductive decoded_seq : list byte -> list Geometry -> list byte -> Prop :=
| decoded_nil (r : list byte) : decoded_seq r [] r
| decoded_cons (r r1 r2 : list byte) (g : Geometry) (gs : list Geometry) :
    Decode r = Ok g r1 ->
    decoded_seq r1 gs r2 ->
    decoded_seq r (g :: gs) r2.


(** A call that never panics. *)
Definition calm {A : Type} (m : M A) : Prop :=
  forall d : decoder, m d <> Panic.


(** The bytes of the rings of a polygon: for each ring its count, then
    its rows of deltas. *)
Definition encode_rings (rings : list (list (list Z))) : list byte :=
  concat (map (fun rows => encode_varint (Z.of_nat (List.length rows)) ++ encode_rows rows)
              rings).

(** The reference point after all the rings. *)
Definition rings_refpoint (rp : list Z) (rings : list (list (list Z))) : list Z :=
  fold_left final_refpoint rings rp.

(** The coordinates of rings of deltas: each ring goes on from the
    reference point the ring before left. *)
Fixpoint rings_coords (n : nat) (fs rp : list Z) (rings : list (list (list Z)))
  : list LinearRing :=
  match rings with
  | [] => []
  | rows :: tl => delta_coords n fs rp rows :: rings_coords n fs (final_refpoint rp rows) tl
  end.

(** A ring of rows of deltas for [n] dimensions, its count an [int]. *)
Definition is_ring (n : nat) (rows : list (list Z)) : Prop :=
  Forall (is_row n) rows /\ Z.of_nat (List.length rows) < 2 ^ 63.


(** The two fields of the size flag: [size] and [length]. *)
Definition set_sized (sz : bool) (len : Z) (d : decoder) : decoder :=
  mkDecoder (d_r d) (d_refpoint d) (d_factors d) (d_ndims d)
            (d_bbox d) sz (d_idlist d) (d_empty d) len.

(** A call that looks at neither [size] nor [length]: run on a state
    with other values of the two fields, it does the same and leaves
    those values in place. *)
Definition unsized {A : Type} (m : M A) : Prop :=
  forall (sz : bool) (len : Z) (d : decoder),
    m (set_sized sz len d) = map_state (set_sized sz len) (m d).


(** ** The box, dimension by dimension

    The box of the format is, for each dimension, the smallest and the
    largest ordinate.  The definitions below say it that way, not as the
    in-place updates of [readCoords]: a running minimum and maximum per
    column, under the order of Go's [<] on [float64] (the running value
    gives way to an ordinate strictly beyond it), from the values the
    code starts with. *)

Definition fmin (a c : float) : float := if PrimFloat.ltb c a then c else a.

Definition fmax (a c : float) : float := if PrimFloat.ltb a c then c else a.

(** The ordinates of dimension [j], coordinate after coordinate. *)
Definition column (j : nat) (coords : list Coordinate) : list float :=
  map (fun c => nth j c 0%float) coords.

Definition minmax_box (n : nat) (coords : list Coordinate) : BBox :=
  map (fun j => fold_left fmin (column j coords) (float64 MaxInt64)) (seq 0 n)
  ++ map (fun j => fold_left fmax (column j coords) (float64 MinInt64)) (seq 0 n).

(** ** What a member of a multi-geometry shows

    Each says how the member decoded from [d] to [d'] stands to the
    parent's decoder: its coordinates are running sums that go on from
    the reference point [d] holds, over the factors and for the
    dimensions of [d]. *)




(** * Properties *)

(** ** Machine integers *)

Lemma wrap64_range (x : Z) : 0 <= wrap64 x < 2 ^ 64.
Proof. unfold wrap64. apply Z.mod_pos_bound. lia. Qed.

Lemma wrap64_small (x : Z) : 0 <= x < 2 ^ 64 -> wrap64 x = x.
Proof. intros H. unfold wrap64. apply Z.mod_small. exact H. Qed.

Lemma wrap64_land (x : Z) : wrap64 x = Z.land x (Z.ones 64).
Proof. unfold wrap64. rewrite Z.land_ones by lia. reflexivity. Qed.


Lemma int64_small (x : Z) : MinInt64 <= x <= MaxInt64 -> int64 x = x.
Proof.
  unfold int64, wrap64, MinInt64, MaxInt64. intros H.
  destruct (Z.neg_nonneg_cases x) as [Hn | Hp].
  - assert (Hm : x mod 2 ^ 64 = x + 2 ^ 64).
    { symmetry. apply Z.mod_unique with (q := -1); lia. }
    rewrite Hm.
    destruct (x + 2 ^ 64 <? 2 ^ 63) eqn:E; [apply Z.ltb_lt in E | apply Z.ltb_ge in E]; lia.
  - rewrite Z.mod_small by lia.
    destruct (x <? 2 ^ 63) eqn:E; [apply Z.ltb_lt in E | apply Z.ltb_ge in E]; lia.
Qed.

Lemma int64_congr (x y : Z) : wrap64 x = wrap64 y -> int64 x = int64 y.
Proof. unfold int64. intros ->. reflexivity. Qed.

Lemma uint8_range (b : byte) : 0 <= uint8 b < 256.
Proof.
  unfold uint8. pose proof (Byte.to_N_bounded b) as H. lia.
Qed.

Lemma uint8_byte_of (x : Z) : uint8 (byte_of x) = x mod 256.
Proof.
  unfold uint8, byte_of.
  assert (Hr : 0 <= x mod 256 < 256) by (apply Z.mod_pos_bound; lia).
  destruct (Byte.of_N (Z.to_N (x mod 256))) as [b|] eqn:E.
  - apply Byte.to_of_N in E. rewrite E. lia.
  - apply Byte.of_N_None_iff in E. lia.
Qed.

Lemma shl64_wrap (x s : Z) : 0 <= s -> shl64 x s = wrap64 (Z.shiftl x s).
Proof.
  intros Hs. unfold shl64.
  destruct (s <? 64) eqn:E; [reflexivity | apply Z.ltb_ge in E].
  unfold wrap64. rewrite Z.shiftl_mul_pow2 by lia.
  replace s with (64 + (s - 64)) by lia.
  rewrite Z.pow_add_r by lia.
  rewrite Z.mul_assoc, (Z.mul_comm x), <- Z.mul_assoc.
  symmetry. rewrite Z.mul_comm. apply Z.mod_mul. lia.
Qed.

(** ** Zigzag *)

(** [unzigzag] in arithmetic: half of an even value, minus half minus
    one of an odd value. *)
Lemma unzigzag_arith (u : Z) :
  0 <= u < 2 ^ 64 ->
  unzigzag u = if Z.even u then Z.shiftr u 1 else - Z.shiftr u 1 - 1.
Proof.
  intros Hu. unfold unzigzag.
  assert (Hl : Z.land u 1 = u mod 2).
  { change 1 with (Z.ones 1). rewrite Z.land_ones by lia. reflexivity. }
  assert (Hh : 0 <= Z.shiftr u 1 < 2 ^ 63).
  { rewrite Z.shiftr_div_pow2 by lia. change (2 ^ 1) with 2.
    split; [apply Z.div_pos; lia | apply Z.div_lt_upper_bound; lia]. }
  rewrite Hl, Zmod_even.
  destruct (Z.even u); simpl.
  - apply int64_small. unfold MinInt64, MaxInt64. lia.
  - transitivity (int64 (- Z.shiftr u 1 - 1));
      [| apply int64_small; unfold MinInt64, MaxInt64; lia].
    apply int64_congr. unfold wrap64.
    rewrite Z.mod_mod by lia.
    rewrite Zminus_mod_idemp_l. reflexivity.
Qed.

(** The zigzag encoding in arithmetic. *)
Lemma zigzag_arith (v : Z) :
  MinInt64 <= v <= MaxInt64 ->
  zigzag v = if v <? 0 then - 2 * v - 1 else 2 * v.
Proof.
  unfold MinInt64, MaxInt64, zigzag. intros Hv.
  rewrite Z.shiftl_mul_pow2 by lia. change (2 ^ 1) with 2.
  destruct (v <? 0) eqn:E; [apply Z.ltb_lt in E | apply Z.ltb_ge in E].
  - assert (Hs : Z.shiftr v 63 = -1).
    { rewrite Z.shiftr_div_pow2 by lia.
      symmetry. apply Z.div_unique with (r := v + 2 ^ 63); lia. }
    rewrite Hs, Z.lxor_m1_r.
    pose proof (Z.add_lnot_diag (v * 2)) as Hn.
    replace (Z.lnot (v * 2)) with (- 2 * v - 1) by lia.
    apply wrap64_small. lia.
  - assert (Hs : Z.shiftr v 63 = 0).
    { rewrite Z.shiftr_div_pow2 by lia. apply Z.div_small. lia. }
    rewrite Hs, Z.lxor_0_r. rewrite wrap64_small; lia.
Qed.

Lemma zigzag_range (v : Z) : 0 <= zigzag v < 2 ^ 64.
Proof. apply wrap64_range. Qed.

(** C5: the zigzag decoder maps an even [u] to [u >> 1] and an odd [u]
    to [-(u >> 1) - 1], and it inverts the zigzag encoding of every
    signed 64-bit value. *)
Theorem unzigzag_zigzag (u v : Z) :
  0 <= u < 2 ^ 64 ->
  MinInt64 <= v <= MaxInt64 ->
  unzigzag u = (if Z.even u then Z.shiftr u 1 else - Z.shiftr u 1 - 1)
  /\ unzigzag (zigzag v) = v.
Proof.
  intros Hu Hv. split; [apply unzigzag_arith; exact Hu |].
  rewrite unzigzag_arith by apply zigzag_range.
  rewrite zigzag_arith by exact Hv.
  unfold MinInt64, MaxInt64 in Hv.
  destruct (v <? 0) eqn:E; [apply Z.ltb_lt in E | apply Z.ltb_ge in E].
  - replace (- 2 * v - 1) with (1 + 2 * (- v - 1)) by lia.
    rewrite Z.even_add_mul_2. simpl Z.even. cbv iota.
    rewrite Z.shiftr_div_pow2 by lia. change (2 ^ 1) with 2.
    rewrite Z.add_comm, Z.mul_comm, Z.div_add_l by lia.
    change (1 / 2) with 0. lia.
  - replace (2 * v) with (0 + 2 * v) by lia.
    rewrite Z.even_add_mul_2. simpl Z.even. cbv iota.
    rewrite Z.shiftr_div_pow2 by lia. change (2 ^ 1) with 2.
    rewrite Z.add_comm, Z.mul_comm, Z.div_add_l by lia.
    change (0 / 2) with 0. lia.
Qed.

Lemma unzigzag_zigzag_witness :
  0 <= 3 < 2 ^ 64 /\ MinInt64 <= -2 <= MaxInt64
  /\ unzigzag 3 = -2 /\ unzigzag (zigzag (-2)) = -2.
Proof.
  assert (Hu : 0 <= 3 < 2 ^ 64) by lia.
  assert (Hv : MinInt64 <= -2 <= MaxInt64) by (unfold MinInt64, MaxInt64; lia).
  split; [exact Hu | split; [exact Hv |]].
  exact (unzigzag_zigzag 3 (-2) Hu Hv).
Defined.

(** ** Varints *)

(** A seven-bit group below the groups shifted above it: the sum has
    no carry. *)
Lemma group_add_lor (p V : Z) :
  0 <= p < 128 -> p + 128 * V = Z.lor p (Z.shiftl V 7).
Proof.
  intros Hp. rewrite Z.shiftl_mul_pow2 by lia. change (2 ^ 7) with 128.
  rewrite (Z.mul_comm V).
  assert (Hd : Z.land p (128 * V) = 0); [| rewrite <- Z.lxor_lor by exact Hd;
                                           apply Z.add_nocarry_lxor; exact Hd].
  apply Z.bits_inj'. intros n Hn.
  rewrite Z.land_spec, Z.bits_0.
  destruct (Z.ltb_spec n 7) as [Hlt | Hge].
  - replace (128 * V) with (V * 2 ^ 7) by lia.
    rewrite Z.mul_pow2_bits_low by lia. apply andb_false_r.
  - replace (Z.testbit p n) with false; [reflexivity |].
    symmetry. apply Z.bits_above_log2; [lia |].
    destruct (Z.eq_dec p 0) as [-> | Hnz]; [simpl; lia |].
    apply Z.lt_le_trans with 7; [| exact Hge].
    apply Z.log2_lt_pow2; lia.
Qed.

(** The step of the loop, on values: joining a group at [s] with the
    groups above it, modulo 2^64. *)
Lemma group_join (p V s : Z) :
  0 <= s ->
  Z.lor (wrap64 (Z.shiftl p s)) (wrap64 (Z.shiftl V (s + 7)))
  = wrap64 (Z.shiftl (Z.lor p (Z.shiftl V 7)) s).
Proof.
  intros Hs. rewrite !wrap64_land.
  rewrite <- Z.land_lor_distr_l, Z.shiftl_lor.
  rewrite Z.shiftl_shiftl by lia.
  replace (7 + s) with (s + 7) by lia. reflexivity.
Qed.

Lemma land_127_range (x : Z) : 0 <= Z.land x 127 < 128.
Proof.
  change 127 with (Z.ones 7). rewrite Z.land_ones by lia.
  apply Z.mod_pos_bound. lia.
Qed.

Lemma terminates_value (t : byte) : terminates t -> Z.land (uint8 t) 127 = uint8 t.
Proof.
  unfold terminates. intros Ht.
  pose proof (uint8_range t) as Hr.
  apply Z.bits_inj'. intros n Hn.
  rewrite Z.land_spec.
  change 127 with (Z.ones 7). rewrite Z.testbit_ones_nonneg by lia.
  destruct (Z.ltb_spec n 7) as [Hlt | Hge]; [apply andb_true_r |].
  rewrite andb_false_r. symmetry.
  destruct (Z.eq_dec n 7) as [-> | Hne].
  - assert (Hb : Z.testbit (Z.land (uint8 t) 128) 7 = false) by (rewrite Ht; apply Z.bits_0).
    rewrite Z.land_spec in Hb. change (Z.testbit 128 7) with true in Hb.
    rewrite andb_true_r in Hb. exact Hb.
  - apply Z.bits_above_log2; [lia |].
    destruct (Z.eq_dec (uint8 t) 0) as [-> | Hnz]; [simpl; lia |].
    apply Z.lt_le_trans with 8; [| lia].
    apply Z.log2_lt_pow2; lia.
Qed.

Lemma varint_value_nonneg (bs : list byte) : 0 <= varint_value bs.
Proof.
  induction bs as [| b tl IH]; cbn [varint_value]; [lia |].
  pose proof (land_127_range (uint8 b)). lia.
Qed.

Lemma varint_value_app (l1 l2 : list byte) :
  varint_value (l1 ++ l2)
  = varint_value l1 + 128 ^ Z.of_nat (List.length l1) * varint_value l2.
Proof.
  induction l1 as [| b tl IH].
  - cbn [app varint_value List.length]. change (Z.of_nat 0) with 0. lia.
  - cbn [app varint_value List.length]. rewrite IH.
    rewrite Nat2Z.inj_succ, Z.pow_succ_r by lia. ring.
Qed.

(** What the loop of [readVarInt64] computes on continuation bytes
    [bs] followed by a terminator [t], as long as the shift counter
    itself does not wrap. *)
Lemma readVarInt64_loop_value (bs : list byte) :
  forall (val s : Z) (t : byte) (rest : list byte),
    Forall continues bs -> terminates t ->
    0 <= s -> s + 7 * Z.of_nat (List.length bs) < 2 ^ 64 ->
    readVarInt64_loop val s (bs ++ t :: rest)
    = Some (Z.lor val (wrap64 (Z.shiftl (varint_value (bs ++ [t])) s)), rest).
Proof.
  induction bs as [| b tl IH]; intros val s t rest Hc Ht Hs Hlen.
  - cbn [app readVarInt64_loop varint_value].
    unfold terminates in Ht. rewrite Ht, Z.eqb_refl.
    rewrite shl64_wrap by exact Hs.
    rewrite terminates_value by exact Ht.
    rewrite Z.mul_0_r, Z.add_0_r. reflexivity.
  - inversion Hc as [| ? ? Hb Htl]; subst.
    cbn [app readVarInt64_loop varint_value List.length] in *.
    unfold continues in Hb. apply Z.eqb_neq in Hb. rewrite Hb.
    rewrite Nat2Z.inj_succ in Hlen.
    rewrite (wrap64_small (s + 7)) by lia.
    rewrite IH by (try assumption; lia).
    rewrite shl64_wrap by exact Hs.
    rewrite <- Z.lor_assoc, group_join by exact Hs.
    rewrite <- group_add_lor by apply land_127_range.
    reflexivity.
Qed.

(** A reader that ends on a continuation byte, or is empty. *)
Lemma readVarInt64_loop_truncated (bs : list byte) :
  forall val s : Z, Forall continues bs -> readVarInt64_loop val s bs = None.
Proof.
  induction bs as [| b tl IH]; intros val s Hc; [reflexivity |].
  inversion Hc as [| ? ? Hb Htl]; subst.
  cbn [readVarInt64_loop]. unfold continues in Hb.
  apply Z.eqb_neq in Hb. rewrite Hb. apply IH. exact Htl.
Qed.

Lemma land_128_small (u : Z) : 0 <= u < 128 -> Z.land u 128 = 0.
Proof.
  intros Hu. apply Z.bits_inj'. intros n Hn.
  rewrite Z.land_spec, Z.bits_0.
  change 128 with (2 ^ 7). rewrite Z.pow2_bits_eqb by lia.
  destruct (Z.eqb_spec 7 n) as [<- | Hne]; [| apply andb_false_r].
  rewrite andb_true_r.
  destruct (Z.eq_dec u 0) as [-> | Hnz]; [apply Z.bits_0 |].
  apply Z.bits_above_log2; [lia |]. apply Z.log2_lt_pow2; lia.
Qed.

(** The bytes of the encoder: continuation bytes, one terminator, and
    the groups of [u]. *)
Lemma encode_varint_aux_shape (n : nat) :
  forall u : Z,
    0 <= u < 2 ^ (7 * (Z.of_nat n + 1)) ->
    exists (bs : list byte) (t : byte),
      encode_varint_aux n u = bs ++ [t]
      /\ Forall continues bs /\ terminates t
      /\ (List.length bs <= n)%nat
      /\ varint_value (bs ++ [t]) = u.
Proof.
  assert (Hlast : forall u, 0 <= u < 128 ->
            terminates (byte_of u) /\ varint_value ([] ++ [byte_of u]) = u).
  { intros u Hu.
    assert (Hv : uint8 (byte_of u) = u)
      by (rewrite uint8_byte_of; apply Z.mod_small; lia).
    assert (Ht : terminates (byte_of u))
      by (unfold terminates; rewrite Hv; apply land_128_small; exact Hu).
    split; [exact Ht |].
    cbn [app varint_value]. rewrite terminates_value by exact Ht. lia. }
  induction n as [| n IH]; intros u Hu.
  - change (2 ^ (7 * (Z.of_nat 0 + 1))) with 128 in Hu.
    destruct (Hlast u Hu) as [Ht Hv].
    exists [], (byte_of u). cbn [encode_varint_aux app List.length].
    repeat split; auto.
  - cbn [encode_varint_aux].
    destruct (u <? 128) eqn:E; [apply Z.ltb_lt in E | apply Z.ltb_ge in E].
    + destruct (Hlast u ltac:(lia)) as [Ht Hv].
      exists [], (byte_of u). cbn [app List.length].
      repeat split; auto. lia.
    + assert (Hq : 0 <= Z.shiftr u 7 < 2 ^ (7 * (Z.of_nat n + 1))).
      { rewrite Z.shiftr_div_pow2 by lia.
        split; [apply Z.div_pos; lia |].
        apply Z.div_lt_upper_bound; [lia |].
        rewrite <- Z.pow_add_r by lia.
        replace (7 + 7 * (Z.of_nat n + 1)) with (7 * (Z.of_nat (S n) + 1)) by lia.
        lia. }
      destruct (IH _ Hq) as (bs & t & Henc & Hc & Ht & Hlen & Hv).
      pose proof (land_127_range u) as Hp.
      assert (Hb : uint8 (byte_of (Z.lor (Z.land u 127) 128)) = Z.lor (Z.land u 127) 128).
      { rewrite uint8_byte_of. apply Z.mod_small.
        change 128 with (Z.shiftl 1 7).
        rewrite <- group_add_lor by exact Hp. lia. }
      exists (byte_of (Z.lor (Z.land u 127) 128) :: bs), t.
      rewrite Henc. cbn [app List.length varint_value].
      repeat split; try assumption; try lia.
      * constructor; [| exact Hc].
        unfold continues. rewrite Hb, Z.land_lor_distr_l.
        rewrite land_128_small by exact Hp.
        change (Z.land 128 128) with 128. rewrite Z.lor_0_l. lia.
      * rewrite Hb, Hv, Z.land_lor_distr_l.
        rewrite <- Z.land_assoc. change (Z.land 127 127) with 127.
        change (Z.land 128 127) with 0. rewrite Z.lor_0_r.
        change 127 with (Z.ones 7). rewrite Z.land_ones by lia.
        rewrite Z.shiftr_div_pow2 by lia.
        symmetry. rewrite Z.add_comm. apply Z.div_mod. lia.
Qed.

Lemma set_r_set_r (d : decoder) (a b : list byte) : set_r (set_r d a) b = set_r d b.
Proof. reflexivity. Qed.

(** C7: the unsigned varint reader returns the value a little-endian
    base-128 encoder wrote and leaves the bytes after it; on a reader
    that ends with the continuation bit still set it fails with the
    read error. *)
Theorem readVarInt64_roundtrip_truncated (d : decoder) (u : Z) (rest bs : list byte) :
  0 <= u < 2 ^ 64 ->
  Forall continues bs ->
  readVarInt64 (set_r d (encode_varint u ++ rest)) = Ok u (set_r d rest)
  /\ readVarInt64 (set_r d bs) = Err EOF (set_r d []).
Proof.
  intros Hu Hc. split.
  - destruct (encode_varint_aux_shape 9 u) as (l & t & Henc & Hl & Ht & Hlen & Hv).
    { change (2 ^ (7 * (Z.of_nat 9 + 1))) with (2 ^ 70). lia. }
    unfold readVarInt64, encode_varint. cbn [d_r set_r].
    rewrite Henc, <- app_assoc. cbn [app].
    rewrite readVarInt64_loop_value by (try assumption; lia).
    rewrite Hv, Z.shiftl_0_r, Z.lor_0_l, wrap64_small by exact Hu.
    reflexivity.
  - unfold readVarInt64. cbn [d_r set_r].
    rewrite readVarInt64_loop_truncated by exact Hc. reflexivity.
Qed.

Lemma readVarInt64_roundtrip_truncated_witness :
  readVarInt64 (set_r (new_decoder []) (encode_varint 300 ++ bytes [7]))
  = Ok 300 (set_r (new_decoder []) (bytes [7]))
  /\ readVarInt64 (set_r (new_decoder []) (bytes [172; 130]))
     = Err EOF (set_r (new_decoder []) []).
Proof.
  apply (readVarInt64_roundtrip_truncated (new_decoder []) 300 (bytes [7]) (bytes [172; 130])).
  - lia.
  - repeat constructor; unfold continues; vm_compute; discriminate.
Defined.

(** C10: a terminated varint of more than ten bytes is read without
    an error; the value holds the groups of the first ten bytes only
    (modulo 2^64), every later group is dropped.  The bound on the
    length keeps the shift counter, a [uint], from wrapping. *)
Theorem readVarInt64_overlong (d : decoder) (bs : list byte) (t : byte) (rest : list byte) :
  Forall continues bs ->
  terminates t ->
  (10 <= List.length bs)%nat ->
  7 * Z.of_nat (List.length bs) < 2 ^ 64 ->
  readVarInt64 (set_r d (bs ++ t :: rest))
  = Ok (wrap64 (varint_value (firstn 10 bs))) (set_r d rest).
Proof.
  intros Hc Ht Hlen Hw.
  unfold readVarInt64. cbn [d_r set_r].
  rewrite readVarInt64_loop_value by (try assumption; lia).
  rewrite Z.shiftl_0_r, Z.lor_0_l.
  rewrite <- (firstn_skipn 10 bs) at 1.
  rewrite <- app_assoc, varint_value_app.
  rewrite length_firstn, Nat.min_l by exact Hlen.
  change (128 ^ Z.of_nat 10) with (64 * 2 ^ 64).
  unfold wrap64 at 1.
  rewrite (Z.mul_comm 64), <- Z.mul_assoc, (Z.mul_comm (2 ^ 64)).
  rewrite Z_mod_plus_full. reflexivity.
Qed.

Lemma readVarInt64_overlong_witness :
  readVarInt64 (set_r (new_decoder [])
                  (bytes [255; 128; 128; 128; 128; 128; 128; 128; 128; 255; 255] ++
                   byte_of 1 :: bytes [9]))
  = Ok (2 ^ 63 + 127) (set_r (new_decoder []) (bytes [9])).
Proof.
  apply (readVarInt64_overlong (new_decoder [])
           (bytes [255; 128; 128; 128; 128; 128; 128; 128; 128; 255; 255])
           (byte_of 1) (bytes [9])).
  - repeat constructor; unfold continues; vm_compute; discriminate.
  - vm_compute; reflexivity.
  - cbn [bytes map List.length]. lia.
  - cbn [bytes map List.length]. lia.
Defined.

(** ** The type-and-precision byte *)

Lemma Decode_fuel_unknown (fuel : nat) (b : byte) (rest : list byte) :
  Z.land (uint8 b) 15 = 0 \/ 7 < Z.land (uint8 b) 15 ->
  Decode_fuel (S fuel) (b :: rest) = Err ErrUnknownGeom rest.
Proof.
  intros H.
  cbn [Decode_fuel]. unfold run_Decode, Decode_body, Decode_header, bind, read.
  cbn [new_decoder d_r].
  assert (Hg : (Z.land (uint8 b) 15 >? GEOMETRYCOLLECTION)
               || (Z.land (uint8 b) 15 <? POINT) = true).
  { unfold GEOMETRYCOLLECTION, POINT. apply orb_true_iff.
    destruct H as [H | H]; [right; apply Z.ltb_lt; lia | left; apply Z.gtb_lt; lia]. }
  rewrite Hg. reflexivity.
Qed.

(** C6: when the type nibble of the first byte is 0 or above 7,
    [Decode] fails with the unknown-geometry error, whatever follows,
    and returns no geometry. *)
Theorem Decode_unknown_geom (b : byte) (rest : list byte) :
  Z.land (uint8 b) 15 = 0 \/ 7 < Z.land (uint8 b) 15 ->
  Decode (b :: rest) = Err ErrUnknownGeom rest
  /\ forall (g : Geometry) (rest' : list byte), Decode (b :: rest) <> Ok g rest'.
Proof.
  intros H.
  assert (E : Decode (b :: rest) = Err ErrUnknownGeom rest)
    by (unfold Decode; apply Decode_fuel_unknown; exact H).
  split; [exact E |]. intros g rest'. rewrite E. discriminate.
Qed.

Lemma Decode_unknown_geom_witness :
  Decode (byte_of 24 :: bytes [0; 2; 4]) = Err ErrUnknownGeom (bytes [0; 2; 4])
  /\ forall (g : Geometry) (rest' : list byte),
       Decode (byte_of 24 :: bytes [0; 2; 4]) <> Ok g rest'.
Proof.
  apply (Decode_unknown_geom (byte_of 24) (bytes [0; 2; 4])).
  right. vm_compute. reflexivity.
Defined.

(** The precision the code computes is half of the high nibble: the
    mask leaves bit 0 clear, so [unzigzag] always takes its even branch. *)
Lemma precision_half_nibble (b : byte) :
  precision (uint8 b) = Z.shiftr (uint8 b) 5.
Proof.
  unfold precision.
  pose proof (uint8_range b) as Hb.
  assert (Hm : Z.land (uint8 b) 240 = 16 * (uint8 b / 16)).
  { change 240 with (Z.shiftl (Z.ones 4) 4).
    apply Z.bits_inj'. intros n Hn.
    rewrite Z.land_spec.
    replace (16 * (uint8 b / 16)) with (Z.shiftl (Z.shiftr (uint8 b) 4) 4)
      by (rewrite Z.shiftl_mul_pow2, Z.shiftr_div_pow2 by lia; change (2 ^ 4) with 16; lia).
    rewrite !Z.shiftl_spec by lia.
    destruct (Z.ltb_spec n 4) as [Hlt | Hge].
    - rewrite (Z.testbit_neg_r (Z.ones 4) (n - 4)) by lia.
      rewrite (Z.testbit_neg_r (Z.shiftr (uint8 b) 4) (n - 4)) by lia.
      apply andb_false_r.
    - rewrite Z.shiftr_spec by lia.
      replace (n - 4 + 4) with n by lia.
      rewrite Z.testbit_ones_nonneg by lia.
      destruct (Z.ltb_spec (n - 4) 4) as [Hl | Hg]; [apply andb_true_r |].
      rewrite andb_false_r. symmetry.
      destruct (Z.eq_dec (uint8 b) 0) as [-> | Hnz]; [apply Z.bits_0 |].
      apply Z.bits_above_log2; [lia |].
      apply Z.lt_le_trans with 8; [apply Z.log2_lt_pow2; lia | lia]. }
  assert (Hq : 0 <= uint8 b / 16 < 16)
    by (split; [apply Z.div_pos; lia | apply Z.div_lt_upper_bound; lia]).
  rewrite unzigzag_arith by (rewrite Hm; lia).
  rewrite Hm.
  replace (16 * (uint8 b / 16)) with (0 + 2 * (8 * (uint8 b / 16))) by lia.
  rewrite Z.even_add_mul_2. simpl Z.even. cbv iota.
  rewrite Z.shiftr_shiftr by lia. change (1 + 4) with 5.
  rewrite !Z.shiftr_div_pow2 by lia. change (2 ^ 5) with 32.
  replace (0 + 2 * (8 * (uint8 b / 16))) with ((uint8 b / 16) * 16) by lia.
  replace 32 with (16 * 2) by lia.
  rewrite <- !Z.div_div by lia.
  rewrite Z.div_mul by lia. reflexivity.
Qed.

(** The exponent given to [math.Pow10] is never negative: the factors
    are exact powers of ten from 1 to 10^7. *)
Lemma precision_range (b : byte) : 0 <= precision (uint8 b) <= 7.
Proof.
  rewrite precision_half_nibble.
  pose proof (uint8_range b) as Hb.
  rewrite Z.shiftr_div_pow2 by lia. change (2 ^ 5) with 32.
  split; [apply Z.div_pos; lia |].
  apply Z.lt_succ_r. apply Z.div_lt_upper_bound; lia.
Qed.

(** C1: at the type-and-precision byte 0x11 (Point, high nibble 1, the
    zigzag code of -1) the code takes precision 0 and not
    [unzigzag 1 = -1]: the point read from [02 04] is (1, 2), the
    accumulated integers divided by 10^0. *)
Theorem precision_odd_nibble :
  unzigzag (Z.shiftr 17 4) = -1
  /\ precision 17 = 0
  /\ Decode (bytes [17; 0; 2; 4])
     = Ok (GPoint (mkPoint (Some (mkHdr POINT XY
                                    (Some [1%float; 2%float; 1%float; 2%float])))
                           [1%float; 2%float])) [].
Proof. repeat split; vm_compute; reflexivity. Qed.

(** C2: on the input [03 00 01 01 02] (a polygon of one ring of one
    point whose second ordinate is missing) the coordinate read fails
    with [EOF], and [Decode] still returns a polygon, its ring empty. *)
Theorem decodePolygon_drops_read_error :
  readCoords 1 (mkDecoder (bytes [2]) [0; 0; 0; 0] [1; 1; 0; 0] 2
                          false false false false 0)
  = Err EOF (mkDecoder [] [1; 0; 0; 0] [1; 1; 0; 0] 2 false false false false 0)
  /\ Decode (bytes [3; 0; 1; 1; 2])
     = Ok (GPolygon (mkPolygon (Some (mkHdr POLYGON XY None)) [[]])) [].
Proof. split; vm_compute; reflexivity. Qed.

(** ** The decoder monad *)

Lemma bind_Ok {A B : Type} (m : M A) (k : A -> M B) (d d' : decoder) (b : B) :
  bind m k d = Ok b d' ->
  exists (a : A) (d1 : decoder), m d = Ok a d1 /\ k a d1 = Ok b d'.
Proof.
  unfold bind. destruct (m d) as [a d1 | e d1 | |]; try discriminate.
  intros H. exists a, d1. split; [reflexivity | exact H].
Qed.

Lemma same_context_refl (d : decoder) : same_context d d.
Proof. unfold same_context. repeat split. Qed.

Lemma same_context_trans (d1 d2 d3 : decoder) :
  same_context d1 d2 -> same_context d2 d3 -> same_context d1 d3.
Proof.
  unfold same_context.
  intros (H1 & H2 & H3 & H4 & H5 & H6 & H7) (K1 & K2 & K3 & K4 & K5 & K6 & K7).
  repeat split; congruence.
Qed.

Lemma same_context_set_r (d : decoder) (bs : list byte) : same_context d (set_r d bs).
Proof. unfold same_context. repeat split. Qed.

Lemma same_context_set_refpoint (d : decoder) (rp : list Z) :
  same_context d (set_refpoint d rp).
Proof. unfold same_context. repeat split. Qed.

Lemma reads_on_refl (d : decoder) : reads_on d d.
Proof. split; [apply same_context_refl | apply Nat.le_refl]. Qed.

Lemma reads_on_trans (d1 d2 d3 : decoder) :
  reads_on d1 d2 -> reads_on d2 d3 -> reads_on d1 d3.
Proof.
  intros [C1 L1] [C2 L2]. split; [eapply same_context_trans; eassumption | lia].
Qed.

Lemma reads_on_set_r (d : decoder) (bs : list byte) :
  (List.length bs <= List.length (d_r d))%nat -> reads_on d (set_r d bs).
Proof. intros H. split; [apply same_context_set_r | exact H]. Qed.

(** A varint takes at least one byte. *)
Lemma readVarInt64_loop_shorter (bs : list byte) :
  forall (val s v : Z) (rest : list byte),
    readVarInt64_loop val s bs = Some (v, rest) ->
    (List.length rest < List.length bs)%nat.
Proof.
  induction bs as [| b tl IH]; intros val s v rest H; cbn [readVarInt64_loop] in H;
    [discriminate |].
  cbn [List.length].
  destruct (Z.land (uint8 b) 128 =? 0).
  - injection H as _ <-. lia.
  - apply IH in H. lia.
Qed.

Create HintDb twkb.

Lemma framed_ret {A : Type} (a : A) : framed (ret a).
Proof. intros d. apply reads_on_refl. Qed.

Lemma framed_panic {A : Type} : framed (@panic A).
Proof. intros d. exact I. Qed.

Lemma framed_get : framed get.
Proof. intros d. apply reads_on_refl. Qed.

Lemma framed_bind {A B : Type} (m : M A) (k : A -> M B) :
  framed m -> (forall a : A, framed (k a)) -> framed (bind m k).
Proof.
  intros Hm Hk d. unfold bind. specialize (Hm d).
  destruct (m d) as [a d1 | e d1 | |]; cbn [after] in *; auto.
  specialize (Hk a d1).
  destruct (k a d1) as [b d2 | e d2 | |]; cbn [after] in *; auto;
    eapply reads_on_trans; eauto.
Qed.

Lemma framed_if {A : Type} (c : bool) (m1 m2 : M A) :
  framed m1 -> framed m2 -> framed (if c then m1 else m2).
Proof. destruct c; auto. Qed.

Lemma framed_read : framed read.
Proof.
  intros d. unfold read.
  destruct (d_r d) as [| b rest] eqn:E; cbn [after]; [apply reads_on_refl |].
  apply reads_on_set_r. rewrite E. cbn [List.length]. lia.
Qed.

Lemma framed_readVarInt64 : framed readVarInt64.
Proof.
  intros d. unfold readVarInt64.
  destruct (readVarInt64_loop 0 0 (d_r d)) as [[v rest] |] eqn:E; cbn [after];
    apply reads_on_set_r; [| cbn [List.length]; lia].
  apply readVarInt64_loop_shorter in E. lia.
Qed.

Lemma framed_accumulate (j : nat) (val : Z) : framed (accumulate j val).
Proof. intros d. split; [apply same_context_set_refpoint | apply Nat.le_refl]. Qed.

Lemma framed_make_len {A : Type} (n : Z) (k : nat -> M A) :
  (forall i : nat, framed (k i)) -> framed (make_len n k).
Proof. intros Hk. unfold make_len. destruct (n <? 0); [apply framed_panic | apply Hk]. Qed.

#[local] Hint Resolve framed_ret framed_panic framed_get framed_bind framed_if framed_read
  framed_readVarInt64 framed_accumulate framed_make_len : twkb.

Lemma blind_ret {A : Type} (a : A) : blind (ret a).
Proof. intros e d. reflexivity. Qed.

Lemma blind_panic {A : Type} : blind (@panic A).
Proof. intros e d. reflexivity. Qed.

Lemma blind_fail {A : Type} (err : error) : blind (@fail A err).
Proof. intros e d. reflexivity. Qed.

Lemma blind_bind {A B : Type} (m : M A) (k : A -> M B) :
  blind m -> (forall a : A, blind (k a)) -> blind (bind m k).
Proof.
  intros Hm Hk e d. unfold bind. rewrite Hm.
  destruct (m d) as [a d1 | err d1 | |]; cbn [map_state]; try reflexivity.
  apply Hk.
Qed.

(** Reading the state is harmless when what follows reads no [empty]. *)
Lemma blind_get_bind {A : Type} (k : decoder -> M A) :
  (forall x : decoder, blind (k x)) ->
  (forall (e : bool) (x : decoder), k (set_empty e x) = k x) ->
  blind (bind get k).
Proof.
  intros Hk Hx e d. unfold bind, get. rewrite Hx. apply Hk.
Qed.

Lemma blind_if {A : Type} (c : bool) (m1 m2 : M A) :
  blind m1 -> blind m2 -> blind (if c then m1 else m2).
Proof. destruct c; auto. Qed.

Lemma blind_modify (f : decoder -> decoder) :
  (forall (e : bool) (d : decoder), f (set_empty e d) = set_empty e (f d)) ->
  blind (modify f).
Proof. intros Hf e d. unfold modify. rewrite Hf. reflexivity. Qed.

Lemma blind_read : blind read.
Proof. intros e d. unfold read. cbn [set_empty d_r]. destruct (d_r d); reflexivity. Qed.

Lemma blind_readVarInt64 : blind readVarInt64.
Proof.
  intros e d. unfold readVarInt64. cbn [set_empty d_r].
  destruct (readVarInt64_loop 0 0 (d_r d)) as [[v rest] |]; reflexivity.
Qed.

Lemma blind_accumulate (j : nat) (val : Z) : blind (accumulate j val).
Proof. intros e d. reflexivity. Qed.

Lemma blind_make_len {A : Type} (n : Z) (k : nat -> M A) :
  (forall i : nat, blind (k i)) -> blind (make_len n k).
Proof. intros Hk. unfold make_len. destruct (n <? 0); [apply blind_panic | apply Hk]. Qed.

#[local] Hint Resolve blind_ret blind_panic blind_fail blind_bind blind_if blind_read
  blind_readVarInt64 blind_accumulate blind_make_len : twkb.

(** ** Every decoder below the header leaves the context alone *)

Lemma framed_readVarSInt64 : framed readVarSInt64.
Proof. unfold readVarSInt64. auto with twkb. Qed.

#[local] Hint Resolve framed_readVarSInt64 : twkb.

Lemma framed_readIDList_loop (n : nat) : forall ids : list Z, framed (readIDList_loop n ids).
Proof. induction n as [| n IH]; intros ids; cbn [readIDList_loop]; auto with twkb. Qed.

Lemma framed_readIDList (n : Z) : framed (readIDList n).
Proof. unfold readIDList. auto using framed_readIDList_loop with twkb. Qed.

Lemma framed_readMHdr : framed readMHdr.
Proof.
  unfold readMHdr. apply framed_bind; [auto with twkb |]. intros n.
  apply framed_bind; [auto with twkb |]. intros d.
  auto using framed_readIDList with twkb.
Qed.

Lemma framed_readCoord_loop (k : nat) :
  forall (j : nat) (coord : Coordinate) (bb : option BBox),
    framed (readCoord_loop k j coord bb).
Proof.
  induction k as [| k IH]; intros j coord bb; cbn [readCoord_loop]; auto 7 with twkb.
Qed.

Lemma framed_readCoords_loop (n : nat) :
  forall (coords : list Coordinate) (bb : option BBox), framed (readCoords_loop n coords bb).
Proof.
  induction n as [| n IH]; intros coords bb; cbn [readCoords_loop]; [auto with twkb |].
  apply framed_bind; [auto with twkb |]. intros d.
  apply framed_bind; [apply framed_readCoord_loop |]. intros [coord bb']. apply IH.
Qed.

Lemma framed_readCoords (n : Z) : framed (readCoords n).
Proof.
  unfold readCoords. apply framed_make_len. intros i.
  apply framed_bind; [auto with twkb |]. intros d. apply framed_readCoords_loop.
Qed.

#[local] Hint Resolve framed_readMHdr framed_readCoords : twkb.

Lemma framed_decodePoint (h : option Hdr) : framed (decodePoint h).
Proof.
  unfold decodePoint. apply framed_bind; [auto with twkb |]. intros [coords bb].
  destruct coords; [auto with twkb |]. destruct h; auto with twkb.
Qed.

Lemma framed_decodeLineString (h : option Hdr) : framed (decodeLineString h).
Proof.
  unfold decodeLineString. apply framed_bind; [auto with twkb |]. intros n.
  apply framed_bind; [auto with twkb |]. intros [coords bb].
  destruct h; auto with twkb.
Qed.

Lemma framed_decodePolygon_loop (n : nat) :
  forall rings : list LinearRing, framed (decodePolygon_loop n rings).
Proof.
  induction n as [| n IH]; intros rings; cbn [decodePolygon_loop]; [auto with twkb |].
  apply framed_bind; [auto with twkb |]. intros ringSize d.
  pose proof (framed_readCoords (int64 ringSize) d) as Hc.
  destruct (readCoords (int64 ringSize) d) as [[coords bb] d1 | e d1 | |];
    cbn [after] in *; auto.
  - specialize (IH (rings ++ [coords]) d1).
    destruct (decodePolygon_loop n (rings ++ [coords]) d1); cbn [after] in *; auto;
      eapply reads_on_trans; eauto.
  - specialize (IH (rings ++ [[]]) d1).
    destruct (decodePolygon_loop n (rings ++ [[]]) d1); cbn [after] in *; auto;
      eapply reads_on_trans; eauto.
Qed.

Lemma framed_decodePolygon (h : option Hdr) : framed (decodePolygon h).
Proof.
  unfold decodePolygon. apply framed_bind; [auto with twkb |]. intros n.
  apply framed_make_len. intros i.
  apply framed_bind; [apply framed_decodePolygon_loop | auto with twkb].
Qed.

Lemma framed_members_loop {A : Type} (body : option Hdr -> M A) (n : nat) :
  (forall h : option Hdr, framed (body h)) ->
  forall acc : list A, framed (members_loop body n acc).
Proof.
  intros Hb. induction n as [| n IH]; intros acc; cbn [members_loop]; auto with twkb.
Qed.

Lemma framed_decodeMultiPoint (h : option Hdr) : framed (decodeMultiPoint h).
Proof.
  unfold decodeMultiPoint. apply framed_bind; [auto with twkb |]. intros m.
  apply framed_make_len. intros i.
  apply framed_bind; [| auto with twkb].
  apply framed_members_loop. apply framed_decodePoint.
Qed.

Lemma framed_decodeMultiLineString (h : option Hdr) : framed (decodeMultiLineString h).
Proof.
  unfold decodeMultiLineString. apply framed_bind; [auto with twkb |]. intros m.
  apply framed_make_len. intros i.
  apply framed_bind; [| auto with twkb].
  apply framed_members_loop. apply framed_decodeLineString.
Qed.

Lemma framed_decodeMultiPolygon (h : option Hdr) : framed (decodeMultiPolygon h).
Proof.
  unfold decodeMultiPolygon. apply framed_bind; [auto with twkb |]. intros m.
  apply framed_make_len. intros i.
  apply framed_bind; [| auto with twkb].
  apply framed_members_loop. apply framed_decodePolygon.
Qed.

(** ** No decoder below the flags looks at the [empty] field *)

Lemma blind_readVarSInt64 : blind readVarSInt64.
Proof. unfold readVarSInt64. auto with twkb. Qed.

#[local] Hint Resolve blind_readVarSInt64 : twkb.

Lemma blind_readIDList_loop (n : nat) : forall ids : list Z, blind (readIDList_loop n ids).
Proof. induction n as [| n IH]; intros ids; cbn [readIDList_loop]; auto with twkb. Qed.

Lemma blind_readIDList (n : Z) : blind (readIDList n).
Proof. unfold readIDList. auto using blind_readIDList_loop with twkb. Qed.

Lemma blind_readMHdr : blind readMHdr.
Proof.
  unfold readMHdr. apply blind_bind; [auto with twkb |]. intros n.
  apply blind_get_bind; [| reflexivity]. intros d.
  auto using blind_readIDList with twkb.
Qed.

Lemma blind_readCoord_loop (k : nat) :
  forall (j : nat) (coord : Coordinate) (bb : option BBox),
    blind (readCoord_loop k j coord bb).
Proof.
  induction k as [| k IH]; intros j coord bb; cbn [readCoord_loop]; [auto with twkb |].
  apply blind_bind; [auto with twkb |]. intros val.
  apply blind_bind; [auto with twkb |]. intros c.
  apply blind_get_bind; [| reflexivity]. intros d. apply IH.
Qed.

Lemma blind_readCoords_loop (n : nat) :
  forall (coords : list Coordinate) (bb : option BBox), blind (readCoords_loop n coords bb).
Proof.
  induction n as [| n IH]; intros coords bb; cbn [readCoords_loop]; [auto with twkb |].
  apply blind_get_bind; [| reflexivity]. intros d.
  apply blind_bind; [apply blind_readCoord_loop |]. intros [coord bb']. apply IH.
Qed.

Lemma blind_readCoords (n : Z) : blind (readCoords n).
Proof.
  unfold readCoords. apply blind_make_len. intros i.
  apply blind_get_bind; [| reflexivity]. intros d. apply blind_readCoords_loop.
Qed.

#[local] Hint Resolve blind_readMHdr blind_readCoords : twkb.

Lemma blind_decodePoint (h : option Hdr) : blind (decodePoint h).
Proof.
  unfold decodePoint. apply blind_bind; [auto with twkb |]. intros [coords bb].
  destruct coords; [auto with twkb |]. destruct h; auto with twkb.
Qed.

Lemma blind_decodeLineString (h : option Hdr) : blind (decodeLineString h).
Proof.
  unfold decodeLineString. apply blind_bind; [auto with twkb |]. intros n.
  apply blind_bind; [auto with twkb |]. intros [coords bb].
  destruct h; auto with twkb.
Qed.

Lemma blind_decodePolygon_loop (n : nat) :
  forall rings : list LinearRing, blind (decodePolygon_loop n rings).
Proof.
  induction n as [| n IH]; intros rings; cbn [decodePolygon_loop]; [auto with twkb |].
  apply blind_bind; [auto with twkb |]. intros ringSize e d.
  rewrite blind_readCoords.
  destruct (readCoords (int64 ringSize) d) as [[coords bb] d1 | err d1 | |];
    cbn [map_state]; try reflexivity; apply IH.
Qed.

Lemma blind_decodePolygon (h : option Hdr) : blind (decodePolygon h).
Proof.
  unfold decodePolygon. apply blind_bind; [auto with twkb |]. intros n.
  apply blind_make_len. intros i.
  apply blind_bind; [apply blind_decodePolygon_loop | auto with twkb].
Qed.

Lemma blind_members_loop {A : Type} (body : option Hdr -> M A) (n : nat) :
  (forall h : option Hdr, blind (body h)) ->
  forall acc : list A, blind (members_loop body n acc).
Proof.
  intros Hb. induction n as [| n IH]; intros acc; cbn [members_loop]; auto with twkb.
Qed.

Lemma blind_decodeMultiPoint (h : option Hdr) : blind (decodeMultiPoint h).
Proof.
  unfold decodeMultiPoint. apply blind_bind; [auto with twkb |]. intros m.
  apply blind_make_len. intros i.
  apply blind_bind; [| auto with twkb].
  apply blind_members_loop. apply blind_decodePoint.
Qed.

Lemma blind_decodeMultiLineString (h : option Hdr) : blind (decodeMultiLineString h).
Proof.
  unfold decodeMultiLineString. apply blind_bind; [auto with twkb |]. intros m.
  apply blind_make_len. intros i.
  apply blind_bind; [| auto with twkb].
  apply blind_members_loop. apply blind_decodeLineString.
Qed.

Lemma blind_decodeMultiPolygon (h : option Hdr) : blind (decodeMultiPolygon h).
Proof.
  unfold decodeMultiPolygon. apply blind_bind; [auto with twkb |]. intros m.
  apply blind_make_len. intros i.
  apply blind_bind; [| auto with twkb].
  apply blind_members_loop. apply blind_decodePolygon.
Qed.

Lemma blind_decodeCollection_loop (dec : list byte -> outcome (list byte) Geometry) (n : nat) :
  forall geoms : list Geometry, blind (decodeCollection_loop dec n geoms).
Proof.
  induction n as [| n IH]; intros geoms; cbn [decodeCollection_loop]; [auto with twkb |].
  intros e d. cbn [set_empty d_r].
  destruct (dec (d_r d)) as [g rest | err rest | |]; cbn [map_state]; try reflexivity.
  apply (IH (geoms ++ [g]) e (set_r d rest)).
Qed.

Lemma blind_decodeCollection (dec : list byte -> outcome (list byte) Geometry)
      (h : option Hdr) : blind (decodeCollection dec h).
Proof.
  unfold decodeCollection. apply blind_bind; [auto with twkb |]. intros m.
  apply blind_make_len. intros i.
  apply blind_bind; [apply blind_decodeCollection_loop | auto with twkb].
Qed.

Lemma blind_readBBox_loop (k : nat) :
  forall (idx n : nat) (bb : BBox), blind (readBBox_loop k idx n bb).
Proof.
  induction k as [| k IH]; intros idx n bb; cbn [readBBox_loop]; auto with twkb.
Qed.

Lemma blind_Decode_switch (dec : list byte -> outcome (list byte) Geometry) (hdr : Hdr) :
  blind (Decode_switch dec hdr).
Proof.
  unfold Decode_switch.
  repeat (apply blind_if;
          [apply blind_bind; [| intros; apply blind_ret] |]);
    auto using blind_decodePoint, blind_decodeLineString, blind_decodePolygon,
      blind_decodeMultiPoint, blind_decodeMultiLineString, blind_decodeMultiPolygon,
      blind_decodeCollection with twkb.
Qed.

(** ** The empty flag *)

(** The masks of the four flags the decoder acts on lie outside bit 4. *)
Lemma flag_test_outside_bit4 (x y m : Z) :
  Z.land x 239 = Z.land y 239 -> Z.land 239 m = m ->
  (Z.land x m =? m) = (Z.land y m =? m).
Proof.
  intros Hxy Hm.
  rewrite <- Hm at 1 3.
  rewrite !Z.land_assoc, Hxy. reflexivity.
Qed.

Lemma bind_read_cons {A : Type} (k : Z -> M A) (d : decoder) (b : byte) (rest : list byte) :
  d_r d = b :: rest -> bind read k d = k (uint8 b) (set_r d rest).
Proof. intros H. unfold bind, read. rewrite H. reflexivity. Qed.

Lemma bind_modify {A : Type} (f : decoder -> decoder) (k : unit -> M A) (d : decoder) :
  bind (modify f) k d = k tt (f d).
Proof. reflexivity. Qed.

Lemma blind_Decode_dims (flag : Z) (gt : GeomType) : blind (Decode_dims flag gt).
Proof.
  unfold Decode_dims. apply blind_bind.
  - apply blind_if; [| auto with twkb].
    apply blind_bind; [auto with twkb |]. intros extended.
    apply blind_get_bind; [| reflexivity]. intros d.
    destruct (extended_dims extended (d_factors d)) as [[dm nd] fs].
    apply blind_bind; [| auto with twkb].
    apply blind_modify. reflexivity.
  - intros dm. apply blind_get_bind; [| reflexivity]. intros d.
    apply blind_bind.
    + apply blind_if; [| auto with twkb].
      apply blind_bind; [auto with twkb |]. intros len.
      apply blind_modify. reflexivity.
    + intros _. apply blind_bind; [| auto with twkb].
      apply blind_if; [| auto with twkb].
      apply blind_bind; [apply blind_readBBox_loop | auto with twkb].
Qed.

(** Two inputs that differ in bit 4 of the metadata byte only: either
    the type nibble is unknown and that byte is never read, or the two
    headers and the decoders they leave agree but for [empty]. *)
Lemma Decode_header_empty (t f f' : byte) (rest : list byte) :
  Z.land (uint8 f) 239 = Z.land (uint8 f') 239 ->
  (exists e : bool,
      Decode_header (new_decoder (t :: f' :: rest))
      = map_state (set_empty e) (Decode_header (new_decoder (t :: f :: rest))))
  \/ (Decode_header (new_decoder (t :: f :: rest))
      = Err ErrUnknownGeom (set_r (new_decoder []) (f :: rest))
      /\ Decode_header (new_decoder (t :: f' :: rest))
         = Err ErrUnknownGeom (set_r (new_decoder []) (f' :: rest))).
Proof.
  intros Hff.
  unfold Decode_header.
  rewrite (bind_read_cons _ (new_decoder (t :: f :: rest)) t (f :: rest)) by reflexivity.
  rewrite (bind_read_cons _ (new_decoder (t :: f' :: rest)) t (f' :: rest)) by reflexivity.
  destruct ((Z.land (uint8 t) 15 >? GEOMETRYCOLLECTION) || (Z.land (uint8 t) 15 <? POINT)).
  - right. split; reflexivity.
  - left. exists (Z.land (uint8 f') empty =? empty).
    rewrite !bind_modify.
    match goal with
    | |- bind read _ ?d' = map_state _ (bind read _ ?d) =>
        rewrite (bind_read_cons _ d f rest) by reflexivity;
        rewrite (bind_read_cons _ d' f' rest) by reflexivity
    end.
    rewrite !bind_modify.
    rewrite <- blind_Decode_dims.
    unfold Decode_dims.
    rewrite (flag_test_outside_bit4 _ _ bbox Hff) by reflexivity.
    rewrite (flag_test_outside_bit4 _ _ size Hff) by reflexivity.
    rewrite (flag_test_outside_bit4 _ _ idlist Hff) by reflexivity.
    rewrite (flag_test_outside_bit4 _ _ exprec Hff) by reflexivity.
    reflexivity.
Qed.

Lemma Decode_fuel_empty (fuel : nat) (t f f' : byte) (rest : list byte) :
  Z.land (uint8 f) 239 = Z.land (uint8 f') 239 ->
  Decode_fuel fuel (t :: f :: rest) = Decode_fuel fuel (t :: f' :: rest)
  \/ (Decode_fuel fuel (t :: f :: rest) = Err ErrUnknownGeom (f :: rest)
      /\ Decode_fuel fuel (t :: f' :: rest) = Err ErrUnknownGeom (f' :: rest)).
Proof.
  intros Hff. destruct fuel as [| fuel]; [left; reflexivity |].
  cbn [Decode_fuel]. unfold run_Decode, Decode_body, bind.
  destruct (Decode_header_empty t f f' rest Hff) as [[e He] | [H1 H2]].
  - left. rewrite He.
    destruct (Decode_header (new_decoder (t :: f :: rest))) as [h d1 | err d1 | |];
      cbn [map_state]; try reflexivity.
    rewrite blind_Decode_switch.
    destruct (Decode_switch (Decode_fuel fuel) h d1); reflexivity.
  - right. rewrite H1, H2. split; reflexivity.
Qed.

(** C9: two inputs that differ only in bit 4 of the metadata byte (the
    empty flag) decode alike: the same geometry or error and the same
    unread bytes.  The one case where the unread bytes differ is an
    unknown type nibble: both calls fail before the metadata byte is
    read, and that byte itself is left unread. *)
Theorem Decode_ignores_empty_flag (t f f' : byte) (rest : list byte) :
  Z.land (uint8 f) 239 = Z.land (uint8 f') 239 ->
  Decode (t :: f :: rest) = Decode (t :: f' :: rest)
  \/ (Decode (t :: f :: rest) = Err ErrUnknownGeom (f :: rest)
      /\ Decode (t :: f' :: rest) = Err ErrUnknownGeom (f' :: rest)).
Proof. intros Hff. unfold Decode. apply Decode_fuel_empty. exact Hff. Qed.

Lemma Decode_ignores_empty_flag_witness :
  Decode (byte_of 2 :: byte_of 0 :: bytes [2; 2; 2; 8; 8])
  = Decode (byte_of 2 :: byte_of 16 :: bytes [2; 2; 2; 8; 8])
  \/ (Decode (byte_of 2 :: byte_of 0 :: bytes [2; 2; 2; 8; 8])
      = Err ErrUnknownGeom (byte_of 0 :: bytes [2; 2; 2; 8; 8])
      /\ Decode (byte_of 2 :: byte_of 16 :: bytes [2; 2; 2; 8; 8])
         = Err ErrUnknownGeom (byte_of 16 :: bytes [2; 2; 2; 8; 8])).
Proof.
  apply (Decode_ignores_empty_flag (byte_of 2) (byte_of 0) (byte_of 16) (bytes [2; 2; 2; 8; 8])).
  vm_compute. reflexivity.
Defined.

(** ** Headers of the decoded geometries *)

Lemma ret_Ok {A : Type} (a b : A) (d d' : decoder) : ret a d = Ok b d' -> a = b /\ d = d'.
Proof. unfold ret. intros H. injection H as -> ->. split; reflexivity. Qed.

Lemma make_len_Ok {A : Type} (n : Z) (k : nat -> M A) (d d' : decoder) (a : A) :
  make_len n k d = Ok a d' -> 0 <= n /\ k (Z.to_nat n) d = Ok a d'.
Proof.
  unfold make_len. destruct (Z.ltb_spec n 0) as [Hlt | Hge]; [discriminate |].
  intros H. split; [exact Hge | exact H].
Qed.

Ltac inv_bind H :=
  let a := fresh "a" in
  let d := fresh "d" in
  let Ha := fresh "H" in
  apply bind_Ok in H; destruct H as (a & d & Ha & H).

Ltac inv_ret H :=
  apply ret_Ok in H; destruct H as [? ?]; subst.

Tactic Notation "bind_inv" hyp(H) "as" ident(a) ident(d) ident(Ha) :=
  apply bind_Ok in H; destruct H as (a & d & Ha & H).

Ltac inv_ret_pair H :=
  unfold ret in H; inversion H; subst; clear H.

Lemma bind_get {A : Type} (k : decoder -> M A) (d : decoder) : bind get k d = k d d.
Proof. reflexivity. Qed.

Lemma extended_dims_cases (extended : Z) (fs : list Z) :
  let '(dm, nd, _) := extended_dims extended fs in
  (dm = XY /\ nd = 2%nat) \/ (dm = XYZ /\ nd = 3%nat)
  \/ (dm = XYM /\ nd = 3%nat) \/ (dm = XYZM /\ nd = 4%nat).
Proof.
  unfold extended_dims.
  destruct (Z.land extended XYZM =? XYZM); [auto |].
  destruct (Z.land extended XYZ =? XYZ); [auto |].
  destruct (Z.land extended XYM =? XYM); auto.
Qed.

Lemma Decode_dims_header (flag : Z) (gt : GeomType) (d d' : decoder) (h : Hdr) :
  Decode_dims flag gt d = Ok h d' ->
  gtype h = gt /\ XY <= dim h <= XYZM.
Proof.
  unfold Decode_dims. intros H.
  inv_bind H. rename a into dm.
  assert (Hdm : XY <= dm <= XYZM).
  { destruct (Z.land flag exprec =? exprec).
    - inv_bind H0. rewrite bind_get in H0.
      match type of H0 with
      | context [extended_dims ?e ?fs] =>
          pose proof (extended_dims_cases e fs) as Hc;
          destruct (extended_dims e fs) as [[dm' nd] fs']
      end.
      rewrite bind_modify in H0. inv_ret H0.
      unfold XY, XYZ, XYM, XYZM in *.
      destruct Hc as [[-> _] | [[-> _] | [[-> _] | [-> _]]]]; lia.
    - inv_ret H0. unfold XY, XYZM. lia. }
  rewrite bind_get in H. inv_bind H. inv_bind H. inv_ret H.
  cbn [gtype dim]. split; [reflexivity | exact Hdm].
Qed.

Lemma Decode_header_range (d d' : decoder) (h : Hdr) :
  Decode_header d = Ok h d' ->
  POINT <= gtype h <= GEOMETRYCOLLECTION /\ XY <= dim h <= XYZM.
Proof.
  unfold Decode_header. intros H.
  inv_bind H. rename a into flag.
  destruct ((Z.land flag 15 >? GEOMETRYCOLLECTION) || (Z.land flag 15 <? POINT)) eqn:G;
    [discriminate |].
  apply orb_false_iff in G. destruct G as [G1 G2].
  rewrite bind_modify in H. inv_bind H. rewrite !bind_modify in H.
  apply Decode_dims_header in H. destruct H as [Hg Hd].
  rewrite Hg. split; [| exact Hd].
  unfold Z.gtb in G1. apply Z.ltb_ge in G2.
  destruct (Z.land flag 15 ?= GEOMETRYCOLLECTION) eqn:C; try discriminate;
    [apply Z.compare_eq in C | rewrite Z.compare_lt_iff in C]; lia.
Qed.

Lemma set_bbox_kind (h : Hdr) (bb : option BBox) :
  gtype (set_bbox h bb) = gtype h /\ dim (set_bbox h bb) = dim h.
Proof. destruct bb; split; reflexivity. Qed.

Lemma decodePoint_header (h : option Hdr) (d d' : decoder) (p : Point) :
  decodePoint h d = Ok p d' -> keeps_header h (Point_Hdr p).
Proof.
  unfold decodePoint. intros H. inv_bind H. destruct a as [coords bb].
  destruct coords as [| c tl]; [discriminate |].
  destruct h as [h |]; inv_ret H; cbn [Point_Hdr keeps_header]; [| exact I].
  apply set_bbox_kind.
Qed.

Lemma decodeLineString_header (h : option Hdr) (d d' : decoder) (l : LineString) :
  decodeLineString h d = Ok l d' -> keeps_header h (LineString_Hdr l).
Proof.
  unfold decodeLineString. intros H. inv_bind H. inv_bind H. destruct a0 as [coords bb].
  destruct h as [h |]; inv_ret H; cbn [LineString_Hdr keeps_header]; [| exact I].
  apply set_bbox_kind.
Qed.

Lemma decodePolygon_header (h : option Hdr) (d d' : decoder) (p : Polygon) :
  decodePolygon h d = Ok p d' -> Polygon_Hdr p = h.
Proof.
  unfold decodePolygon. intros H. inv_bind H.
  apply make_len_Ok in H. destruct H as [_ H].
  inv_bind H. inv_ret H. reflexivity.
Qed.

Lemma members_loop_Forall {A : Type} (body : option Hdr -> M A) (P : A -> Prop) :
  (forall (d d' : decoder) (p : A), body None d = Ok p d' -> P p) ->
  forall (n : nat) (acc ps : list A) (d d' : decoder),
    members_loop body n acc d = Ok ps d' -> Forall P acc -> Forall P ps.
Proof.
  intros Hb. induction n as [| n IH]; intros acc ps d d' H Hacc; cbn [members_loop] in H.
  - inv_ret H. exact Hacc.
  - inv_bind H. apply IH in H; [exact H |].
    apply Forall_app. split; [exact Hacc |].
    constructor; [| constructor]. eapply Hb. eassumption.
Qed.

Lemma keeps_header_None (h : option Hdr) : keeps_header None h -> no_kind_nor_dim h.
Proof. destruct h; cbn [keeps_header]; [contradiction |]. intros _. split; reflexivity. Qed.

Lemma typed_all (gs : list Geometry) :
  (fix all (l : list Geometry) : Prop :=
     match l with
     | [] => True
     | x :: tl => typed x /\ all tl
     end) gs <-> Forall typed gs.
Proof.
  induction gs as [| g tl IH]; [split; auto |].
  split.
  - intros [Hg Ht]. constructor; [exact Hg | apply IH; exact Ht].
  - intros H. inversion H; subst. split; [assumption | apply IH; assumption].
Qed.

Lemma decodeCollection_loop_typed (dec : list byte -> outcome (list byte) Geometry) :
  (forall (rd rest : list byte) (g : Geometry), dec rd = Ok g rest -> typed g) ->
  forall (n : nat) (acc gs : list Geometry) (d d' : decoder),
    decodeCollection_loop dec n acc d = Ok gs d' -> Forall typed acc -> Forall typed gs.
Proof.
  intros Hdec. induction n as [| n IH]; intros acc gs d d' H Hacc;
    cbn [decodeCollection_loop] in H.
  - inv_ret H. exact Hacc.
  - destruct (dec (d_r d)) as [g rest | e rest | |] eqn:E; try discriminate.
    apply IH in H; [exact H |].
    apply Forall_app. split; [exact Hacc |].
    constructor; [| constructor]. eapply Hdec. eassumption.
Qed.

Lemma kind_and_dim_header (g : Geometry) (h : Hdr) :
  POINT <= gtype h <= GEOMETRYCOLLECTION -> XY <= dim h <= XYZM ->
  keeps_header (Some h) (Geometry_Hdr g) -> kind_and_dim g.
Proof.
  intros Hg Hd Hk. unfold kind_and_dim, Geometry_Type, Geometry_Dim.
  destruct (Geometry_Hdr g) as [h' |]; cbn [keeps_header] in Hk; [| contradiction].
  destruct Hk as [Kg Kd].
  exists (gtype h'), (dim h'). cbn [Hdr_Type Hdr_Dim option_map].
  rewrite Kg, Kd. repeat split; lia.
Qed.

Lemma keeps_header_refl (h : Hdr) : keeps_header (Some h) (Some h).
Proof. split; reflexivity. Qed.

Lemma Decode_switch_typed (dec : list byte -> outcome (list byte) Geometry)
      (h : Hdr) (d d' : decoder) (g : Geometry) :
  (forall (rd rest : list byte) (g : Geometry), dec rd = Ok g rest -> typed g) ->
  POINT <= gtype h <= GEOMETRYCOLLECTION -> XY <= dim h <= XYZM ->
  Decode_switch dec h d = Ok g d' -> typed g.
Proof.
  intros Hdec Hg Hd H. unfold Decode_switch in H.
  destruct (gtype h =? POINT).
  { inv_bind H. inv_ret H. split; [| exact I].
    apply (kind_and_dim_header _ h Hg Hd). cbn [Geometry_Hdr].
    eapply decodePoint_header. eassumption. }
  destruct (gtype h =? LINESTRING).
  { inv_bind H. inv_ret H. split; [| exact I].
    apply (kind_and_dim_header _ h Hg Hd). cbn [Geometry_Hdr].
    eapply decodeLineString_header. eassumption. }
  destruct (gtype h =? POLYGON).
  { inv_bind H. inv_ret H. split; [| exact I].
    apply (kind_and_dim_header _ h Hg Hd). cbn [Geometry_Hdr].
    erewrite decodePolygon_header by eassumption. apply keeps_header_refl. }
  destruct (gtype h =? MULTIPOINT).
  { inv_bind H. inv_ret H. unfold decodeMultiPoint in H0.
    inv_bind H0. apply make_len_Ok in H0. destruct H0 as [_ H0].
    inv_bind H0. inv_ret H0. split.
    - apply (kind_and_dim_header _ h Hg Hd). apply keeps_header_refl.
    - cbn [Points].
      eapply (members_loop_Forall decodePoint); [| eassumption | constructor].
      intros d1 d2 p Hp. apply keeps_header_None.
      eapply decodePoint_header. eassumption. }
  destruct (gtype h =? MULTILINESTRING).
  { inv_bind H. inv_ret H. unfold decodeMultiLineString in H0.
    inv_bind H0. apply make_len_Ok in H0. destruct H0 as [_ H0].
    inv_bind H0. inv_ret H0. split.
    - apply (kind_and_dim_header _ h Hg Hd). apply keeps_header_refl.
    - cbn [LineStrings].
      eapply (members_loop_Forall decodeLineString); [| eassumption | constructor].
      intros d1 d2 p Hp. apply keeps_header_None.
      eapply decodeLineString_header. eassumption. }
  destruct (gtype h =? MULTIPOLYGON).
  { inv_bind H. inv_ret H. unfold decodeMultiPolygon in H0.
    inv_bind H0. apply make_len_Ok in H0. destruct H0 as [_ H0].
    inv_bind H0. inv_ret H0. split.
    - apply (kind_and_dim_header _ h Hg Hd). apply keeps_header_refl.
    - cbn [Polygons].
      eapply (members_loop_Forall decodePolygon); [| eassumption | constructor].
      intros d1 d2 p Hp. apply keeps_header_None.
      erewrite decodePolygon_header by eassumption. exact I. }
  destruct (gtype h =? GEOMETRYCOLLECTION).
  { unfold decodeCollection in H.
    inv_bind H. apply make_len_Ok in H. destruct H as [_ H].
    inv_bind H. inv_ret H. split.
    - apply (kind_and_dim_header _ h Hg Hd). apply keeps_header_refl.
    - apply typed_all.
      eapply decodeCollection_loop_typed; [exact Hdec | eassumption | constructor]. }
  inv_ret H. split; [| exact I].
  apply (kind_and_dim_header _ h Hg Hd). apply keeps_header_refl.
Qed.

Lemma Decode_fuel_typed (fuel : nat) :
  forall (rd rest : list byte) (g : Geometry), Decode_fuel fuel rd = Ok g rest -> typed g.
Proof.
  induction fuel as [| fuel IH]; intros rd rest g H; [discriminate |].
  cbn [Decode_fuel] in H. unfold run_Decode in H.
  destruct (Decode_body (Decode_fuel fuel) (new_decoder rd)) as [g' d' | | |] eqn:E;
    try discriminate.
  injection H as -> _.
  unfold Decode_body in E. inv_bind E.
  apply Decode_header_range in H. destruct H as [Hg Hd].
  eapply Decode_switch_typed; eauto.
Qed.

(** The geometry the [switch] returns carries the header it was given,
    type and dimension as they were built. *)
Lemma Decode_switch_header (dec : list byte -> outcome (list byte) Geometry)
      (h : Hdr) (d d' : decoder) (g : Geometry) :
  Decode_switch dec h d = Ok g d' -> keeps_header (Some h) (Geometry_Hdr g).
Proof.
  intros H. unfold Decode_switch in H.
  destruct (gtype h =? POINT).
  { bind_inv H as p d1 Hp. inv_ret H. cbn [Geometry_Hdr].
    eapply decodePoint_header. eassumption. }
  destruct (gtype h =? LINESTRING).
  { bind_inv H as p d1 Hp. inv_ret H. cbn [Geometry_Hdr].
    eapply decodeLineString_header. eassumption. }
  destruct (gtype h =? POLYGON).
  { bind_inv H as p d1 Hp. inv_ret H. cbn [Geometry_Hdr].
    erewrite decodePolygon_header by eassumption. apply keeps_header_refl. }
  destruct (gtype h =? MULTIPOINT).
  { bind_inv H as p d1 Hp. inv_ret H. unfold decodeMultiPoint in Hp.
    bind_inv Hp as m d2 Hm. apply make_len_Ok in Hp. destruct Hp as [_ Hp].
    bind_inv Hp as ps d3 Hps. inv_ret Hp. apply keeps_header_refl. }
  destruct (gtype h =? MULTILINESTRING).
  { bind_inv H as p d1 Hp. inv_ret H. unfold decodeMultiLineString in Hp.
    bind_inv Hp as m d2 Hm. apply make_len_Ok in Hp. destruct Hp as [_ Hp].
    bind_inv Hp as ps d3 Hps. inv_ret Hp. apply keeps_header_refl. }
  destruct (gtype h =? MULTIPOLYGON).
  { bind_inv H as p d1 Hp. inv_ret H. unfold decodeMultiPolygon in Hp.
    bind_inv Hp as m d2 Hm. apply make_len_Ok in Hp. destruct Hp as [_ Hp].
    bind_inv Hp as ps d3 Hps. inv_ret Hp. apply keeps_header_refl. }
  destruct (gtype h =? GEOMETRYCOLLECTION).
  { unfold decodeCollection in H.
    bind_inv H as m d2 Hm. apply make_len_Ok in H. destruct H as [_ H].
    bind_inv H as gs d3 Hgs. inv_ret H. apply keeps_header_refl. }
  inv_ret H. apply keeps_header_refl.
Qed.

Lemma Decode_fuel_header (fuel : nat) (rd rest : list byte) (g : Geometry) :
  Decode_fuel fuel rd = Ok g rest ->
  exists (h : Hdr) (d1 : decoder),
    Decode_header (new_decoder rd) = Ok h d1
    /\ Geometry_Type g = Some (gtype h) /\ Geometry_Dim g = Some (dim h).
Proof.
  destruct fuel as [| fuel]; [discriminate |]. intros H.
  cbn [Decode_fuel] in H. unfold run_Decode in H.
  destruct (Decode_body (Decode_fuel fuel) (new_decoder rd)) as [g' d' | | |] eqn:E;
    try discriminate.
  injection H as -> _.
  unfold Decode_body in E. bind_inv E as h d1 Hh.
  exists h, d1. split; [exact Hh |].
  apply Decode_switch_header in E.
  unfold Geometry_Type, Geometry_Dim.
  destruct (Geometry_Hdr g) as [h' |]; cbn [keeps_header] in E; [| contradiction].
  destruct E as [Eg Ed]. cbn [Hdr_Type Hdr_Dim option_map].
  rewrite Eg, Ed. split; reflexivity.
Qed.

(** C4 (as amended): a geometry returned by a successful [Decode], and
    every member of a decoded collection, has [Type()] one of the seven
    kinds and [Dim()] one of the four dimension codes, both as the
    header was built from the first bytes of the input: no body decoder
    changes them.  The member points, line strings and polygons of a
    MultiPoint, MultiLineString or MultiPolygon carry a nil header, so
    neither method is defined on them. *)
Theorem Decode_typed (rd rest : list byte) (g : Geometry) :
  Decode rd = Ok g rest ->
  typed g
  /\ exists (h : Hdr) (d1 : decoder),
       Decode_header (new_decoder rd) = Ok h d1
       /\ Geometry_Type g = Some (gtype h) /\ Geometry_Dim g = Some (dim h).
Proof.
  unfold Decode. intros H. split.
  - eapply Decode_fuel_typed. eassumption.
  - eapply Decode_fuel_header. eassumption.
Qed.

Lemma Decode_typed_witness :
  typed (GMultiPoint (mkMultiPoint (Some (mkHdr MULTIPOINT XY None)) []
                                   [mkPoint None [1%float; 2%float]]))
  /\ exists (h : Hdr) (d1 : decoder),
       Decode_header (new_decoder (bytes [4; 0; 1; 2; 4])) = Ok h d1
       /\ Some MULTIPOINT = Some (gtype h) /\ Some XY = Some (dim h).
Proof.
  apply (Decode_typed (bytes [4; 0; 1; 2; 4]) []
           (GMultiPoint (mkMultiPoint (Some (mkHdr MULTIPOINT XY None)) []
                                      [mkPoint None [1%float; 2%float]]))).
  vm_compute. reflexivity.
Defined.

(** C4, as stated, fails on the input [04 00 01 02 04]: the member
    point of the decoded MultiPoint has a nil header, on which [Type()]
    and [Dim()] panic. *)
Lemma multipoint_member_without_header :
  Decode (bytes [4; 0; 1; 2; 4])
  = Ok (GMultiPoint (mkMultiPoint (Some (mkHdr MULTIPOINT XY None)) []
                                  [mkPoint None [1%float; 2%float]])) []
  /\ Hdr_Type (Point_Hdr (mkPoint None [1%float; 2%float])) = None
  /\ Hdr_Dim (Point_Hdr (mkPoint None [1%float; 2%float])) = None.
Proof. repeat split; vm_compute; reflexivity. Qed.

(** ** The bounding box read with the coordinates *)

Lemma framed_Ok {A : Type} (m : M A) (d d' : decoder) (a : A) :
  framed m -> m d = Ok a d' -> same_context d d'.
Proof. intros Hm H. specialize (Hm d). rewrite H in Hm. apply Hm. Qed.

Lemma same_context_ndims (d d' : decoder) : same_context d d' -> d_ndims d' = d_ndims d.
Proof. intros H. apply H. Qed.

Lemma same_context_bbox (d d' : decoder) : same_context d d' -> d_bbox d' = d_bbox d.
Proof. intros H. apply H. Qed.

Lemma same_context_factors (d d' : decoder) : same_context d d' -> d_factors d' = d_factors d.
Proof. intros H. apply H. Qed.

(** One coordinate: [k] new ordinates, and the box extended by each. *)
Lemma readCoord_loop_bbox (k : nat) :
  forall (j : nat) (coord coord' : Coordinate) (bb bb' : option BBox) (d d' : decoder),
    readCoord_loop k j coord bb d = Ok (coord', bb') d' ->
    exists new : Coordinate,
      coord' = coord ++ new /\ List.length new = k
      /\ bb' = option_map (coord_extend (d_ndims d) j new) bb.
Proof.
  induction k as [| k IH]; intros j coord coord' bb bb' d d' H; cbn [readCoord_loop] in H.
  - inv_ret_pair H. exists []. rewrite app_nil_r.
    repeat split. destruct bb'; reflexivity.
  - bind_inv H as val d1 Hv. bind_inv H as c d2 Hc. rewrite bind_get in H.
    apply framed_Ok in Hv; [| apply framed_readVarSInt64].
    apply framed_Ok in Hc; [| apply framed_accumulate].
    apply same_context_ndims in Hv, Hc.
    apply IH in H. destruct H as (new & -> & Hlen & ->).
    exists (c :: new). rewrite <- app_assoc. cbn [app List.length coord_extend].
    rewrite Hc, Hv, Hlen. repeat split. destruct bb; reflexivity.
Qed.

Lemma readCoords_loop_bbox (n : nat) :
  forall (coords coords' : list Coordinate) (bb bb' : option BBox) (d d' : decoder),
    readCoords_loop n coords bb d = Ok (coords', bb') d' ->
    exists new : list Coordinate,
      coords' = coords ++ new /\ List.length new = n
      /\ Forall (fun c => List.length c = d_ndims d) new
      /\ bb' = option_map (fun b => bbox_from b (d_ndims d) new) bb.
Proof.
  induction n as [| n IH]; intros coords coords' bb bb' d d' H; cbn [readCoords_loop] in H.
  - inv_ret_pair H. exists []. rewrite app_nil_r.
    repeat split; [constructor |]. destruct bb'; reflexivity.
  - rewrite bind_get in H. bind_inv H as cb d1 Hcb. destruct cb as [coord bb1].
    pose proof (framed_Ok _ _ _ _ (framed_readCoord_loop _ _ _ _) Hcb) as Hc.
    apply same_context_ndims in Hc.
    apply readCoord_loop_bbox in Hcb. destruct Hcb as (c & -> & Hlen & ->).
    apply IH in H. destruct H as (new & -> & Hn & Hall & ->).
    exists (c :: new). rewrite <- app_assoc. cbn [app List.length].
    rewrite Hc in *. repeat split; [lia | constructor; assumption |].
    destruct bb; reflexivity.
Qed.

(** [readCoords] hands back the box of the coordinates it read when
    the header gave none, and no box otherwise. *)
Lemma readCoords_bbox (n : Z) (d d' : decoder) (coords : list Coordinate) (bb : option BBox) :
  readCoords n d = Ok (coords, bb) d' ->
  List.length coords = Z.to_nat n
  /\ Forall (fun c => List.length c = d_ndims d) coords
  /\ bb = if d_bbox d then None else Some (bbox_of (d_ndims d) coords).
Proof.
  unfold readCoords. intros H. apply make_len_Ok in H. destruct H as [_ H].
  rewrite bind_get in H. apply readCoords_loop_bbox in H.
  destruct H as (new & -> & Hlen & Hall & ->). cbn [app].
  repeat split; try assumption. destruct (d_bbox d); reflexivity.
Qed.

Lemma framed_readBBox_loop (k : nat) :
  forall (idx n : nat) (bb : BBox), framed (readBBox_loop k idx n bb).
Proof.
  induction k as [| k IH]; intros idx n bb; cbn [readBBox_loop]; auto with twkb.
Qed.

(** The decoder [Decode_dims] leaves: the bbox flag as it was, no box
    in the header unless the flag is set, and as many dimensions as the
    dimension code of the header says. *)
Lemma Decode_dims_state (flag : Z) (gt : GeomType) (d d' : decoder) (h : Hdr) :
  Decode_dims flag gt d = Ok h d' ->
  d_ndims d = 2%nat ->
  d_bbox d' = d_bbox d
  /\ d_ndims d' = ndims_of (dim h)
  /\ (d_bbox d = false -> hdr_bbox h = None).
Proof.
  unfold Decode_dims. intros H Hnd.
  bind_inv H as dm d1 Hdm.
  assert (Hd1 : d_bbox d1 = d_bbox d /\ d_ndims d1 = ndims_of dm).
  { destruct (Z.land flag exprec =? exprec).
    - bind_inv Hdm as ext d0 Hr. rewrite bind_get in Hdm.
      apply framed_Ok in Hr; [| apply framed_read]. apply same_context_bbox in Hr.
      match type of Hdm with
      | context [extended_dims ?e ?fs] =>
          pose proof (extended_dims_cases e fs) as Hc;
          destruct (extended_dims e fs) as [[dm' nd] fs']
      end.
      rewrite bind_modify in Hdm. inv_ret Hdm. cbn [d_bbox d_ndims set_ndims set_factors].
      split; [exact Hr |].
      destruct Hc as [[-> ->] | [[-> ->] | [[-> ->] | [-> ->]]]]; reflexivity.
    - inv_ret Hdm. split; [reflexivity | exact Hnd]. }
  destruct Hd1 as [Hb1 Hn1].
  rewrite bind_get in H. bind_inv H as u d2 Hsz.
  assert (Hd2 : d_bbox d2 = d_bbox d1 /\ d_ndims d2 = d_ndims d1).
  { destruct (d_size d1).
    - bind_inv Hsz as len d0 Hl. unfold modify in Hsz. injection Hsz as _ <-.
      apply framed_Ok in Hl; [| apply framed_readVarInt64].
      cbn [d_bbox d_ndims set_length].
      split; [eapply same_context_bbox | eapply same_context_ndims]; eassumption.
    - inv_ret Hsz. split; reflexivity. }
  destruct Hd2 as [Hb2 Hn2].
  bind_inv H as bb d3 Hbb. inv_ret H. cbn [dim hdr_bbox].
  destruct (d_bbox d1) eqn:Eb.
  - bind_inv Hbb as b d0 Hl. inv_ret Hbb.
    apply framed_Ok in Hl; [| apply framed_readBBox_loop].
    repeat split; [| | congruence].
    + rewrite (same_context_bbox _ _ Hl). congruence.
    + rewrite (same_context_ndims _ _ Hl). congruence.
  - inv_ret Hbb. repeat split; congruence.
Qed.

Lemma Decode_header_no_bbox (t f : byte) (rest : list byte) (h : Hdr) (d1 : decoder) :
  Z.land (uint8 f) bbox <> bbox ->
  Decode_header (new_decoder (t :: f :: rest)) = Ok h d1 ->
  d_bbox d1 = false /\ d_ndims d1 = ndims_of (dim h) /\ hdr_bbox h = None.
Proof.
  intros Hf H. unfold Decode_header in H.
  rewrite (bind_read_cons _ _ t (f :: rest)) in H by reflexivity.
  destruct ((Z.land (uint8 t) 15 >? GEOMETRYCOLLECTION) || (Z.land (uint8 t) 15 <? POINT));
    [discriminate |].
  rewrite bind_modify in H.
  rewrite (bind_read_cons _ _ f rest) in H by reflexivity.
  rewrite !bind_modify in H.
  apply Decode_dims_state in H; [| reflexivity].
  cbn [d_bbox set_ndims set_flags] in H.
  apply Z.eqb_neq in Hf. rewrite Hf in H.
  destruct H as (Hb & Hn & Hh). auto.
Qed.

(** C3 (as amended): when the bbox flag of the metadata byte is not
    set, the header of a decoded Point or LineString carries the box
    of its coordinates, accumulated in reading order from [MaxInt64]
    for each minimum and [MinInt64] for each maximum. *)
Theorem Decode_attaches_bbox (t f : byte) (rest rest' : list byte) (g : Geometry) :
  Z.land (uint8 f) bbox <> bbox ->
  Decode (t :: f :: rest) = Ok g rest' ->
  match g with
  | GPoint p =>
      exists h : Hdr,
        Point_Hdr p = Some h
        /\ hdr_bbox h = Some (bbox_of (ndims_of (dim h)) [Coord p])
  | GLineString l =>
      exists h : Hdr,
        LineString_Hdr l = Some h
        /\ hdr_bbox h = Some (bbox_of (ndims_of (dim h)) (Coords l))
  | _ => True
  end.
Proof.
  intros Hf H. unfold Decode in H. cbn [Decode_fuel] in H. unfold run_Decode in H.
  destruct (Decode_body _ _) as [g' d' | | |] eqn:E; try discriminate.
  injection H as -> _.
  unfold Decode_body in E. bind_inv E as h d1 Hh.
  apply Decode_header_no_bbox in Hh; [| exact Hf].
  destruct Hh as (Hb & Hn & _).
  unfold Decode_switch in E.
  destruct (gtype h =? POINT).
  { bind_inv E as p d2 Hp. inv_ret E.
    unfold decodePoint in Hp. bind_inv Hp as cb d3 Hc. destruct cb as [coords bb].
    apply readCoords_bbox in Hc. destruct Hc as (Hlen & _ & ->).
    rewrite Hb, Hn in Hp.
    destruct coords as [| c [| c' tl]]; try discriminate Hlen.
    inv_ret Hp. cbn [Point_Hdr Coord set_bbox].
    eexists. split; reflexivity. }
  destruct (gtype h =? LINESTRING).
  { bind_inv E as l d2 Hl. inv_ret E.
    unfold decodeLineString in Hl. bind_inv Hl as n d3 Hn'.
    bind_inv Hl as cb d4 Hc. destruct cb as [coords bb].
    apply framed_Ok in Hn'; [| apply framed_readVarInt64].
    apply readCoords_bbox in Hc. destruct Hc as (_ & _ & ->).
    rewrite (same_context_bbox _ _ Hn'), (same_context_ndims _ _ Hn'), Hb, Hn in Hl.
    inv_ret Hl. cbn [LineString_Hdr Coords set_bbox].
    eexists. split; reflexivity. }
  repeat match type of E with
         | (if ?c then _ else _) _ = _ => destruct c
         end;
    try (bind_inv E as x d2 Hx; inv_ret E; exact I).
  - unfold decodeCollection in E. bind_inv E as m d2 Hm.
    apply make_len_Ok in E. destruct E as [_ E].
    bind_inv E as gs d3 Hgs. inv_ret E. exact I.
  - inv_ret E. exact I.
Qed.

Lemma Decode_attaches_bbox_witness :
  exists h : Hdr,
    Some (mkHdr LINESTRING XY (Some [1%float; 1%float; 5%float; 5%float])) = Some h
    /\ hdr_bbox h
       = Some (bbox_of (ndims_of (dim h)) [[1%float; 1%float]; [5%float; 5%float]]).
Proof.
  apply (Decode_attaches_bbox (byte_of 2) (byte_of 0) (bytes [2; 2; 2; 8; 8]) []
           (GLineString (mkLineString
                           (Some (mkHdr LINESTRING XY
                                        (Some [1%float; 1%float; 5%float; 5%float])))
                           [[1%float; 1%float]; [5%float; 5%float]]))).
  - vm_compute. discriminate.
  - vm_compute. reflexivity.
Defined.

(** C3, as stated, fails on the input [02 00 00], a LineString of no
    point: the box in its header is the one the code starts from,
    2^63 and -2^63, not plus and minus infinity.  And on
    [03 00 01 01 02 04], a Polygon of one ring of one point, no box is
    attached to the header at all. *)
Lemma bbox_not_from_infinity :
  (exists h : Hdr,
      Decode (bytes [2; 0; 0]) = Ok (GLineString (mkLineString (Some h) [])) []
      /\ hdr_bbox h = Some [float64 MaxInt64; float64 MaxInt64;
                            float64 MinInt64; float64 MinInt64]
      /\ hdr_bbox h <> Some (bbox_from (bbox_inf 2) 2 []))
  /\ Decode (bytes [3; 0; 1; 1; 2; 4])
     = Ok (GPolygon (mkPolygon (Some (mkHdr POLYGON XY None))
                               [[[1%float; 2%float]]])) [].
Proof.
  split; [| vm_compute; reflexivity].
  eexists. split; [vm_compute; reflexivity |].
  split; [vm_compute; reflexivity |].
  cbn [hdr_bbox]. intros H.
  assert (Hi : option_map (fun b => PrimFloat.is_infinity (nth 0 b 0%float))
                 (Some (bbox_from (bbox_inf 2) 2 [])) = Some true)
    by (vm_compute; reflexivity).
  rewrite <- H in Hi. vm_compute in Hi. discriminate Hi.
Qed.

(** ** One coordinate at a time *)


Lemma readCoords_one (d d' : decoder) (cs : list Coordinate) (bx : option BBox) :
  readCoords 1 d = Ok (cs, bx) d' ->
  exists (c : Coordinate) (bx0 : option BBox),
    cs = [c] /\ readCoord_loop (d_ndims d) 0 [] bx0 d = Ok (c, bx) d'.
Proof.
  intros H. apply make_len_Ok in H. destruct H as [_ H].
  change (Z.to_nat 1) with 1%nat in H.
  rewrite bind_get in H. cbn [readCoords_loop] in H. rewrite bind_get in H.
  bind_inv H as cb d1 Hl. destruct cb as [c bx']. inv_ret_pair H.
  exists c. eexists. split; [reflexivity | eassumption].
Qed.

(** *** The reference point *)

Lemma length_upd {A : Type} (l : list A) (i : nat) (v : A) :
  List.length (upd l i v) = List.length l.
Proof.
  revert i. induction l as [| x tl IH]; intros [| i]; cbn [upd List.length]; auto.
Qed.

Lemma nth_upd_eq {A : Type} (l : list A) (i : nat) (v dflt : A) :
  (i < List.length l)%nat -> nth i (upd l i v) dflt = v.
Proof.
  revert i. induction l as [| x tl IH]; intros [| i] H; cbn [upd nth List.length] in *;
    try lia; [reflexivity |].
  apply IH. lia.
Qed.

Lemma nth_upd_neq {A : Type} (l : list A) (i j : nat) (v dflt : A) :
  i <> j -> nth i (upd l j v) dflt = nth i l dflt.
Proof.
  revert i j. induction l as [| x tl IH]; intros [| i] [| j] H; cbn [upd nth];
    try reflexivity; try contradiction.
  apply IH. congruence.
Qed.

Lemma only_reads_Ok {A : Type} (m : M A) (d d' : decoder) (a : A) :
  only_reads m -> m d = Ok a d' -> exists rest : list byte, d' = set_r d rest.
Proof. intros Hm H. specialize (Hm d). rewrite H in Hm. exact Hm. Qed.

Lemma only_reads_ret {A : Type} (a : A) : only_reads (ret a).
Proof. intros d. exists (d_r d). destruct d; reflexivity. Qed.


Lemma only_reads_bind {A B : Type} (m : M A) (k : A -> M B) :
  only_reads m -> (forall a : A, only_reads (k a)) -> only_reads (bind m k).
Proof.
  intros Hm Hk d. unfold bind. specialize (Hm d).
  destruct (m d) as [a d1 | e d1 | |]; cbn [after] in *; auto.
  destruct Hm as [rest ->]. specialize (Hk a (set_r d rest)).
  destruct (k a (set_r d rest)) as [b d2 | e d2 | |]; cbn [after] in *; auto;
    destruct Hk as [rest' ->]; exists rest'; reflexivity.
Qed.

Lemma only_reads_readVarInt64 : only_reads readVarInt64.
Proof.
  intros d. unfold readVarInt64.
  destruct (readVarInt64_loop 0 0 (d_r d)) as [[v rest] |]; cbn [after]; eexists; reflexivity.
Qed.

Lemma only_reads_readVarSInt64 : only_reads readVarSInt64.
Proof.
  unfold readVarSInt64.
  apply only_reads_bind; [apply only_reads_readVarInt64 | intros; apply only_reads_ret].
Qed.



(** Every ordinate of a coordinate is the accumulated integer of its
    dimension, as the decoder holds it afterwards, divided by the
    factor of that dimension. *)
Lemma readCoord_loop_at_refpoint (k : nat) :
  forall (j : nat) (coord coord' : Coordinate) (bb bb' : option BBox) (d d' : decoder),
    readCoord_loop k j coord bb d = Ok (coord', bb') d' ->
    (j + k <= List.length (d_refpoint d))%nat ->
    coord' = coord ++ map (fun i => PrimFloat.div (float64 (nth i (d_refpoint d') 0))
                                                  (float64 (nth i (d_factors d') 0)))
                          (seq j k)
    /\ List.length (d_refpoint d') = List.length (d_refpoint d)
    /\ (forall i : nat, (i < j)%nat -> nth i (d_refpoint d') 0 = nth i (d_refpoint d) 0).
Proof.
  induction k as [| k IH]; intros j coord coord' bb bb' d d' H Hlen;
    cbn [readCoord_loop] in H.
  - inv_ret_pair H. cbn [seq map]. rewrite app_nil_r. auto.
  - bind_inv H as val d1 Hv. bind_inv H as c d2 Hc. rewrite bind_get in H.
    apply only_reads_Ok in Hv; [| apply only_reads_readVarSInt64].
    destruct Hv as [rest ->].
    unfold accumulate in Hc. injection Hc as <- <-.
    cbn [d_refpoint d_factors set_r set_refpoint] in H.
    pose proof (framed_Ok _ _ _ _ (framed_readCoord_loop _ _ _ _) H) as Hctx.
    apply same_context_factors in Hctx. cbn [d_factors set_r set_refpoint] in Hctx.
    apply IH in H; cbn [d_refpoint set_r set_refpoint] in *;
      [| rewrite length_upd; lia].
    destruct H as (-> & Hl & Hi).
    rewrite length_upd in Hl.
    split; [| split; [exact Hl |]].
    + rewrite <- app_assoc. cbn [app seq map]. do 2 f_equal.
      rewrite Hi by lia. rewrite nth_upd_eq by lia. rewrite Hctx. reflexivity.
    + intros i Hij. rewrite Hi by lia. apply nth_upd_neq. lia.
Qed.

(** ** Fuel: the length of the input is enough *)

Lemma bounded_framed {A : Type} (m : M A) : framed m -> bounded m.
Proof.
  intros Hm d. specialize (Hm d).
  destruct (m d); cbn [after] in *; auto; apply Hm.
Qed.

Lemma bounded_ret {A : Type} (a : A) : bounded (ret a).
Proof. intros d. apply Nat.le_refl. Qed.

Lemma bounded_fail {A : Type} (e : error) : bounded (@fail A e).
Proof. intros d. apply Nat.le_refl. Qed.

Lemma bounded_bind {A B : Type} (m : M A) (k : A -> M B) :
  bounded m -> (forall a : A, bounded (k a)) -> bounded (bind m k).
Proof.
  intros Hm Hk d. unfold bind. specialize (Hm d).
  destruct (m d) as [a d1 | e d1 | |]; cbn [after] in *; auto.
  specialize (Hk a d1).
  destruct (k a d1) as [b d2 | e d2 | |]; cbn [after] in *; auto; lia.
Qed.

Lemma bounded_if {A : Type} (c : bool) (m1 m2 : M A) :
  bounded m1 -> bounded m2 -> bounded (if c then m1 else m2).
Proof. destruct c; auto. Qed.

Lemma bounded_modify (f : decoder -> decoder) :
  (forall d : decoder, d_r (f d) = d_r d) -> bounded (modify f).
Proof. intros Hf d. cbn [modify after]. rewrite Hf. apply Nat.le_refl. Qed.

#[local] Hint Resolve bounded_ret bounded_fail bounded_bind bounded_if bounded_framed
  framed_readBBox_loop : twkb.

Lemma bounded_Decode_dims (flag : Z) (gt : GeomType) : bounded (Decode_dims flag gt).
Proof.
  unfold Decode_dims. apply bounded_bind.
  - apply bounded_if; [| auto with twkb].
    apply bounded_bind; [auto with twkb |]. intros extended.
    apply bounded_bind; [auto with twkb |]. intros d.
    destruct (extended_dims extended (d_factors d)) as [[dm nd] fs].
    apply bounded_bind; [| auto with twkb].
    apply bounded_modify. reflexivity.
  - intros dm. apply bounded_bind; [auto with twkb |]. intros d.
    apply bounded_bind.
    + apply bounded_if; [| auto with twkb].
      apply bounded_bind; [auto with twkb |]. intros len.
      apply bounded_modify. reflexivity.
    + intros _. apply bounded_bind; [| auto with twkb].
      apply bounded_if; auto 6 with twkb.
Qed.

Lemma bounded_Decode_header : bounded Decode_header.
Proof.
  unfold Decode_header. apply bounded_bind; [auto with twkb |]. intros flag.
  apply bounded_if; [auto with twkb |].
  apply bounded_bind; [apply bounded_modify; reflexivity |]. intros _.
  apply bounded_bind; [auto with twkb |]. intros flag'.
  apply bounded_bind; [apply bounded_modify; reflexivity |]. intros _.
  apply bounded_bind; [apply bounded_modify; reflexivity |]. intros _.
  apply bounded_Decode_dims.
Qed.

(** The multi-header takes at least the byte of its count. *)
Lemma readMHdr_shorter (d d0 : decoder) (m : mhdr) :
  readMHdr d = Ok m d0 -> (List.length (d_r d0) < List.length (d_r d))%nat.
Proof.
  unfold readMHdr. intros H. bind_inv H as n d1 Hn.
  assert (H1 : (List.length (d_r d1) < List.length (d_r d))%nat).
  { unfold readVarInt64 in Hn.
    destruct (readVarInt64_loop 0 0 (d_r d)) as [[v rest] |] eqn:E; [| discriminate].
    injection Hn as _ <-. cbn [d_r set_r].
    eapply readVarInt64_loop_shorter. eassumption. }
  assert (Hb : bounded (d0 <- get ;;
                        if d_idlist d0
                        then ids <- readIDList (int64 n) ;; ret (mkMhdr ids (int64 n))
                        else ret (mkMhdr [] (int64 n)))).
  { apply bounded_bind; [auto with twkb |]. intros x.
    apply bounded_if; [| auto with twkb].
    apply bounded_bind; [| auto with twkb].
    apply bounded_framed. apply framed_readIDList. }
  specialize (Hb d1). rewrite H in Hb. cbn [after] in Hb. lia.
Qed.

(** The collection loop, when [dec] needs no more fuel on any shorter
    or equal input than it has, and only consumes. *)
Lemma decodeCollection_loop_bounded (dec : list byte -> outcome (list byte) Geometry)
      (n : nat) :
  forall (geoms : list Geometry) (d : decoder),
    (forall rd : list byte,
        (List.length rd <= List.length (d_r d))%nat -> leaves (List.length rd) (dec rd)) ->
    after (decodeCollection_loop dec n geoms d)
          (fun d' => (List.length (d_r d') <= List.length (d_r d))%nat).
Proof.
  induction n as [| n IH]; intros geoms d Hdec; cbn [decodeCollection_loop].
  - apply Nat.le_refl.
  - specialize (Hdec (d_r d) (Nat.le_refl _)) as Hd.
    destruct (dec (d_r d)) as [g rest | e rest | |]; cbn [leaves after] in *; auto.
    specialize (IH (geoms ++ [g]) (set_r d rest)).
    cbn [d_r set_r] in IH.
    assert (Hr : forall rd : list byte,
               (List.length rd <= List.length rest)%nat ->
               leaves (List.length rd) (dec rd))
      by (intros rd Hrd; apply Hdec; lia).
    specialize (IH Hr).
    destruct (decodeCollection_loop dec n (geoms ++ [g]) (set_r d rest));
      cbn [after] in *; auto; lia.
Qed.

Lemma after_bind {A B : Type} (m : M A) (k : A -> M B) (d : decoder) :
  after (m d) (fun d1 => (List.length (d_r d1) <= List.length (d_r d))%nat) ->
  (forall (a : A) (d1 : decoder),
      m d = Ok a d1 ->
      (List.length (d_r d1) <= List.length (d_r d))%nat ->
      after (k a d1) (fun d' => (List.length (d_r d') <= List.length (d_r d1))%nat)) ->
  after (bind m k d) (fun d' => (List.length (d_r d') <= List.length (d_r d))%nat).
Proof.
  intros Hm Hk. unfold bind.
  destruct (m d) as [a d1 | e d1 | |]; cbn [after] in *; auto.
  specialize (Hk a d1 eq_refl Hm).
  destruct (k a d1); cbn [after] in *; auto; lia.
Qed.

Lemma Decode_switch_bounded (dec : list byte -> outcome (list byte) Geometry)
      (h : Hdr) (d : decoder) :
  (forall rd : list byte,
      (List.length rd < List.length (d_r d))%nat -> leaves (List.length rd) (dec rd)) ->
  after (Decode_switch dec h d)
        (fun d' => (List.length (d_r d') <= List.length (d_r d))%nat).
Proof.
  intros Hdec. unfold Decode_switch.
  destruct (gtype h =? POINT);
    [apply bounded_bind; auto using framed_decodePoint with twkb |].
  destruct (gtype h =? LINESTRING);
    [apply bounded_bind; auto using framed_decodeLineString with twkb |].
  destruct (gtype h =? POLYGON);
    [apply bounded_bind; auto using framed_decodePolygon with twkb |].
  destruct (gtype h =? MULTIPOINT);
    [apply bounded_bind; auto using framed_decodeMultiPoint with twkb |].
  destruct (gtype h =? MULTILINESTRING);
    [apply bounded_bind; auto using framed_decodeMultiLineString with twkb |].
  destruct (gtype h =? MULTIPOLYGON);
    [apply bounded_bind; auto using framed_decodeMultiPolygon with twkb |].
  destruct (gtype h =? GEOMETRYCOLLECTION); [| apply bounded_ret].
  unfold decodeCollection.
  apply after_bind; [apply bounded_framed, framed_readMHdr |]. intros m d0 Hm _.
  apply readMHdr_shorter in Hm.
  unfold make_len. destruct (ngeoms m <? 0); [exact I |].
  apply after_bind.
  - apply decodeCollection_loop_bounded. intros rd Hrd. apply Hdec. lia.
  - intros gs d1 _ _. apply bounded_ret.
Qed.

Lemma Decode_fuel_leaves (fuel : nat) :
  forall rd : list byte,
    (List.length rd < fuel)%nat -> leaves (List.length rd) (Decode_fuel fuel rd).
Proof.
  induction fuel as [| fuel IH]; intros rd Hlen; [lia |].
  cbn [Decode_fuel]. unfold run_Decode.
  assert (H : after (Decode_body (Decode_fuel fuel) (new_decoder rd))
                    (fun d' => (List.length (d_r d') <= List.length rd)%nat)).
  { unfold Decode_body.
    apply (after_bind Decode_header _ (new_decoder rd)); [apply bounded_Decode_header |].
    intros h d1 _ Hd1. cbn [d_r new_decoder] in Hd1.
    apply Decode_switch_bounded. intros rd' Hrd'. apply IH. lia. }
  destruct (Decode_body (Decode_fuel fuel) (new_decoder rd)); cbn [after leaves] in *; auto.
Qed.

(** [Decode] never stops for lack of fuel, and what it leaves unread
    is no longer than its input. *)
Lemma Decode_fuel_enough (rd : list byte) :
  Decode rd <> OutOfFuel /\ leaves (List.length rd) (Decode rd).
Proof.
  pose proof (Decode_fuel_leaves (S (List.length rd)) rd (Nat.lt_succ_diag_r _)) as H.
  fold (Decode rd) in H. split; [| exact H].
  intros E. rewrite E in H. exact H.
Qed.

(** ** The test vectors of the package ([twkb_test.go]) *)

(** [TestDecodePoint]: hex [01000204]. *)
Example TestDecodePoint :
  Decode (bytes [1; 0; 2; 4])
  = Ok (GPoint (mkPoint (Some (mkHdr POINT XY (Some [1%float; 2%float; 1%float; 2%float])))
                        [1%float; 2%float])) [].
Proof. vm_compute. reflexivity. Qed.

(** [TestDecodeLineString]: hex [02000202020808]. *)
Example TestDecodeLineString :
  Decode (bytes [2; 0; 2; 2; 2; 8; 8])
  = Ok (GLineString
          (mkLineString (Some (mkHdr LINESTRING XY
                                     (Some [1%float; 1%float; 5%float; 5%float])))
                        [[1%float; 1%float]; [5%float; 5%float]])) [].
Proof. vm_compute. reflexivity. Qed.

(** [TestDecodePolygon]: the type, the dimension and the two rings. *)
Example TestDecodePolygon :
  exists (p : Polygon),
    Decode (bytes [3; 3; 27; 0; 4; 0; 4; 2; 5; 0; 0; 4; 0; 0; 4; 3; 0; 0; 3; 5;
                   0; 0; 0; 2; 2; 0; 0; 1; 1; 0])
    = Ok (GPolygon p) []
    /\ Geometry_Type (GPolygon p) = Some POLYGON
    /\ Geometry_Dim (GPolygon p) = Some XY
    /\ List.length (Rings p) = 2%nat.
Proof.
  eexists. split; [vm_compute; reflexivity |].
  repeat split.
Qed.

(** [TestDecodeMultiPoint]: hex [04070b0004020402000200020404]. *)
Example TestDecodeMultiPoint :
  Decode (bytes [4; 7; 11; 0; 4; 2; 4; 2; 0; 2; 0; 2; 4; 4])
  = Ok (GMultiPoint
          (mkMultiPoint (Some (mkHdr MULTIPOINT XY
                                     (Some [0%float; 1%float; 2%float; 3%float])))
                        [0; 1]
                        [mkPoint None [0%float; 1%float];
                         mkPoint None [2%float; 3%float]])) [].
Proof. vm_compute. reflexivity. Qed.

(** [TestDecodeGeometryCollection]: hex [070402000201000002020002080a0404],
    a Point and a LineString. *)
Example TestDecodeGeometryCollection :
  Decode (bytes [7; 4; 2; 0; 2; 1; 0; 0; 2; 2; 0; 2; 8; 10; 4; 4])
  = Ok (GGeometryCollection
          (Some (mkHdr GEOMETRYCOLLECTION XY None)) [0; 1]
          [GPoint (mkPoint (Some (mkHdr POINT XY
                                        (Some [0%float; 1%float; 0%float; 1%float])))
                           [0%float; 1%float]);
           GLineString
             (mkLineString (Some (mkHdr LINESTRING XY
                                        (Some [4%float; 5%float; 6%float; 7%float])))
                           [[4%float; 5%float]; [6%float; 7%float]])]) [].
Proof. vm_compute. reflexivity. Qed.

(** * Further properties of the decoder *)

(** ** Varints, read and written *)

(** A successful run of the loop took continuation bytes and one
    terminator off the front of the reader. *)
Lemma readVarInt64_loop_inv (bs : list byte) :
  forall (val s v : Z) (rest : list byte),
    readVarInt64_loop val s bs = Some (v, rest) ->
    exists (cs : list byte) (t : byte),
      bs = cs ++ t :: rest /\ Forall continues cs /\ terminates t.
Proof.
  induction bs as [| b tl IH]; intros val s v rest H; cbn [readVarInt64_loop] in H;
    [discriminate |].
  destruct (Z.land (uint8 b) 128 =? 0) eqn:E.
  - injection H as _ <-. exists [], b. cbn [app].
    repeat split; [constructor | apply Z.eqb_eq; exact E].
  - apply IH in H. destruct H as (cs & t & -> & Hc & Ht).
    exists (b :: cs), t. cbn [app]. repeat split; [| exact Ht].
    constructor; [apply Z.eqb_neq; exact E | exact Hc].
Qed.

(** A failed run found continuation bytes only. *)
Lemma readVarInt64_loop_None (bs : list byte) :
  forall val s : Z, readVarInt64_loop val s bs = None -> Forall continues bs.
Proof.
  induction bs as [| b tl IH]; intros val s H; [constructor |].
  cbn [readVarInt64_loop] in H.
  destruct (Z.land (uint8 b) 128 =? 0) eqn:E; [discriminate |].
  constructor; [apply Z.eqb_neq; exact E | eapply IH; eassumption].
Qed.

(** X1: [readVarInt64] succeeds exactly when the reader starts with a
    run of continuation bytes closed by a terminator: it takes those
    bytes and no other, and returns their groups modulo 2^64, minimal
    encoding or not.  It fails exactly when every byte left has the
    continuation bit set, with [EOF] and the reader exhausted. *)
Theorem readVarInt64_exact (d d' : decoder) (v : Z) (e : error) :
  7 * Z.of_nat (List.length (d_r d)) < 2 ^ 64 ->
  (readVarInt64 d = Ok v d' <->
   exists (bs : list byte) (t : byte) (rest : list byte),
     d_r d = bs ++ t :: rest /\ Forall continues bs /\ terminates t
     /\ v = wrap64 (varint_value (bs ++ [t])) /\ d' = set_r d rest)
  /\ (readVarInt64 d = Err e d' <->
      Forall continues (d_r d) /\ e = EOF /\ d' = set_r d []).
Proof.
  intros Hlen. split; split.
  - unfold readVarInt64. intros H.
    destruct (readVarInt64_loop 0 0 (d_r d)) as [[v' rest] |] eqn:E; [| discriminate].
    injection H as <- <-.
    destruct (readVarInt64_loop_inv _ _ _ _ _ E) as (cs & t & Hr & Hc & Ht).
    exists cs, t, rest. repeat split; try assumption.
    rewrite Hr in E, Hlen. rewrite length_app in Hlen. cbn [List.length] in Hlen.
    rewrite readVarInt64_loop_value in E by (try assumption; lia).
    rewrite Z.shiftl_0_r, Z.lor_0_l in E. injection E as <-. reflexivity.
  - intros (bs & t & rest & Hr & Hc & Ht & -> & ->).
    unfold readVarInt64. rewrite Hr in *.
    rewrite length_app in Hlen. cbn [List.length] in Hlen.
    rewrite readVarInt64_loop_value by (try assumption; lia).
    rewrite Z.shiftl_0_r, Z.lor_0_l. reflexivity.
  - unfold readVarInt64. intros H.
    destruct (readVarInt64_loop 0 0 (d_r d)) as [[v' rest] |] eqn:E; [discriminate |].
    injection H as <- <-. apply readVarInt64_loop_None in E. auto.
  - intros (Hc & -> & ->). unfold readVarInt64.
    rewrite readVarInt64_loop_truncated by exact Hc. reflexivity.
Qed.

Lemma readVarInt64_exact_witness :
  (readVarInt64 (set_r (new_decoder []) (bytes [128; 0; 9]))
   = Ok 0 (set_r (new_decoder []) (bytes [9])) <->
   exists (bs : list byte) (t : byte) (rest : list byte),
     d_r (set_r (new_decoder []) (bytes [128; 0; 9])) = bs ++ t :: rest
     /\ Forall continues bs /\ terminates t
     /\ 0 = wrap64 (varint_value (bs ++ [t]))
     /\ set_r (new_decoder []) (bytes [9])
        = set_r (set_r (new_decoder []) (bytes [128; 0; 9])) rest)
  /\ (readVarInt64 (set_r (new_decoder []) (bytes [128; 0; 9]))
      = Err EOF (set_r (new_decoder []) (bytes [9])) <->
      Forall continues (d_r (set_r (new_decoder []) (bytes [128; 0; 9])))
      /\ EOF = EOF
      /\ set_r (new_decoder []) (bytes [9])
         = set_r (set_r (new_decoder []) (bytes [128; 0; 9])) []).
Proof.
  apply (readVarInt64_exact (set_r (new_decoder []) (bytes [128; 0; 9]))
           (set_r (new_decoder []) (bytes [9])) 0 EOF).
  cbn [d_r set_r bytes map List.length]. lia.
Defined.

(** X2: [unzigzag] maps the [uint64] values into the [int64] values,
    and the zigzag encoding brings every one of them back: with the
    round trip in the other direction the two are inverse bijections. *)
Theorem zigzag_unzigzag (u : Z) :
  0 <= u < 2 ^ 64 ->
  is_int64 (unzigzag u) /\ zigzag (unzigzag u) = u.
Proof.
  intros Hu. unfold is_int64.
  assert (Hh : 0 <= Z.shiftr u 1 < 2 ^ 63).
  { rewrite Z.shiftr_div_pow2 by lia. change (2 ^ 1) with 2.
    split; [apply Z.div_pos; lia | apply Z.div_lt_upper_bound; lia]. }
  assert (Hd : u = 2 * Z.shiftr u 1 + (if Z.even u then 0 else 1)).
  { rewrite Z.shiftr_div_pow2 by lia. change (2 ^ 1) with 2.
    rewrite <- Zmod_even. apply Z.div_mod. lia. }
  rewrite unzigzag_arith by exact Hu.
  destruct (Z.even u).
  - split; [unfold MinInt64, MaxInt64; lia |].
    rewrite zigzag_arith by (unfold MinInt64, MaxInt64; lia).
    destruct (Z.ltb_spec (Z.shiftr u 1) 0); lia.
  - split; [unfold MinInt64, MaxInt64; lia |].
    rewrite zigzag_arith by (unfold MinInt64, MaxInt64; lia).
    destruct (Z.ltb_spec (- Z.shiftr u 1 - 1) 0); lia.
Qed.

Lemma zigzag_unzigzag_witness :
  0 <= 5 < 2 ^ 64 /\ is_int64 (unzigzag 5) /\ zigzag (unzigzag 5) = 5.
Proof.
  assert (Hu : 0 <= 5 < 2 ^ 64) by lia.
  split; [exact Hu |]. exact (zigzag_unzigzag 5 Hu).
Defined.

(** The reader gives back what the encoder wrote, and stops there. *)
Lemma readVarInt64_encode (d : decoder) (u : Z) (rest : list byte) :
  0 <= u < 2 ^ 64 ->
  d_r d = encode_varint u ++ rest ->
  readVarInt64 d = Ok u (set_r d rest).
Proof.
  intros Hu Hr.
  destruct (encode_varint_aux_shape 9 u) as (l & t & Henc & Hl & Ht & Hlen & Hv).
  { change (2 ^ (7 * (Z.of_nat 9 + 1))) with (2 ^ 70). lia. }
  unfold readVarInt64. rewrite Hr. unfold encode_varint.
  rewrite Henc, <- app_assoc. cbn [app].
  rewrite readVarInt64_loop_value by (try assumption; lia).
  rewrite Hv, Z.shiftl_0_r, Z.lor_0_l, wrap64_small by exact Hu.
  reflexivity.
Qed.

Lemma unzigzag_of_zigzag (v : Z) : is_int64 v -> unzigzag (zigzag v) = v.
Proof.
  unfold is_int64. intros Hv.
  rewrite unzigzag_arith by apply zigzag_range.
  rewrite zigzag_arith by exact Hv.
  unfold MinInt64, MaxInt64 in Hv.
  destruct (v <? 0) eqn:E; [apply Z.ltb_lt in E | apply Z.ltb_ge in E].
  - replace (- 2 * v - 1) with (1 + 2 * (- v - 1)) by lia.
    rewrite Z.even_add_mul_2. simpl Z.even. cbv iota.
    rewrite Z.shiftr_div_pow2 by lia. change (2 ^ 1) with 2.
    rewrite Z.add_comm, Z.mul_comm, Z.div_add_l by lia.
    change (1 / 2) with 0. lia.
  - replace (2 * v) with (0 + 2 * v) by lia.
    rewrite Z.even_add_mul_2. simpl Z.even. cbv iota.
    rewrite Z.shiftr_div_pow2 by lia. change (2 ^ 1) with 2.
    rewrite Z.add_comm, Z.mul_comm, Z.div_add_l by lia.
    change (0 / 2) with 0. lia.
Qed.

Lemma readVarSInt64_encode (d : decoder) (v : Z) (rest : list byte) :
  is_int64 v ->
  d_r d = encode_varint (zigzag v) ++ rest ->
  readVarSInt64 d = Ok v (set_r d rest).
Proof.
  intros Hv Hr. unfold readVarSInt64, bind.
  rewrite (readVarInt64_encode d (zigzag v) rest) by (try apply zigzag_range; exact Hr).
  unfold ret. rewrite unzigzag_of_zigzag by exact Hv. reflexivity.
Qed.

(** X3: the signed reader composes the two decodings: on the varint
    of the zigzag code of any [int64] it returns that value and leaves
    the bytes after it; on no byte at all it fails with [EOF]. *)
Theorem readVarSInt64_roundtrip (d : decoder) (v : Z) (rest : list byte) :
  is_int64 v ->
  readVarSInt64 (set_r d (encode_varint (zigzag v) ++ rest)) = Ok v (set_r d rest)
  /\ readVarSInt64 (set_r d []) = Err EOF (set_r d []).
Proof.
  intros Hv. split; [| reflexivity].
  rewrite (readVarSInt64_encode _ v rest) by (try exact Hv; reflexivity).
  reflexivity.
Qed.

Lemma readVarSInt64_roundtrip_witness :
  readVarSInt64 (set_r (new_decoder []) (encode_varint (zigzag (-300)) ++ bytes [1]))
  = Ok (-300) (set_r (new_decoder []) (bytes [1]))
  /\ readVarSInt64 (set_r (new_decoder []) []) = Err EOF (set_r (new_decoder []) []).
Proof.
  apply (readVarSInt64_roundtrip (new_decoder []) (-300) (bytes [1])).
  unfold is_int64, MinInt64, MaxInt64. lia.
Defined.

(** ** Identifier lists and the multi-header *)

Lemma readIDList_loop_encode (vs : list Z) :
  forall (ids : list Z) (d : decoder) (rest : list byte),
    Forall is_int64 vs ->
    d_r d = encode_svarints vs ++ rest ->
    readIDList_loop (List.length vs) ids d = Ok (ids ++ vs) (set_r d rest).
Proof.
  induction vs as [| v tl IH]; intros ids d rest Hvs Hr;
    cbn [List.length readIDList_loop].
  - unfold encode_svarints in Hr. cbn [map concat app] in Hr.
    unfold ret. rewrite app_nil_r, <- Hr. destruct d; reflexivity.
  - inversion Hvs as [| ? ? Hv Htl]; subst.
    unfold encode_svarints in Hr. cbn [map concat] in Hr. rewrite <- app_assoc in Hr.
    unfold bind. rewrite (readVarSInt64_encode d v _ Hv Hr).
    rewrite (IH (ids ++ [v]) _ rest Htl) by reflexivity.
    rewrite <- app_assoc. reflexivity.
Qed.

(** X4: [readIDList] reads back a list of identifiers written as
    signed varints, in order, and stops after the last; a negative
    count panics (the [make] of the slice) before any byte is read;
    and the list it returns always has as many entries as asked for. *)
Theorem readIDList_roundtrip (d d' : decoder) (vs ids : list Z) (rest : list byte) (n : Z) :
  Forall is_int64 vs ->
  readIDList (Z.of_nat (List.length vs)) (set_r d (encode_svarints vs ++ rest))
  = Ok vs (set_r d rest)
  /\ (n < 0 -> readIDList n d = Panic)
  /\ (readIDList n d = Ok ids d' -> Z.of_nat (List.length ids) = n).
Proof.
  intros Hvs. split; [| split].
  - unfold readIDList, make_len.
    destruct (Z.ltb_spec (Z.of_nat (List.length vs)) 0) as [Hlt | _]; [lia |].
    rewrite Nat2Z.id.
    rewrite (readIDList_loop_encode vs [] _ rest Hvs) by reflexivity.
    reflexivity.
  - intros Hn. unfold readIDList, make_len.
    apply Z.ltb_lt in Hn. rewrite Hn. reflexivity.
  - intros H. unfold readIDList in H. apply make_len_Ok in H. destruct H as [Hn H].
    assert (Hl : forall k acc x x', readIDList_loop k acc x = Ok ids x' ->
                                    List.length ids = (List.length acc + k)%nat).
    { induction k as [| k IH]; intros acc x x' Hk; cbn [readIDList_loop] in Hk.
      - inv_ret Hk. lia.
      - bind_inv Hk as i x1 Hi. apply IH in Hk. rewrite length_app in Hk.
        cbn [List.length] in Hk. lia. }
    apply Hl in H. cbn [List.length] in H. lia.
Qed.

Lemma readIDList_roundtrip_witness :
  readIDList (Z.of_nat (List.length [5; -7]))
             (set_r (new_decoder []) (encode_svarints [5; -7] ++ bytes [3]))
  = Ok [5; -7] (set_r (new_decoder []) (bytes [3]))
  /\ (-1 < 0 -> readIDList (-1) (new_decoder []) = Panic)
  /\ (readIDList (-1) (new_decoder []) = Ok [] (new_decoder []) ->
      Z.of_nat (List.length (@nil Z)) = -1).
Proof.
  apply (readIDList_roundtrip (new_decoder []) (new_decoder []) [5; -7] [] (bytes [3]) (-1)).
  repeat constructor; unfold MinInt64, MaxInt64; lia.
Defined.

(** ** The decoder the header leaves *)

Lemma only_reads_read : only_reads read.
Proof.
  intros d. unfold read. destruct (d_r d) as [| b rest] eqn:E; cbn [after].
  - exists []. destruct d. cbn [d_r] in E. subst. reflexivity.
  - eexists. reflexivity.
Qed.

Lemma only_reads_readBBox_loop (k : nat) :
  forall (idx n : nat) (bb : BBox), only_reads (readBBox_loop k idx n bb).
Proof.
  induction k as [| k IH]; intros idx n bb; cbn [readBBox_loop]; [apply only_reads_ret |].
  apply only_reads_bind; [apply only_reads_readVarSInt64 |]. intros min.
  apply only_reads_bind; [apply only_reads_readVarSInt64 |]. intros max. apply IH.
Qed.

Lemma precision_field_range (e : Z) :
  0 <= Z.shiftr (Z.land e 28) 2 <= 7 /\ 0 <= Z.shiftr (Z.land e 224) 5 <= 7.
Proof.
  rewrite !Z.shiftr_land.
  change (Z.shiftr 28 2) with (Z.ones 3). change (Z.shiftr 224 5) with (Z.ones 3).
  rewrite !Z.land_ones by lia. change (2 ^ 3) with 8.
  pose proof (Z.mod_pos_bound (Z.shiftr e 2) 8 ltac:(lia)).
  pose proof (Z.mod_pos_bound (Z.shiftr e 5) 8 ltac:(lia)). lia.
Qed.

Lemma Pow10_int64_exact (p : Z) : 0 <= p <= 7 -> Pow10_int64 p = 10 ^ p.
Proof.
  intros Hp. unfold Pow10_int64.
  destruct (Z.ltb_spec p 0); [lia |]. destruct (Z.leb_spec p 18); [reflexivity | lia].
Qed.

(** The dimension code is the low two bits of the extended byte: both
    set is XYZM, bit 0 alone XYZ, bit 1 alone XYM, neither XY. *)
Lemma extended_dims_code (extended : Z) (fs : list Z) :
  fst (fst (extended_dims extended fs)) = Z.land extended 3.
Proof.
  unfold extended_dims, XYZM, XYZ, XYM, XY.
  assert (Hr : 0 <= Z.land extended 3 < 4).
  { change 3 with (Z.ones 2). rewrite Z.land_ones by lia. apply Z.mod_pos_bound. lia. }
  assert (H1 : Z.land extended 1 = Z.land (Z.land extended 3) 1)
    by (rewrite <- Z.land_assoc; reflexivity).
  assert (H2 : Z.land extended 2 = Z.land (Z.land extended 3) 2)
    by (rewrite <- Z.land_assoc; reflexivity).
  rewrite H1, H2.
  assert (Hc : Z.land extended 3 = 0 \/ Z.land extended 3 = 1
               \/ Z.land extended 3 = 2 \/ Z.land extended 3 = 3) by lia.
  destruct Hc as [-> | [-> | [-> | ->]]]; reflexivity.
Qed.

(** What [Decode_dims] does to a decoder of two dimensions whose
    first two factors are set. *)
Lemma Decode_dims_full (flag : Z) (gt : GeomType) (d d' : decoder) (h : Hdr)
      (f0 f1 x y : Z) :
  Decode_dims flag gt d = Ok h d' ->
  d_ndims d = 2%nat ->
  d_factors d = [f0; f1; x; y] ->
  d_refpoint d' = d_refpoint d
  /\ d_bbox d' = d_bbox d /\ d_idlist d' = d_idlist d
  /\ d_ndims d' = ndims_of (dim h)
  /\ (exists f2 f3 : Z,
        d_factors d' = [f0; f1; f2; f3]
        /\ ((3 <= d_ndims d')%nat -> exists p : Z, 0 <= p <= 7 /\ f2 = 10 ^ p)
        /\ ((4 <= d_ndims d')%nat -> exists p : Z, 0 <= p <= 7 /\ f3 = 10 ^ p))
  /\ (Z.land flag exprec <> exprec -> dim h = XY)
  /\ (Z.land flag exprec = exprec ->
      exists (e : byte) (rest : list byte),
        d_r d = e :: rest /\ dim h = Z.land (uint8 e) 3)
  /\ (hdr_bbox h = None <-> d_bbox d = false)
  /\ (forall b : BBox, hdr_bbox h = Some b -> List.length b = (d_ndims d' * 2)%nat).
Proof.
  unfold Decode_dims. intros H Hnd Hfs.
  bind_inv H as dm d1 Hdm.
  assert (Hd1 : d_refpoint d1 = d_refpoint d /\ d_bbox d1 = d_bbox d
                /\ d_idlist d1 = d_idlist d /\ d_size d1 = d_size d
                /\ d_ndims d1 = ndims_of dm
                /\ (exists f2 f3 : Z,
                      d_factors d1 = [f0; f1; f2; f3]
                      /\ ((3 <= d_ndims d1)%nat -> exists p : Z, 0 <= p <= 7 /\ f2 = 10 ^ p)
                      /\ ((4 <= d_ndims d1)%nat -> exists p : Z, 0 <= p <= 7 /\ f3 = 10 ^ p))
                /\ (Z.land flag exprec <> exprec -> dm = XY)
                /\ (Z.land flag exprec = exprec ->
                    exists (e : byte) (rest : list byte),
                      d_r d = e :: rest /\ dm = Z.land (uint8 e) 3)).
  { destruct (Z.eqb_spec (Z.land flag exprec) exprec) as [He | He].
    - bind_inv Hdm as ext d0 Hr. rewrite bind_get in Hdm.
      unfold read in Hr. destruct (d_r d) as [| e rest] eqn:Er; [discriminate |].
      injection Hr as <- <-.
      cbn [d_factors set_r] in Hdm. rewrite Hfs in Hdm.
      pose proof (extended_dims_code (uint8 e) [f0; f1; x; y]) as Hcode.
      destruct (precision_field_range (uint8 e)) as [Hz Hm].
      unfold extended_dims in Hdm, Hcode.
      destruct (Z.land (uint8 e) XYZM =? XYZM);
        [| destruct (Z.land (uint8 e) XYZ =? XYZ);
           [| destruct (Z.land (uint8 e) XYM =? XYM)]];
        rewrite bind_modify in Hdm; inv_ret Hdm; cbn [fst] in Hcode;
        cbn [d_refpoint d_bbox d_idlist d_size d_ndims d_factors set_ndims set_factors
             set_r upd];
        repeat (split; [reflexivity |]);
        (split; [| split; [intros; contradiction
                          | intros _; exists e, rest; split; [reflexivity | exact Hcode]]]);
        do 2 eexists; (split; [reflexivity |]);
        split; intros Hn; cbn in Hn; try lia;
        eexists; (split; [| apply Pow10_int64_exact]); eassumption.
    - inv_ret Hdm. repeat (split; [reflexivity |]).
      split; [exact Hnd |].
      split; [| split; [intros; reflexivity | intros; contradiction]].
      exists x, y. split; [exact Hfs |]. rewrite Hnd. split; intros; lia. }
  destruct Hd1 as (Hrp1 & Hb1 & Hi1 & Hs1 & Hn1 & Hf1 & Hx1 & Hx2).
  rewrite bind_get in H. bind_inv H as u d2 Hsz.
  assert (Hd2 : exists rest len, d2 = set_length (set_r d1 rest) len).
  { destruct (d_size d1).
    - bind_inv Hsz as len d0 Hl. unfold modify in Hsz. injection Hsz as _ <-.
      apply only_reads_Ok in Hl; [| apply only_reads_readVarInt64].
      destruct Hl as [rest ->]. exists rest, len. reflexivity.
    - inv_ret Hsz. exists (d_r d2), (d_length d2). destruct d2; reflexivity. }
  destruct Hd2 as (rest2 & len & ->).
  bind_inv H as bb d3 Hbb. inv_ret H. cbn [dim hdr_bbox].
  assert (Hd3 : (exists rest, d' = set_r (set_length (set_r d1 rest2) len) rest)
                /\ (bb = None <-> d_bbox d1 = false)
                /\ (forall b, bb = Some b -> List.length b = (d_ndims d1 * 2)%nat)).
  { destruct (d_bbox d1) eqn:Eb.
    - bind_inv Hbb as b d0 Hl. inv_ret Hbb.
      assert (Hlen : forall k idx n b0 x0 x1 b1,
                 readBBox_loop k idx n b0 x0 = Ok b1 x1 ->
                 List.length b1 = List.length b0).
      { induction k as [| k IH]; intros idx n b0 x0 x1 b1 Hk; cbn [readBBox_loop] in Hk.
        - inv_ret Hk. reflexivity.
        - bind_inv Hk as mn y0 Hmn. bind_inv Hk as mx y1 Hmx.
          apply IH in Hk. rewrite !length_upd in Hk. exact Hk. }
      pose proof (Hlen _ _ _ _ _ _ _ Hl) as Hlb. rewrite repeat_length in Hlb.
      apply only_reads_Ok in Hl; [| apply only_reads_readBBox_loop].
      destruct Hl as [rest ->]. split; [exists rest; reflexivity |].
      split; [split; intros; discriminate |].
      intros b0 Hb0. injection Hb0 as <-. exact Hlb.
    - inv_ret Hbb. split; [exists (d_r (set_length (set_r d1 rest2) len)); reflexivity |].
      split; [split; reflexivity | intros; discriminate]. }
  destruct Hd3 as ([rest3 ->] & Hbb3 & Hlen3).
  cbn [d_refpoint d_bbox d_idlist d_ndims d_factors set_r set_length].
  rewrite <- Hb1.
  repeat (split; try assumption).
Qed.

(** The decoder and the header after the first part of [Decode]. *)
Lemma Decode_header_full (rd : list byte) (h : Hdr) (d1 : decoder) :
  Decode_header (new_decoder rd) = Ok h d1 ->
  exists (t f : byte) (rest : list byte),
    rd = t :: f :: rest
    /\ gtype h = Z.land (uint8 t) 15
    /\ d_refpoint d1 = [0; 0; 0; 0]
    /\ d_bbox d1 = (Z.land (uint8 f) bbox =? bbox)
    /\ d_idlist d1 = (Z.land (uint8 f) idlist =? idlist)
    /\ d_ndims d1 = ndims_of (dim h)
    /\ List.length (d_factors d1) = 4%nat
    /\ factors_ok d1
    /\ (Z.land (uint8 f) exprec <> exprec -> dim h = XY)
    /\ (Z.land (uint8 f) exprec = exprec ->
        exists (e : byte) (rest' : list byte),
          rest = e :: rest' /\ dim h = Z.land (uint8 e) 3)
    /\ (hdr_bbox h = None <-> d_bbox d1 = false)
    /\ (forall b : BBox, hdr_bbox h = Some b -> List.length b = (d_ndims d1 * 2)%nat).
Proof.
  intros H. unfold Decode_header in H.
  destruct rd as [| t [| f rest]].
  - discriminate H.
  - rewrite (bind_read_cons _ _ t []) in H by reflexivity.
    destruct ((Z.land (uint8 t) 15 >? GEOMETRYCOLLECTION) || (Z.land (uint8 t) 15 <? POINT));
      [discriminate |].
    rewrite bind_modify in H. discriminate H.
  - rewrite (bind_read_cons _ _ t (f :: rest)) in H by reflexivity.
    destruct ((Z.land (uint8 t) 15 >? GEOMETRYCOLLECTION) || (Z.land (uint8 t) 15 <? POINT));
      [discriminate |].
    rewrite bind_modify in H.
    rewrite (bind_read_cons _ _ f rest) in H by reflexivity.
    rewrite !bind_modify in H.
    pose proof (Decode_dims_header _ _ _ _ _ H) as [Hg _].
    pose proof (precision_range t) as Hp.
    eapply Decode_dims_full in H; [| reflexivity | reflexivity].
    cbn [d_refpoint d_bbox d_idlist d_r set_ndims set_flags set_r set_factors
         new_decoder] in H.
    destruct H as (Hrp & Hb & Hi & Hn & (f2 & f3 & Hfs & H3 & H4) & Hx & He & Hbb & Hlen).
    exists t, f, rest.
    split; [reflexivity |]. split; [exact Hg |]. split; [exact Hrp |].
    split; [exact Hb |]. split; [exact Hi |]. split; [exact Hn |].
    split; [rewrite Hfs; reflexivity |].
    split.
    { intros j Hj. rewrite Hfs.
      destruct j as [| [| [| [| j]]]]; cbn [nth].
      - exists (precision (uint8 t)). split; [exact Hp | apply Pow10_int64_exact; exact Hp].
      - exists (precision (uint8 t)). split; [exact Hp | apply Pow10_int64_exact; exact Hp].
      - apply H3. lia.
      - apply H4. lia.
      - assert (Hle : (ndims_of (dim h) <= 4)%nat)
          by (unfold ndims_of; destruct (dim h =? XYZM); [| destruct (dim h =? XY)]; lia).
        lia. }
    split; [exact Hx |]. split; [exact He |]. split; [| exact Hlen].
    rewrite Hb. exact Hbb.
Qed.

(** X5: after the header the decoder is ready for any coordinate
    block: it has two to four dimensions, as many as the dimension code
    of the header says; its reference point is zero and its factors
    array full, so every index below [ndims] is in range; and the
    factor of every dimension in use is a power of ten from 1 to 10^7,
    so no ordinate is a division by zero. *)
Theorem Decode_header_ready (rd : list byte) (h : Hdr) (d1 : decoder) :
  Decode_header (new_decoder rd) = Ok h d1 ->
  (2 <= d_ndims d1 <= 4)%nat
  /\ d_ndims d1 = ndims_of (dim h)
  /\ d_refpoint d1 = [0; 0; 0; 0]
  /\ List.length (d_factors d1) = 4%nat
  /\ factors_ok d1
  /\ forall j : nat, (j < d_ndims d1)%nat -> 1 <= nth j (d_factors d1) 0 <= 10 ^ 7.
Proof.
  intros H. apply Decode_header_full in H.
  destruct H as (t & f & rest & _ & _ & Hrp & _ & _ & Hn & Hlen & Hf & _).
  split.
  { rewrite Hn. unfold ndims_of.
    destruct (dim h =? XYZM); [| destruct (dim h =? XY)]; lia. }
  repeat (split; [assumption |]).
  intros j Hj. destruct (Hf j Hj) as (p & Hp & ->).
  split.
  - assert (0 < 10 ^ p) by (apply Z.pow_pos_nonneg; lia). lia.
  - apply Z.pow_le_mono_r; lia.
Qed.

Lemma Decode_header_ready_witness :
  (2 <= 3 <= 4)%nat
  /\ 3%nat = ndims_of XYZ
  /\ [0; 0; 0; 0] = [0; 0; 0; 0]
  /\ List.length [100; 100; 1000; 0] = 4%nat
  /\ factors_ok (mkDecoder (bytes [2; 4; 6]) [0; 0; 0; 0] [100; 100; 1000; 0] 3
                           false false false false 0)
  /\ forall j : nat, (j < 3)%nat -> 1 <= nth j [100; 100; 1000; 0] 0 <= 10 ^ 7.
Proof.
  apply (Decode_header_ready (bytes [65; 8; 13; 2; 4; 6])
           (mkHdr POINT XYZ None)
           (mkDecoder (bytes [2; 4; 6]) [0; 0; 0; 0] [100; 100; 1000; 0] 3
                      false false false false 0)).
  vm_compute. reflexivity.
Defined.

(** ** What [Type()] and [Dim()] return *)

(** X6: on a decoded geometry [Type()] is the low nibble of the first
    byte of the input, and [Dim()] is XY unless the metadata byte has
    the extended flag, in which case it is the low two bits of the
    byte that follows (3 XYZM, 1 XYZ, 2 XYM, 0 XY again). *)
Theorem Decode_Type_Dim (t f : byte) (rest rest' : list byte) (g : Geometry) :
  Decode (t :: f :: rest) = Ok g rest' ->
  Geometry_Type g = Some (Z.land (uint8 t) 15)
  /\ Geometry_Dim g
     = Some (if Z.land (uint8 f) exprec =? exprec
             then match rest with
                  | e :: _ => Z.land (uint8 e) 3
                  | [] => XY
                  end
             else XY).
Proof.
  intros H. unfold Decode in H. apply Decode_fuel_header in H.
  destruct H as (h & d1 & Hh & -> & ->).
  apply Decode_header_full in Hh.
  destruct Hh as (t' & f' & r' & E & Hg & _ & _ & _ & _ & _ & _ & Hx & He & _).
  injection E as <- <- <-.
  split; [rewrite Hg; reflexivity |].
  destruct (Z.eqb_spec (Z.land (uint8 f) exprec) exprec) as [Hy | Hn].
  - destruct (He Hy) as (e & r & -> & ->). reflexivity.
  - rewrite (Hx Hn). reflexivity.
Qed.

Lemma Decode_Type_Dim_witness :
  Some POINT = Some (Z.land (uint8 (byte_of 1)) 15)
  /\ Some XYZ
     = Some (if Z.land (uint8 (byte_of 8)) exprec =? exprec
             then match bytes [1; 2; 4; 6] with
                  | e :: _ => Z.land (uint8 e) 3
                  | [] => XY
                  end
             else XY).
Proof.
  apply (Decode_Type_Dim (byte_of 1) (byte_of 8) (bytes [1; 2; 4; 6]) []
           (GPoint (mkPoint (Some (mkHdr POINT XYZ
                                         (Some [1%float; 2%float; 3%float;
                                                1%float; 2%float; 3%float])))
                            [1%float; 2%float; 3%float]))).
  vm_compute. reflexivity.
Defined.

Lemma Decode_switch_kind (dec : list byte -> outcome (list byte) Geometry)
      (h : Hdr) (d d' : decoder) (g : Geometry) :
  POINT <= gtype h <= GEOMETRYCOLLECTION ->
  Decode_switch dec h d = Ok g d' -> kind_of g = Some (gtype h).
Proof.
  intros Hg H. unfold Decode_switch in H.
  destruct (Z.eqb_spec (gtype h) POINT) as [E1 | N1].
  { bind_inv H as p d1 Hp. inv_ret H. rewrite E1. reflexivity. }
  destruct (Z.eqb_spec (gtype h) LINESTRING) as [E2 | N2].
  { bind_inv H as p d1 Hp. inv_ret H. rewrite E2. reflexivity. }
  destruct (Z.eqb_spec (gtype h) POLYGON) as [E3 | N3].
  { bind_inv H as p d1 Hp. inv_ret H. rewrite E3. reflexivity. }
  destruct (Z.eqb_spec (gtype h) MULTIPOINT) as [E4 | N4].
  { bind_inv H as p d1 Hp. inv_ret H. rewrite E4. reflexivity. }
  destruct (Z.eqb_spec (gtype h) MULTILINESTRING) as [E5 | N5].
  { bind_inv H as p d1 Hp. inv_ret H. rewrite E5. reflexivity. }
  destruct (Z.eqb_spec (gtype h) MULTIPOLYGON) as [E6 | N6].
  { bind_inv H as p d1 Hp. inv_ret H. rewrite E6. reflexivity. }
  destruct (Z.eqb_spec (gtype h) GEOMETRYCOLLECTION) as [E7 | N7].
  { unfold decodeCollection in H.
    bind_inv H as m d2 Hm. apply make_len_Ok in H. destruct H as [_ H].
    bind_inv H as gs d3 Hgs. inv_ret H. rewrite E7. reflexivity. }
  unfold POINT, LINESTRING, POLYGON, MULTIPOINT, MULTILINESTRING, MULTIPOLYGON,
    GEOMETRYCOLLECTION in *. lia.
Qed.

(** X7: the value [Decode] returns has the dynamic type its [Type()]
    announces (a [*Point] for POINT, and so on for the seven kinds); the
    bare header of the last [return] of [Decode] is never returned. *)
Theorem Decode_kind (rd rest : list byte) (g : Geometry) :
  Decode rd = Ok g rest ->
  kind_of g = Geometry_Type g /\ (forall h : Hdr, g <> GHdr h).
Proof.
  intros H. unfold Decode in H. cbn [Decode_fuel] in H. unfold run_Decode in H.
  destruct (Decode_body _ _) as [g' d' | | |] eqn:E; try discriminate.
  injection H as -> _.
  unfold Decode_body in E. bind_inv E as h d1 Hh.
  pose proof (Decode_header_range _ _ _ Hh) as [Hg _].
  pose proof (Decode_switch_kind _ _ _ _ _ Hg E) as Hk.
  apply Decode_switch_header in E.
  assert (Ht : Geometry_Type g = Some (gtype h)).
  { unfold Geometry_Type.
    destruct (Geometry_Hdr g) as [h' |]; cbn [keeps_header] in E; [| contradiction].
    destruct E as [Eg _]. cbn [Hdr_Type option_map]. rewrite Eg. reflexivity. }
  split; [rewrite Hk, Ht; reflexivity |].
  intros h0 ->. discriminate Hk.
Qed.

Lemma Decode_kind_witness :
  kind_of (GLineString (mkLineString (Some (mkHdr LINESTRING XY
                                                  (Some [1%float; 1%float; 5%float; 5%float])))
                                     [[1%float; 1%float]; [5%float; 5%float]]))
  = Geometry_Type (GLineString
                     (mkLineString (Some (mkHdr LINESTRING XY
                                                (Some [1%float; 1%float; 5%float; 5%float])))
                                   [[1%float; 1%float]; [5%float; 5%float]]))
  /\ (forall h : Hdr,
         GLineString (mkLineString (Some (mkHdr LINESTRING XY
                                                (Some [1%float; 1%float; 5%float; 5%float])))
                                   [[1%float; 1%float]; [5%float; 5%float]])
         <> GHdr h).
Proof.
  apply (Decode_kind (bytes [2; 0; 2; 2; 2; 8; 8]) []).
  vm_compute. reflexivity.
Defined.

(** ** Identifiers and members *)

Lemma readIDList_length (n : Z) (d d' : decoder) (ids : list Z) :
  readIDList n d = Ok ids d' -> 0 <= n /\ List.length ids = Z.to_nat n.
Proof.
  intros H. unfold readIDList in H. apply make_len_Ok in H. destruct H as [Hn H].
  split; [exact Hn |].
  assert (Hl : forall k acc x x', readIDList_loop k acc x = Ok ids x' ->
                                  List.length ids = (List.length acc + k)%nat).
  { induction k as [| k IH]; intros acc x x' Hk; cbn [readIDList_loop] in Hk.
    - inv_ret Hk. lia.
    - bind_inv Hk as i x1 Hi. apply IH in Hk. rewrite length_app in Hk.
      cbn [List.length] in Hk. lia. }
  apply Hl in H. exact H.
Qed.

Lemma readMHdr_ids (d d0 : decoder) (m : mhdr) :
  readMHdr d = Ok m d0 ->
  0 <= ngeoms m -> ids_match (d_idlist d) (m_idlist m) (Z.to_nat (ngeoms m)).
Proof.
  unfold readMHdr. intros H Hn. bind_inv H as n d1 Hr. rewrite bind_get in H.
  apply only_reads_Ok in Hr; [| apply only_reads_readVarInt64]. destruct Hr as [rest ->].
  cbn [d_idlist set_r] in H. unfold ids_match.
  destruct (d_idlist d).
  - bind_inv H as ids d2 Hi. inv_ret H. cbn [m_idlist ngeoms] in *.
    apply readIDList_length in Hi. apply Hi.
  - inv_ret H. reflexivity.
Qed.

Lemma members_loop_length {A : Type} (body : option Hdr -> M A) (n : nat) :
  forall (acc ps : list A) (d d' : decoder),
    members_loop body n acc d = Ok ps d' -> List.length ps = (List.length acc + n)%nat.
Proof.
  induction n as [| n IH]; intros acc ps d d' H; cbn [members_loop] in H.
  - inv_ret H. lia.
  - bind_inv H as p d1 Hp. apply IH in H. rewrite length_app in H.
    cbn [List.length] in H. lia.
Qed.

Lemma decodeCollection_loop_length (dec : list byte -> outcome (list byte) Geometry)
      (n : nat) :
  forall (acc gs : list Geometry) (d d' : decoder),
    decodeCollection_loop dec n acc d = Ok gs d' ->
    List.length gs = (List.length acc + n)%nat.
Proof.
  induction n as [| n IH]; intros acc gs d d' H; cbn [decodeCollection_loop] in H.
  - inv_ret H. lia.
  - destruct (dec (d_r d)) as [g rest | e rest | |]; try discriminate.
    apply IH in H. rewrite length_app in H. cbn [List.length] in H. lia.
Qed.

(** The shape the four multi decoders share: the multi-header, the
    slice of members, the member loop. *)
Lemma multi_shape {A B : Type} (loop : nat -> M (list A)) (mk : list Z -> list A -> B)
      (d d' : decoder) (b : B) :
  (forall (n : nat) (x x' : decoder) (xs : list A),
      loop n x = Ok xs x' -> List.length xs = n) ->
  (m <- readMHdr ;;
   make_len (ngeoms m) (fun n => xs <- loop n ;; ret (mk (m_idlist m) xs))) d = Ok b d' ->
  exists (ids : list Z) (xs : list A),
    b = mk ids xs /\ ids_match (d_idlist d) ids (List.length xs).
Proof.
  intros Hloop H. bind_inv H as m d0 Hm.
  apply make_len_Ok in H. destruct H as [Hn H].
  bind_inv H as xs d1 Hx. inv_ret H.
  exists (m_idlist m), xs. split; [reflexivity |].
  rewrite (Hloop _ _ _ _ Hx). eapply readMHdr_ids; eassumption.
Qed.

(** X8: in a decoded MultiPoint, MultiLineString, MultiPolygon or
    GeometryCollection the identifier list has exactly one entry per
    member when the id-list flag (bit 2 of the metadata byte) is set,
    and is nil when it is not. *)
Theorem Decode_ids (t f : byte) (rest rest' : list byte) (g : Geometry) :
  Decode (t :: f :: rest) = Ok g rest' ->
  match g with
  | GMultiPoint m =>
      ids_match (Z.land (uint8 f) idlist =? idlist)
                (MultiPoint_Ids m) (List.length (Points m))
  | GMultiLineString m =>
      ids_match (Z.land (uint8 f) idlist =? idlist)
                (MultiLineString_Ids m) (List.length (LineStrings m))
  | GMultiPolygon m =>
      ids_match (Z.land (uint8 f) idlist =? idlist)
                (MultiPolygon_Ids m) (List.length (Polygons m))
  | GGeometryCollection _ ids gs =>
      ids_match (Z.land (uint8 f) idlist =? idlist) ids (List.length gs)
  | _ => True
  end.
Proof.
  intros H. unfold Decode in H. cbn [Decode_fuel] in H. unfold run_Decode in H.
  destruct (Decode_body _ _) as [g' d' | | |] eqn:E; try discriminate.
  injection H as -> _.
  unfold Decode_body in E. bind_inv E as h d1 Hh.
  apply Decode_header_full in Hh.
  destruct Hh as (t' & f' & r' & Ei & _ & _ & _ & Hi & _).
  injection Ei as <- <- <-. rewrite <- Hi.
  unfold Decode_switch in E.
  destruct (gtype h =? POINT); [bind_inv E as p d2 Hp; inv_ret E; exact I |].
  destruct (gtype h =? LINESTRING); [bind_inv E as p d2 Hp; inv_ret E; exact I |].
  destruct (gtype h =? POLYGON); [bind_inv E as p d2 Hp; inv_ret E; exact I |].
  destruct (gtype h =? MULTIPOINT).
  { bind_inv E as p d2 Hp. inv_ret E.
    apply (multi_shape (fun n => members_loop decodePoint n [])
                       (mkMultiPoint (Some h))) in Hp.
    - destruct Hp as (ids & xs & -> & Hm). exact Hm.
    - intros n x x' xs Hx. apply members_loop_length in Hx. exact Hx. }
  destruct (gtype h =? MULTILINESTRING).
  { bind_inv E as p d2 Hp. inv_ret E.
    apply (multi_shape (fun n => members_loop decodeLineString n [])
                       (mkMultiLineString (Some h))) in Hp.
    - destruct Hp as (ids & xs & -> & Hm). exact Hm.
    - intros n x x' xs Hx. apply members_loop_length in Hx. exact Hx. }
  destruct (gtype h =? MULTIPOLYGON).
  { bind_inv E as p d2 Hp. inv_ret E.
    apply (multi_shape (fun n => members_loop decodePolygon n [])
                       (mkMultiPolygon (Some h))) in Hp.
    - destruct Hp as (ids & xs & -> & Hm). exact Hm.
    - intros n x x' xs Hx. apply members_loop_length in Hx. exact Hx. }
  destruct (gtype h =? GEOMETRYCOLLECTION); [| inv_ret E; exact I].
  apply (multi_shape (fun n => decodeCollection_loop _ n [])
                     (GGeometryCollection (Some h))) in E.
  - destruct E as (ids & xs & -> & Hm). exact Hm.
  - intros n x x' xs Hx. apply decodeCollection_loop_length in Hx. exact Hx.
Qed.

Lemma Decode_ids_witness :
  ids_match (Z.land (uint8 (byte_of 7)) idlist =? idlist) [0; 1]
            (List.length [mkPoint None [0%float; 1%float]; mkPoint None [2%float; 3%float]]).
Proof.
  apply (Decode_ids (byte_of 4) (byte_of 7) (bytes [11; 0; 4; 2; 4; 2; 0; 2; 0; 2; 4; 4]) []
           (GMultiPoint
              (mkMultiPoint (Some (mkHdr MULTIPOINT XY
                                         (Some [0%float; 1%float; 2%float; 3%float])))
                            [0; 1]
                            [mkPoint None [0%float; 1%float];
                             mkPoint None [2%float; 3%float]]))).
  vm_compute. reflexivity.
Defined.

(** ** The number of ordinates *)

Lemma framed_Err {A : Type} (m : M A) (d d' : decoder) (e : error) :
  framed m -> m d = Err e d' -> same_context d d'.
Proof. intros Hm H. specialize (Hm d). rewrite H in Hm. apply Hm. Qed.

Lemma decodePoint_dims (h : option Hdr) (d d' : decoder) (p : Point) :
  decodePoint h d = Ok p d' -> List.length (Coord p) = d_ndims d.
Proof.
  unfold decodePoint. intros H. bind_inv H as cb d1 Hc. destruct cb as [coords bb].
  apply readCoords_bbox in Hc. destruct Hc as (_ & Hall & _).
  destruct coords as [| c tl]; [discriminate |].
  inversion Hall; subst. destruct h; inv_ret H; assumption.
Qed.

Lemma decodeLineString_dims (h : option Hdr) (d d' : decoder) (l : LineString) :
  decodeLineString h d = Ok l d' -> coords_have (d_ndims d) (Coords l).
Proof.
  unfold decodeLineString. intros H. bind_inv H as n d1 Hn.
  bind_inv H as cb d2 Hc. destruct cb as [coords bb].
  apply framed_Ok in Hn; [| apply framed_readVarInt64]. apply same_context_ndims in Hn.
  apply readCoords_bbox in Hc. destruct Hc as (_ & Hall & _). rewrite Hn in Hall.
  destruct h; inv_ret H; exact Hall.
Qed.

Lemma decodePolygon_loop_dims (n : nat) :
  forall (rings rings' : list LinearRing) (d d' : decoder),
    decodePolygon_loop n rings d = Ok rings' d' ->
    Forall (coords_have (d_ndims d)) rings ->
    Forall (coords_have (d_ndims d)) rings'.
Proof.
  induction n as [| n IH]; intros rings rings' d d' H Hr; cbn [decodePolygon_loop] in H.
  - inv_ret H. exact Hr.
  - bind_inv H as sz d1 Hs.
    apply framed_Ok in Hs; [| apply framed_readVarInt64]. apply same_context_ndims in Hs.
    destruct (readCoords (int64 sz) d1) as [[coords bb] d2 | e d2 | |] eqn:E;
      try discriminate.
    + pose proof (framed_Ok _ _ _ _ (framed_readCoords _) E) as Hc.
      apply same_context_ndims in Hc.
      apply readCoords_bbox in E. destruct E as (_ & Hall & _).
      apply IH in H; [rewrite Hc, Hs in H; exact H |].
      rewrite Hc, Hs. apply Forall_app. split; [exact Hr |].
      constructor; [| constructor]. rewrite <- Hs. exact Hall.
    + pose proof (framed_Err _ _ _ _ (framed_readCoords _) E) as Hc.
      apply same_context_ndims in Hc.
      apply IH in H; [rewrite Hc, Hs in H; exact H |].
      rewrite Hc, Hs. apply Forall_app. split; [exact Hr |].
      constructor; [constructor | constructor].
Qed.

Lemma decodePolygon_dims (h : option Hdr) (d d' : decoder) (p : Polygon) :
  decodePolygon h d = Ok p d' -> Forall (coords_have (d_ndims d)) (Rings p).
Proof.
  unfold decodePolygon. intros H. bind_inv H as n d1 Hn.
  apply framed_Ok in Hn; [| apply framed_readVarInt64]. apply same_context_ndims in Hn.
  apply make_len_Ok in H. destruct H as [_ H].
  bind_inv H as rings d2 Hr. inv_ret H. cbn [Rings].
  apply decodePolygon_loop_dims in Hr; [| constructor]. rewrite Hn in Hr. exact Hr.
Qed.

(** The members of a multi-geometry keep a property the body decoder
    gives them under an invariant of the decoder. *)
Lemma members_loop_inv {A : Type} (body : option Hdr -> M A) (P : A -> Prop)
      (inv : decoder -> Prop) :
  (forall (d d' : decoder) (p : A), body None d = Ok p d' -> inv d -> P p /\ inv d') ->
  forall (n : nat) (acc ps : list A) (d d' : decoder),
    members_loop body n acc d = Ok ps d' -> inv d -> Forall P acc -> Forall P ps.
Proof.
  intros Hb. induction n as [| n IH]; intros acc ps d d' H Hi Hacc;
    cbn [members_loop] in H.
  - inv_ret H. exact Hacc.
  - bind_inv H as p d1 Hp. destruct (Hb _ _ _ Hp Hi) as [HP Hi1].
    apply IH in H; [exact H | exact Hi1 |].
    apply Forall_app. split; [exact Hacc | constructor; [exact HP | constructor]].
Qed.

Lemma multi_members_dims {A : Type} (body : option Hdr -> M A) (P : nat -> A -> Prop)
      (d0 d' : decoder) (n : nat) (ps : list A) :
  (forall h : option Hdr, framed (body h)) ->
  (forall (d x : decoder) (p : A), body None d = Ok p x -> P (d_ndims d) p) ->
  members_loop body n [] d0 = Ok ps d' ->
  Forall (P (d_ndims d0)) ps.
Proof.
  intros Hf Hb H.
  apply (members_loop_inv body (P (d_ndims d0)) (fun x => d_ndims x = d_ndims d0)) in H;
    [exact H | | reflexivity | constructor].
  intros d x p Hp Hi. split.
  - rewrite <- Hi. eapply Hb. eassumption.
  - apply framed_Ok in Hp; [| apply Hf]. apply same_context_ndims in Hp. congruence.
Qed.

Lemma dims_ok_all (gs : list Geometry) :
  (fix all (l : list Geometry) : Prop :=
     match l with
     | [] => True
     | x :: tl => dims_ok x /\ all tl
     end) gs <-> Forall dims_ok gs.
Proof.
  induction gs as [| g tl IH]; [split; auto |].
  split.
  - intros [Hg Ht]. constructor; [exact Hg | apply IH; exact Ht].
  - intros H. inversion H; subst. split; [assumption | apply IH; assumption].
Qed.

Lemma decodeCollection_loop_Forall (dec : list byte -> outcome (list byte) Geometry)
      (P : Geometry -> Prop) :
  (forall (rd rest : list byte) (g : Geometry), dec rd = Ok g rest -> P g) ->
  forall (n : nat) (acc gs : list Geometry) (d d' : decoder),
    decodeCollection_loop dec n acc d = Ok gs d' -> Forall P acc -> Forall P gs.
Proof.
  intros Hdec. induction n as [| n IH]; intros acc gs d d' H Hacc;
    cbn [decodeCollection_loop] in H.
  - inv_ret H. exact Hacc.
  - destruct (dec (d_r d)) as [g rest | e rest | |] eqn:E; try discriminate.
    apply IH in H; [exact H |].
    apply Forall_app. split; [exact Hacc |].
    constructor; [| constructor]. eapply Hdec. eassumption.
Qed.

Lemma Decode_switch_dims (dec : list byte -> outcome (list byte) Geometry)
      (h : Hdr) (d d' : decoder) (g : Geometry) :
  (forall (rd rest : list byte) (g : Geometry), dec rd = Ok g rest -> dims_ok g) ->
  d_ndims d = ndims_of (dim h) ->
  Decode_switch dec h d = Ok g d' -> dims_ok g.
Proof.
  intros Hdec Hn H. unfold Decode_switch in H.
  destruct (gtype h =? POINT).
  { bind_inv H as p d1 Hp. inv_ret H. cbn [dims_ok].
    pose proof (decodePoint_header _ _ _ _ Hp) as Hk.
    apply decodePoint_dims in Hp.
    destruct (Point_Hdr p) as [h' |]; cbn [keeps_header] in Hk; [| contradiction].
    exists h'. split; [reflexivity |]. destruct Hk as [_ ->]. congruence. }
  destruct (gtype h =? LINESTRING).
  { bind_inv H as p d1 Hp. inv_ret H. cbn [dims_ok].
    pose proof (decodeLineString_header _ _ _ _ Hp) as Hk.
    apply decodeLineString_dims in Hp.
    destruct (LineString_Hdr p) as [h' |]; cbn [keeps_header] in Hk; [| contradiction].
    exists h'. split; [reflexivity |]. destruct Hk as [_ ->]. rewrite <- Hn. exact Hp. }
  destruct (gtype h =? POLYGON).
  { bind_inv H as p d1 Hp. inv_ret H. cbn [dims_ok].
    pose proof (decodePolygon_header _ _ _ _ Hp) as Hk.
    apply decodePolygon_dims in Hp.
    exists h. split; [exact Hk |]. rewrite <- Hn. exact Hp. }
  destruct (gtype h =? MULTIPOINT).
  { bind_inv H as p d1 Hp. inv_ret H. cbn [dims_ok]. unfold decodeMultiPoint in Hp.
    bind_inv Hp as m d2 Hm. apply make_len_Ok in Hp. destruct Hp as [_ Hp].
    bind_inv Hp as ps d3 Hps. inv_ret Hp. cbn [MultiPoint_Hdr Points].
    exists h. split; [reflexivity |].
    apply framed_Ok in Hm; [| apply framed_readMHdr]. apply same_context_ndims in Hm.
    rewrite <- Hn, <- Hm.
    eapply (multi_members_dims decodePoint (fun n p => List.length (Coord p) = n));
      [apply framed_decodePoint | | exact Hps].
    intros x x' q Hq. eapply decodePoint_dims. eassumption. }
  destruct (gtype h =? MULTILINESTRING).
  { bind_inv H as p d1 Hp. inv_ret H. cbn [dims_ok]. unfold decodeMultiLineString in Hp.
    bind_inv Hp as m d2 Hm. apply make_len_Ok in Hp. destruct Hp as [_ Hp].
    bind_inv Hp as ps d3 Hps. inv_ret Hp. cbn [MultiLineString_Hdr LineStrings].
    exists h. split; [reflexivity |].
    apply framed_Ok in Hm; [| apply framed_readMHdr]. apply same_context_ndims in Hm.
    rewrite <- Hn, <- Hm.
    eapply (multi_members_dims decodeLineString (fun n l => coords_have n (Coords l)));
      [apply framed_decodeLineString | | exact Hps].
    intros x x' q Hq. eapply decodeLineString_dims. eassumption. }
  destruct (gtype h =? MULTIPOLYGON).
  { bind_inv H as p d1 Hp. inv_ret H. cbn [dims_ok]. unfold decodeMultiPolygon in Hp.
    bind_inv Hp as m d2 Hm. apply make_len_Ok in Hp. destruct Hp as [_ Hp].
    bind_inv Hp as ps d3 Hps. inv_ret Hp. cbn [MultiPolygon_Hdr Polygons].
    exists h. split; [reflexivity |].
    apply framed_Ok in Hm; [| apply framed_readMHdr]. apply same_context_ndims in Hm.
    rewrite <- Hn, <- Hm.
    eapply (multi_members_dims decodePolygon
              (fun n q => Forall (coords_have n) (Rings q)));
      [apply framed_decodePolygon | | exact Hps].
    intros x x' q Hq. eapply decodePolygon_dims. eassumption. }
  destruct (gtype h =? GEOMETRYCOLLECTION); [| inv_ret H; exact I].
  unfold decodeCollection in H.
  bind_inv H as m d2 Hm. apply make_len_Ok in H. destruct H as [_ H].
  bind_inv H as gs d3 Hgs. inv_ret H. cbn [dims_ok].
  apply dims_ok_all.
  eapply decodeCollection_loop_Forall; [exact Hdec | eassumption | constructor].
Qed.

Lemma Decode_fuel_dims (fuel : nat) :
  forall (rd rest : list byte) (g : Geometry), Decode_fuel fuel rd = Ok g rest -> dims_ok g.
Proof.
  induction fuel as [| fuel IH]; intros rd rest g H; [discriminate |].
  cbn [Decode_fuel] in H. unfold run_Decode in H.
  destruct (Decode_body (Decode_fuel fuel) (new_decoder rd)) as [g' d' | | |] eqn:E;
    try discriminate.
  injection H as -> _.
  unfold Decode_body in E. bind_inv E as h d1 Hh.
  apply Decode_header_full in Hh.
  destruct Hh as (t & f & r & _ & _ & _ & _ & _ & Hn & _).
  eapply Decode_switch_dims; eauto.
Qed.

(** X9: every coordinate of a decoded geometry has as many ordinates
    as the dimension code of its header says (2 for XY, 3 for XYZ and
    XYM, 4 for XYZM): the coordinate of a Point, the coordinates of a
    LineString and of every ring of a Polygon, those of every member of
    a multi-geometry under the parent's header, and those of the
    members of a collection each under its own. *)
Theorem Decode_dims_ok (rd rest : list byte) (g : Geometry) :
  Decode rd = Ok g rest -> dims_ok g.
Proof. unfold Decode. apply Decode_fuel_dims. Qed.

Lemma Decode_dims_ok_witness :
  dims_ok (GGeometryCollection
             (Some (mkHdr GEOMETRYCOLLECTION XY None)) [0; 1]
             [GPoint (mkPoint (Some (mkHdr POINT XY
                                           (Some [0%float; 1%float; 0%float; 1%float])))
                              [0%float; 1%float]);
              GLineString
                (mkLineString (Some (mkHdr LINESTRING XY
                                           (Some [4%float; 5%float; 6%float; 7%float])))
                              [[4%float; 5%float]; [6%float; 7%float]])]).
Proof.
  apply (Decode_dims_ok (bytes [7; 4; 2; 0; 2; 1; 0; 0; 2; 2; 0; 2; 8; 10; 4; 4]) []).
  vm_compute. reflexivity.
Defined.

(** ** Delta decoding *)

Lemma length_add_deltas (vs : list Z) :
  forall (rp : list Z) (j : nat), List.length (add_deltas rp j vs) = List.length rp.
Proof.
  induction vs as [| v tl IH]; intros rp j; cbn [add_deltas]; [reflexivity |].
  rewrite IH. apply length_upd.
Qed.

(** One coordinate read from the varints of its deltas: the decoder
    it leaves. *)
Lemma readCoord_loop_state (vs : list Z) :
  forall (j : nat) (coord : Coordinate) (bb : option BBox) (d : decoder) (rest : list byte),
    Forall is_int64 vs ->
    d_r d = encode_svarints vs ++ rest ->
    exists (coord' : Coordinate) (bb' : option BBox),
      readCoord_loop (List.length vs) j coord bb d
      = Ok (coord', bb')
           (set_refpoint (set_r d rest) (add_deltas (d_refpoint d) j vs)).
Proof.
  induction vs as [| v tl IH]; intros j coord bb d rest Hvs Hr;
    cbn [List.length readCoord_loop add_deltas].
  - exists coord, bb. unfold ret. unfold encode_svarints in Hr. cbn [map concat app] in Hr.
    rewrite <- Hr. destruct d; reflexivity.
  - inversion Hvs as [| ? ? Hv Htl]; subst.
    unfold encode_svarints in Hr. cbn [map concat] in Hr. rewrite <- app_assoc in Hr.
    unfold bind at 1. rewrite (readVarSInt64_encode d v _ Hv Hr).
    unfold bind at 1, accumulate at 1. rewrite bind_get.
    cbn [d_refpoint d_factors d_ndims set_r set_refpoint].
    match goal with
    | |- context [readCoord_loop _ _ ?c ?b ?x] =>
        destruct (IH (S j) c b x rest Htl eq_refl) as (c' & b' & E)
    end.
    exists c', b'. rewrite E. reflexivity.
Qed.

(** The coordinates read from rows of deltas. *)
Lemma readCoords_loop_deltas (rows : list (list Z)) :
  forall (coords : list Coordinate) (bb : option BBox) (d : decoder) (rest : list byte),
    Forall (is_row (d_ndims d)) rows ->
    (d_ndims d <= List.length (d_refpoint d))%nat ->
    d_r d = encode_rows rows ++ rest ->
    exists bb' : option BBox,
      readCoords_loop (List.length rows) coords bb d
      = Ok (coords ++ delta_coords (d_ndims d) (d_factors d) (d_refpoint d) rows, bb')
           (set_refpoint (set_r d rest) (final_refpoint (d_refpoint d) rows)).
Proof.
  induction rows as [| row tl IH]; intros coords bb d rest Hrows Hn Hr;
    cbn [List.length readCoords_loop delta_coords].
  - exists bb. unfold ret, final_refpoint. cbn [fold_left].
    unfold encode_rows in Hr. cbn [map concat app] in Hr.
    rewrite app_nil_r, <- Hr. destruct d; reflexivity.
  - inversion Hrows as [| ? ? [Hlen Hrow] Htl]; subst.
    unfold encode_rows in Hr. cbn [map concat] in Hr. rewrite <- app_assoc in Hr.
    rewrite bind_get.
    destruct (readCoord_loop_state row 0 [] bb d _ Hrow Hr) as (c & bb1 & E).
    rewrite Hlen in E.
    pose proof (readCoord_loop_at_refpoint _ _ _ _ _ _ _ _ E ltac:(lia)) as (Hc & _ & _).
    cbn [app d_refpoint d_factors set_r set_refpoint] in Hc.
    unfold bind at 1. rewrite E.
    match goal with
    | |- context [readCoords_loop _ ?cs ?b ?x] =>
        destruct (IH cs b x rest) as [bb' E2]
    end.
    + exact Htl.
    + cbn [d_ndims d_refpoint set_r set_refpoint]. rewrite length_add_deltas. exact Hn.
    + reflexivity.
    + exists bb'. rewrite E2.
      cbn [d_ndims d_refpoint d_factors set_r set_refpoint].
      rewrite <- app_assoc. cbn [app]. rewrite Hc. reflexivity.
Qed.

(** [readCoords] on the signed varints of rows of deltas. *)
Lemma readCoords_rows (d : decoder) (rows : list (list Z)) (rest : list byte) :
  Forall (is_row (d_ndims d)) rows ->
  (d_ndims d <= List.length (d_refpoint d))%nat ->
  d_r d = encode_rows rows ++ rest ->
  readCoords (Z.of_nat (List.length rows)) d
  = Ok (delta_coords (d_ndims d) (d_factors d) (d_refpoint d) rows,
        if d_bbox d then None
        else Some (bbox_of (d_ndims d)
                           (delta_coords (d_ndims d) (d_factors d) (d_refpoint d) rows)))
       (set_refpoint (set_r d rest) (final_refpoint (d_refpoint d) rows)).
Proof.
  intros Hrows Hn Hr.
  destruct (readCoords_loop_deltas rows []
              (if d_bbox d then None else Some (bbox_init (d_ndims d))) d rest
              Hrows Hn Hr) as [bb E].
  cbn [app] in E.
  assert (Hrc : readCoords (Z.of_nat (List.length rows)) d
                = Ok (delta_coords (d_ndims d) (d_factors d) (d_refpoint d) rows, bb)
                     (set_refpoint (set_r d rest) (final_refpoint (d_refpoint d) rows))).
  { unfold readCoords, make_len.
    destruct (Z.ltb_spec (Z.of_nat (List.length rows)) 0) as [Hlt | _]; [lia |].
    rewrite Nat2Z.id, bind_get. exact E. }
  pose proof (readCoords_bbox _ _ _ _ _ Hrc) as (_ & _ & Hbb).
  rewrite Hrc, Hbb. reflexivity.
Qed.

(** ** The box of the coordinates

    The in-place updates of [readCoords] give, for every dimension,
    the running minimum and maximum of its column. *)

Lemma length_bbox_extend (n j : nat) (c : float) (bb : BBox) :
  List.length (bbox_extend n j c bb) = List.length bb.
Proof.
  unfold bbox_extend.
  destruct (PrimFloat.ltb c (nth j bb 0%float));
    match goal with
    | |- context [if ?b then _ else _] => destruct b
    end; rewrite ?length_upd; reflexivity.
Qed.

Lemma bbox_extend_other (n j : nat) (c : float) (bb : BBox) (i : nat) :
  i <> j -> i <> (j + n)%nat ->
  nth i (bbox_extend n j c bb) 0%float = nth i bb 0%float.
Proof.
  intros H1 H2. unfold bbox_extend.
  destruct (PrimFloat.ltb c (nth j bb 0%float));
    match goal with
    | |- context [if ?b then _ else _] => destruct b
    end; rewrite ?nth_upd_neq by assumption; reflexivity.
Qed.

Lemma bbox_extend_min (n j : nat) (c : float) (bb : BBox) :
  (j < n)%nat -> List.length bb = (2 * n)%nat ->
  nth j (bbox_extend n j c bb) 0%float = fmin (nth j bb 0%float) c.
Proof.
  intros Hj Hlen. unfold bbox_extend, fmin.
  destruct (PrimFloat.ltb c (nth j bb 0%float));
    match goal with
    | |- context [if ?b then _ else _] => destruct b
    end; rewrite ?(nth_upd_neq _ j (j + n)) by lia;
    rewrite ?nth_upd_eq by lia; reflexivity.
Qed.

Lemma bbox_extend_max (n j : nat) (c : float) (bb : BBox) :
  (j < n)%nat -> List.length bb = (2 * n)%nat ->
  nth (j + n) (bbox_extend n j c bb) 0%float = fmax (nth (j + n) bb 0%float) c.
Proof.
  intros Hj Hlen. unfold bbox_extend, fmax.
  destruct (PrimFloat.ltb c (nth j bb 0%float)).
  - rewrite (nth_upd_neq bb (j + n) j) by lia.
    destruct (PrimFloat.ltb (nth (j + n) bb 0%float) c).
    + apply nth_upd_eq. rewrite length_upd. lia.
    + apply nth_upd_neq. lia.
  - destruct (PrimFloat.ltb (nth (j + n) bb 0%float) c).
    + apply nth_upd_eq. lia.
    + reflexivity.
Qed.

(** One coordinate: the dimensions below [j] are left alone, those
    from [j] on take the ordinate in. *)
Lemma coord_extend_columns (n : nat) (c : Coordinate) :
  forall (j : nat) (bb : BBox),
    (j + List.length c <= n)%nat -> List.length bb = (2 * n)%nat ->
    List.length (coord_extend n j c bb) = (2 * n)%nat
    /\ (forall i : nat, (i < j)%nat ->
          nth i (coord_extend n j c bb) 0%float = nth i bb 0%float
          /\ nth (i + n) (coord_extend n j c bb) 0%float = nth (i + n) bb 0%float)
    /\ (forall i : nat, (i < List.length c)%nat ->
          nth (j + i) (coord_extend n j c bb) 0%float
          = fmin (nth (j + i) bb 0%float) (nth i c 0%float)
          /\ nth (j + i + n) (coord_extend n j c bb) 0%float
             = fmax (nth (j + i + n) bb 0%float) (nth i c 0%float)).
Proof.
  induction c as [| x tl IH]; intros j bb Hj Hlen; cbn [coord_extend List.length] in *.
  - split; [exact Hlen |]. split; [intros i Hi; split; reflexivity | intros i Hi; lia].
  - destruct (IH (S j) (bbox_extend n j x bb)) as (Hl & Hbelow & Hfrom);
      [lia | rewrite length_bbox_extend; exact Hlen |].
    split; [exact Hl |]. split.
    + intros i Hi. destruct (Hbelow i) as [H1 H2]; [lia |].
      rewrite H1, H2. split; apply bbox_extend_other; lia.
    + intros [| i] Hi.
      * rewrite !Nat.add_0_r. destruct (Hbelow j) as [H1 H2]; [lia |].
        rewrite H1, H2. cbn [nth].
        split; [apply bbox_extend_min | apply bbox_extend_max]; try assumption; lia.
      * destruct (Hfrom i) as [H1 H2]; [lia |].
        replace (j + S i)%nat with (S j + i)%nat by lia.
        rewrite H1, H2. cbn [nth].
        rewrite !bbox_extend_other by lia. split; reflexivity.
Qed.

Lemma bbox_from_columns (n : nat) (coords : list Coordinate) :
  forall init : BBox,
    Forall (fun c => List.length c = n) coords -> List.length init = (2 * n)%nat ->
    List.length (bbox_from init n coords) = (2 * n)%nat
    /\ forall i : nat, (i < n)%nat ->
         nth i (bbox_from init n coords) 0%float
         = fold_left fmin (column i coords) (nth i init 0%float)
         /\ nth (i + n) (bbox_from init n coords) 0%float
            = fold_left fmax (column i coords) (nth (i + n) init 0%float).
Proof.
  unfold bbox_from.
  induction coords as [| c tl IH]; intros init Hall Hlen; cbn [fold_left column map].
  - split; [exact Hlen | intros i Hi; split; reflexivity].
  - inversion Hall as [| ? ? Hc Htl]; subst.
    destruct (coord_extend_columns (List.length c) c 0 init) as (Hl & _ & Hfrom);
      [lia | exact Hlen |].
    destruct (IH (coord_extend (List.length c) 0 c init) Htl Hl) as [Hl' Hcols].
    split; [exact Hl' |]. intros i Hi.
    destruct (Hcols i Hi) as [H1 H2]. destruct (Hfrom i Hi) as [H3 H4].
    cbn [Nat.add] in H3, H4. fold (column i tl). rewrite H1, H2, H3, H4.
    split; reflexivity.
Qed.

Lemma nth_repeat_lt {A : Type} (a dflt : A) (n i : nat) :
  (i < n)%nat -> nth i (repeat a n) dflt = a.
Proof.
  revert i. induction n as [| n IH]; intros [| i] H; cbn [repeat nth]; try lia;
    [reflexivity | apply IH; lia].
Qed.

Lemma nth_map_seq {A : Type} (f : nat -> A) (dflt : A) (n i : nat) :
  (i < n)%nat -> nth i (map f (seq 0 n)) dflt = f i.
Proof.
  intros H. rewrite (nth_indep _ dflt (f 0%nat)) by (rewrite length_map, length_seq; exact H).
  rewrite map_nth, seq_nth by exact H. reflexivity.
Qed.

(** The box [readCoords] builds is the box of the columns. *)
Lemma bbox_of_minmax (n : nat) (coords : list Coordinate) :
  Forall (fun c => List.length c = n) coords -> bbox_of n coords = minmax_box n coords.
Proof.
  intros Hall. unfold bbox_of.
  assert (Hinit : List.length (bbox_init n) = (2 * n)%nat)
    by (unfold bbox_init; rewrite length_app, !repeat_length; lia).
  destruct (bbox_from_columns n coords (bbox_init n) Hall Hinit) as [Hlen Hcols].
  apply (nth_ext _ _ 0%float 0%float).
  - rewrite Hlen. unfold minmax_box. rewrite length_app, !length_map, !length_seq. lia.
  - rewrite Hlen. intros i Hi. unfold minmax_box.
    destruct (Nat.lt_ge_cases i n) as [Hlt | Hge].
    + rewrite app_nth1 by (rewrite length_map, length_seq; exact Hlt).
      rewrite nth_map_seq by exact Hlt.
      destruct (Hcols i Hlt) as [-> _]. f_equal.
      unfold bbox_init. rewrite app_nth1 by (rewrite repeat_length; exact Hlt).
      apply nth_repeat_lt. exact Hlt.
    + rewrite app_nth2 by (rewrite length_map, length_seq; exact Hge).
      rewrite length_map, length_seq.
      rewrite nth_map_seq by lia.
      destruct (Hcols (i - n)%nat) as [_ H2]; [lia |].
      replace (i - n + n)%nat with i in H2 by lia. rewrite H2. f_equal.
      unfold bbox_init. rewrite app_nth2 by (rewrite repeat_length; exact Hge).
      rewrite repeat_length. apply nth_repeat_lt. lia.
Qed.

Lemma delta_coords_lengths (n : nat) (fs : list Z) (rows : list (list Z)) :
  forall rp : list Z, Forall (fun c => List.length c = n) (delta_coords n fs rp rows).
Proof.
  induction rows as [| row tl IH]; intros rp; cbn [delta_coords]; constructor.
  - unfold coord_at. rewrite length_map, length_seq. reflexivity.
  - apply IH.
Qed.

(** X10: delta decoding.  On the signed varints of [n] rows of deltas,
    one row per coordinate and one delta per dimension, [readCoords]
    returns the running sums: each coordinate is the reference point
    after its row was added ([int64] additions), every ordinate divided
    by the factor of its dimension.  It leaves the bytes after the last
    row and the reference point after the last row.  Unless the header
    gave a box, it returns the box of those coordinates: for every
    dimension the running minimum of the column from [MaxInt64] and the
    running maximum from [MinInt64]. *)
Theorem readCoords_deltas (d : decoder) (rows : list (list Z)) (rest : list byte) :
  Forall (is_row (d_ndims d)) rows ->
  (d_ndims d <= List.length (d_refpoint d))%nat ->
  d_r d = encode_rows rows ++ rest ->
  readCoords (Z.of_nat (List.length rows)) d
  = Ok (delta_coords (d_ndims d) (d_factors d) (d_refpoint d) rows,
        if d_bbox d then None
        else Some (minmax_box (d_ndims d)
                              (delta_coords (d_ndims d) (d_factors d) (d_refpoint d) rows)))
       (set_refpoint (set_r d rest) (final_refpoint (d_refpoint d) rows)).
Proof.
  intros Hrows Hn Hr. rewrite (readCoords_rows d rows rest Hrows Hn Hr).
  rewrite bbox_of_minmax by apply delta_coords_lengths. reflexivity.
Qed.

Lemma readCoords_deltas_witness :
  readCoords (Z.of_nat (List.length [[1; 1]; [4; 4]; [-2; 3]]))
             (mkDecoder (encode_rows [[1; 1]; [4; 4]; [-2; 3]] ++ bytes [9])
                        [0; 0; 0; 0] [1; 1; 0; 0] 2 false false false false 0)
  = Ok ([[1%float; 1%float]; [5%float; 5%float]; [3%float; 8%float]],
        Some [1%float; 1%float; 5%float; 8%float])
       (mkDecoder (bytes [9]) [3; 8; 0; 0] [1; 1; 0; 0] 2 false false false false 0).
Proof.
  apply (readCoords_deltas
           (mkDecoder (encode_rows [[1; 1]; [4; 4]; [-2; 3]] ++ bytes [9])
                      [0; 0; 0; 0] [1; 1; 0; 0] 2 false false false false 0)
           [[1; 1]; [4; 4]; [-2; 3]] (bytes [9])).
  - repeat constructor; unfold MinInt64, MaxInt64; lia.
  - cbn [d_ndims d_refpoint List.length]. lia.
  - reflexivity.
Defined.

(** ** Whole geometries, written and read *)

(** The header of an XY geometry of type [gt] and precision [p], no
    flag set: two bytes. *)
Lemma Decode_header_plain (gt p : Z) (r : list byte) :
  POINT <= gt <= GEOMETRYCOLLECTION -> 0 <= p <= 7 ->
  Decode_header (new_decoder (byte_of (32 * p + gt) :: byte_of 0 :: r))
  = Ok (mkHdr gt XY None)
       (mkDecoder r [0; 0; 0; 0] [10 ^ p; 10 ^ p; 0; 0] 2 false false false false 0).
Proof.
  unfold POINT, GEOMETRYCOLLECTION. intros Hg Hp.
  assert (Hgc : gt = 1 \/ gt = 2 \/ gt = 3 \/ gt = 4 \/ gt = 5 \/ gt = 6 \/ gt = 7) by lia.
  assert (Hpc : p = 0 \/ p = 1 \/ p = 2 \/ p = 3 \/ p = 4 \/ p = 5 \/ p = 6 \/ p = 7) by lia.
  destruct Hgc as [-> | [-> | [-> | [-> | [-> | [-> | ->]]]]]];
    destruct Hpc as [-> | [-> | [-> | [-> | [-> | [-> | [-> | ->]]]]]]];
    vm_compute; reflexivity.
Qed.

(** X11: a Point written the way the format says is read back.  For
    a precision [p] from 0 to 7 (high nibble [2 * p], the zigzag code of
    [p]), no metadata flag, and two [int64] ordinates written as signed
    varints, [Decode] returns the XY point [(x / 10^p, y / 10^p)] and
    leaves the bytes that follow untouched.  The box in its header is,
    for each ordinate, the smaller of [MaxInt64] and the ordinate, then
    the larger of [MinInt64] and the ordinate, under Go's [<]. *)
Theorem Decode_Point_roundtrip (p x y : Z) (rest : list byte) :
  0 <= p <= 7 -> is_int64 x -> is_int64 y ->
  Decode (byte_of (32 * p + POINT) :: byte_of 0 :: encode_rows [[x; y]] ++ rest)
  = Ok (GPoint
          (mkPoint
             (Some (mkHdr POINT XY
                      (Some [fmin (float64 MaxInt64)
                                  (PrimFloat.div (float64 x) (float64 (10 ^ p)));
                             fmin (float64 MaxInt64)
                                  (PrimFloat.div (float64 y) (float64 (10 ^ p)));
                             fmax (float64 MinInt64)
                                  (PrimFloat.div (float64 x) (float64 (10 ^ p)));
                             fmax (float64 MinInt64)
                                  (PrimFloat.div (float64 y) (float64 (10 ^ p)))])))
             [PrimFloat.div (float64 x) (float64 (10 ^ p));
              PrimFloat.div (float64 y) (float64 (10 ^ p))]))
       rest.
Proof.
  intros Hp Hx Hy. unfold Decode. cbn [Decode_fuel]. unfold run_Decode, Decode_body.
  unfold bind at 1.
  rewrite Decode_header_plain by (try exact Hp; unfold POINT, GEOMETRYCOLLECTION; lia).
  unfold Decode_switch. cbn [gtype]. change (POINT =? POINT) with true. cbv iota.
  unfold bind at 1, decodePoint, bind at 1.
  change 1 with (Z.of_nat (List.length [[x; y]])).
  rewrite (readCoords_rows _ [[x; y]] rest).
  - rewrite bbox_of_minmax by apply delta_coords_lengths.
    cbn [d_ndims d_factors d_refpoint d_bbox d_r set_r set_refpoint delta_coords coord_at
         add_deltas seq map nth upd set_bbox ret minmax_box column fold_left app].
    rewrite !Z.add_0_l, !int64_small by assumption. reflexivity.
  - repeat first [assumption | constructor].
  - cbn [d_ndims d_refpoint List.length]. lia.
  - reflexivity.
Qed.

Lemma Decode_Point_roundtrip_witness :
  Decode (byte_of (32 * 1 + POINT) :: byte_of 0 :: encode_rows [[15; -20]] ++ bytes [7])
  = Ok (GPoint
          (mkPoint
             (Some (mkHdr POINT XY (Some [1.5%float; (-2)%float; 1.5%float; (-2)%float])))
             [1.5%float; (-2)%float]))
       (bytes [7]).
Proof.
  apply (Decode_Point_roundtrip 1 15 (-20) (bytes [7]));
    unfold is_int64, MinInt64, MaxInt64; lia.
Defined.

(** X12: a LineString written the way the format says is read back.
    For a precision [p] from 0 to 7, no metadata flag, the count as an
    unsigned varint and then one row of two signed deltas per point,
    [Decode] returns exactly as many points as rows, each the running
    sum of the deltas so far divided by [10^p], and leaves the bytes
    that follow untouched.  The box in its header is the box of those
    points: for each of the two dimensions the running minimum of the
    column from [MaxInt64], then the running maximum from [MinInt64]. *)
Theorem Decode_LineString_roundtrip (p : Z) (rows : list (list Z)) (rest : list byte) :
  0 <= p <= 7 ->
  Forall (is_row 2) rows ->
  Z.of_nat (List.length rows) < 2 ^ 63 ->
  Decode (byte_of (32 * p + LINESTRING) :: byte_of 0
          :: encode_varint (Z.of_nat (List.length rows)) ++ encode_rows rows ++ rest)
  = Ok (GLineString
          (mkLineString
             (Some (mkHdr LINESTRING XY
                      (Some (minmax_box 2 (delta_coords 2 [10 ^ p; 10 ^ p; 0; 0]
                                                        [0; 0; 0; 0] rows)))))
             (delta_coords 2 [10 ^ p; 10 ^ p; 0; 0] [0; 0; 0; 0] rows)))
       rest
  /\ List.length (delta_coords 2 [10 ^ p; 10 ^ p; 0; 0] [0; 0; 0; 0] rows)
     = List.length rows.
Proof.
  intros Hp Hrows Hn. split.
  - unfold Decode. cbn [Decode_fuel]. unfold run_Decode, Decode_body.
    unfold bind at 1.
    rewrite Decode_header_plain by (try exact Hp; unfold LINESTRING, POINT,
                                     GEOMETRYCOLLECTION; lia).
    unfold Decode_switch. cbn [gtype].
    change (LINESTRING =? POINT) with false.
    change (LINESTRING =? LINESTRING) with true. cbv iota.
    unfold bind at 1, decodeLineString, bind at 1.
    rewrite (readVarInt64_encode _ (Z.of_nat (List.length rows))
               (encode_rows rows ++ rest)) by (try reflexivity; lia).
    unfold bind at 1.
    rewrite int64_small by (unfold MinInt64, MaxInt64; lia).
    rewrite (readCoords_rows _ rows rest).
    + rewrite bbox_of_minmax by apply delta_coords_lengths. reflexivity.
    + exact Hrows.
    + cbn [d_ndims d_refpoint set_r List.length]. lia.
    + reflexivity.
  - generalize [0; 0; 0; 0]. induction rows as [| row tl IH]; intros rp;
      cbn [delta_coords List.length]; [reflexivity |].
    inversion Hrows; subst. rewrite IH; [reflexivity | assumption |].
    cbn [List.length] in Hn. lia.
Qed.

Lemma Decode_LineString_roundtrip_witness :
  Decode (byte_of (32 * 0 + LINESTRING) :: byte_of 0
          :: encode_varint (Z.of_nat (List.length [[1; 1]; [4; 4]; [-2; 3]]))
             ++ encode_rows [[1; 1]; [4; 4]; [-2; 3]] ++ [])
  = Ok (GLineString
          (mkLineString
             (Some (mkHdr LINESTRING XY (Some [1%float; 1%float; 5%float; 8%float])))
             [[1%float; 1%float]; [5%float; 5%float]; [3%float; 8%float]]))
       []
  /\ List.length [[1%float; 1%float]; [5%float; 5%float]; [3%float; 8%float]]
     = List.length [[1; 1]; [4; 4]; [-2; 3]].
Proof.
  apply (Decode_LineString_roundtrip 0 [[1; 1]; [4; 4]; [-2; 3]] []).
  - lia.
  - repeat first [constructor; [reflexivity |] | constructor
                  | unfold is_int64, MinInt64, MaxInt64; lia].
  - cbn [List.length]. lia.
Defined.

(** ** What is read and what is left *)

Lemma took_refl (d : decoder) : took d d.
Proof. exists []. reflexivity. Qed.

Lemma took_trans (d1 d2 d3 : decoder) : took d1 d2 -> took d2 d3 -> took d1 d3.
Proof.
  intros [c1 H1] [c2 H2]. exists (c1 ++ c2). rewrite H1, H2. apply app_assoc.
Qed.

Lemma took_all (d d' : decoder) : d_r d' = [] -> took d d'.
Proof. intros H. exists (d_r d). rewrite H, app_nil_r. reflexivity. Qed.

Lemma settles_ret {A : Type} (a : A) : settles (ret a).
Proof. intros d. apply took_refl. Qed.

Lemma settles_panic {A : Type} : settles (@panic A).
Proof. intros d. exact I. Qed.

Lemma settles_get : settles get.
Proof. intros d. apply took_refl. Qed.

Lemma settles_modify (f : decoder -> decoder) :
  (forall d : decoder, d_r (f d) = d_r d) -> settles (modify f).
Proof. intros Hf d. exists []. cbn [app]. rewrite Hf. reflexivity. Qed.

Lemma settles_bind {A B : Type} (m : M A) (k : A -> M B) :
  settles m -> (forall a : A, settles (k a)) -> settles (bind m k).
Proof.
  intros Hm Hk d. unfold bind. specialize (Hm d).
  destruct (m d) as [a d1 | e d1 | |]; auto.
  specialize (Hk a d1).
  destruct (k a d1) as [b d2 | e d2 | |]; auto.
  eapply took_trans; eassumption.
Qed.

Lemma settles_if {A : Type} (c : bool) (m1 m2 : M A) :
  settles m1 -> settles m2 -> settles (if c then m1 else m2).
Proof. destruct c; auto. Qed.

Lemma settles_read : settles read.
Proof.
  intros d. unfold read. destruct (d_r d) as [| b rest] eqn:E.
  - split; [reflexivity | exact E].
  - exists [b]. rewrite E. reflexivity.
Qed.

Lemma settles_readVarInt64 : settles readVarInt64.
Proof.
  intros d. unfold readVarInt64.
  destruct (readVarInt64_loop 0 0 (d_r d)) as [[v rest] |] eqn:E.
  - apply readVarInt64_loop_inv in E. destruct E as (cs & t & E & _).
    exists (cs ++ [t]). cbn [d_r set_r]. rewrite E, <- app_assoc. reflexivity.
  - split; reflexivity.
Qed.

Lemma settles_accumulate (j : nat) (val : Z) : settles (accumulate j val).
Proof. intros d. exists []. reflexivity. Qed.

Lemma settles_make_len {A : Type} (n : Z) (k : nat -> M A) :
  (forall i : nat, settles (k i)) -> settles (make_len n k).
Proof. intros Hk. unfold make_len. destruct (n <? 0); [apply settles_panic | apply Hk]. Qed.

Create HintDb settle.

#[local] Hint Resolve settles_ret settles_panic settles_get settles_bind
  settles_if settles_read settles_readVarInt64 settles_accumulate settles_make_len : settle.

Lemma settles_readVarSInt64 : settles readVarSInt64.
Proof. unfold readVarSInt64. auto with settle. Qed.

#[local] Hint Resolve settles_readVarSInt64 : settle.

Lemma settles_readIDList_loop (n : nat) : forall ids : list Z, settles (readIDList_loop n ids).
Proof. induction n as [| n IH]; intros ids; cbn [readIDList_loop]; auto with settle. Qed.

Lemma settles_readMHdr : settles readMHdr.
Proof.
  unfold readMHdr, readIDList. auto 8 using settles_readIDList_loop with settle.
Qed.

Lemma settles_readCoord_loop (k : nat) :
  forall (j : nat) (coord : Coordinate) (bb : option BBox),
    settles (readCoord_loop k j coord bb).
Proof.
  induction k as [| k IH]; intros j coord bb; cbn [readCoord_loop]; auto 7 with settle.
Qed.

Lemma settles_readCoords_loop (n : nat) :
  forall (coords : list Coordinate) (bb : option BBox), settles (readCoords_loop n coords bb).
Proof.
  induction n as [| n IH]; intros coords bb; cbn [readCoords_loop]; [auto with settle |].
  apply settles_bind; [auto with settle |]. intros d.
  apply settles_bind; [apply settles_readCoord_loop |]. intros [coord bb']. apply IH.
Qed.

Lemma settles_readCoords (n : Z) : settles (readCoords n).
Proof.
  unfold readCoords. apply settles_make_len. intros i.
  apply settles_bind; [auto with settle |]. intros d. apply settles_readCoords_loop.
Qed.

#[local] Hint Resolve settles_readMHdr settles_readCoords : settle.

Lemma settles_decodePoint (h : option Hdr) : settles (decodePoint h).
Proof.
  unfold decodePoint. apply settles_bind; [auto with settle |]. intros [coords bb].
  destruct coords; [auto with settle |]. destruct h; auto with settle.
Qed.

Lemma settles_decodeLineString (h : option Hdr) : settles (decodeLineString h).
Proof.
  unfold decodeLineString. apply settles_bind; [auto with settle |]. intros n.
  apply settles_bind; [auto with settle |]. intros [coords bb].
  destruct h; auto with settle.
Qed.

Lemma settles_decodePolygon_loop (n : nat) :
  forall rings : list LinearRing, settles (decodePolygon_loop n rings).
Proof.
  induction n as [| n IH]; intros rings; cbn [decodePolygon_loop]; [auto with settle |].
  apply settles_bind; [auto with settle |]. intros ringSize d.
  pose proof (settles_readCoords (int64 ringSize) d) as Hc.
  destruct (readCoords (int64 ringSize) d) as [[coords bb] d1 | e d1 | |]; auto.
  - specialize (IH (rings ++ [coords]) d1).
    destruct (decodePolygon_loop n (rings ++ [coords]) d1); auto.
    eapply took_trans; eassumption.
  - destruct Hc as [_ Hc]. apply (took_all d) in Hc.
    specialize (IH (rings ++ [[]]) d1).
    destruct (decodePolygon_loop n (rings ++ [[]]) d1); auto.
    eapply took_trans; eassumption.
Qed.

Lemma settles_decodePolygon (h : option Hdr) : settles (decodePolygon h).
Proof.
  unfold decodePolygon. apply settles_bind; [auto with settle |]. intros n.
  apply settles_make_len. intros i.
  apply settles_bind; [apply settles_decodePolygon_loop | auto with settle].
Qed.

Lemma settles_members_loop {A : Type} (body : option Hdr -> M A) (n : nat) :
  (forall h : option Hdr, settles (body h)) ->
  forall acc : list A, settles (members_loop body n acc).
Proof.
  intros Hb. induction n as [| n IH]; intros acc; cbn [members_loop]; auto with settle.
Qed.

Lemma settles_readBBox_loop (k : nat) :
  forall (idx n : nat) (bb : BBox), settles (readBBox_loop k idx n bb).
Proof.
  induction k as [| k IH]; intros idx n bb; cbn [readBBox_loop]; auto with settle.
Qed.

Lemma settles_Decode_dims (flag : Z) (gt : GeomType) : settles (Decode_dims flag gt).
Proof.
  unfold Decode_dims. apply settles_bind.
  - apply settles_if; [| auto with settle].
    apply settles_bind; [auto with settle |]. intros extended.
    apply settles_bind; [auto with settle |]. intros d.
    destruct (extended_dims extended (d_factors d)) as [[dm nd] fs].
    apply settles_bind; [| auto with settle].
    apply settles_modify. reflexivity.
  - intros dm. apply settles_bind; [auto with settle |]. intros d.
    apply settles_bind.
    + apply settles_if; [| auto with settle].
      apply settles_bind; [auto with settle |]. intros len.
      apply settles_modify. reflexivity.
    + intros _. apply settles_bind; [| auto with settle].
      apply settles_if; [| auto with settle].
      apply settles_bind; [apply settles_readBBox_loop | auto with settle].
Qed.

(** *** The unknown-geometry error *)

Lemma resolves_settles {A : Type} (m : M A) : settles m -> resolves m.
Proof.
  intros Hm d. specialize (Hm d).
  destruct (m d) as [a d1 | e d1 | |]; cbn [map_state settled]; auto.
  destruct Hm as [-> Hr]. exact Hr.
Qed.

Lemma settled_after (c rd : list byte) {A : Type} (o : outcome (list byte) A) :
  settled rd o -> settled (c ++ rd) o.
Proof.
  destruct o as [a rest | [|] rest | |]; cbn [settled]; auto.
  - intros [c' ->]. exists (c ++ c'). apply app_assoc.
  - intros (c' & t & -> & Ht). exists (c ++ c'), t. split; [apply app_assoc | exact Ht].
Qed.

Lemma resolves_bind {A B : Type} (m : M A) (k : A -> M B) :
  resolves m -> (forall a : A, resolves (k a)) -> resolves (bind m k).
Proof.
  intros Hm Hk d. unfold bind. specialize (Hm d).
  destruct (m d) as [a d1 | e d1 | |]; auto.
  cbn [map_state settled] in Hm. destruct Hm as [c ->].
  apply settled_after. apply Hk.
Qed.

Lemma resolves_if {A : Type} (c : bool) (m1 m2 : M A) :
  resolves m1 -> resolves m2 -> resolves (if c then m1 else m2).
Proof. destruct c; auto. Qed.

(** The header: the error is raised on the byte just read. *)
Lemma resolves_Decode_header : resolves Decode_header.
Proof.
  intros d. unfold Decode_header.
  destruct (d_r d) as [| t rest] eqn:E.
  - unfold bind, read. rewrite E. cbn [map_state settled]. exact E.
  - rewrite (bind_read_cons _ d t rest E).
    destruct ((Z.land (uint8 t) 15 >? GEOMETRYCOLLECTION) || (Z.land (uint8 t) 15 <? POINT))
      eqn:Ebad.
    + cbn [fail map_state settled d_r set_r]. exists [], t. split; [reflexivity |].
      unfold unknown_type. apply orb_true_iff in Ebad.
      destruct Ebad as [Hgt | Hlt]; [rewrite Z.gtb_ltb in Hgt |];
        [apply Z.ltb_lt in Hgt | apply Z.ltb_lt in Hlt]; lia.
    + apply (settled_after [t] rest).
      match goal with
      | |- settled _ (map_state _ (?m (set_r d rest))) =>
          assert (Hm : resolves m)
      end.
      { apply resolves_settles.
        apply settles_bind; [apply settles_modify; reflexivity |]. intros _.
        apply settles_bind; [auto with settle |]. intros flag'.
        apply settles_bind; [apply settles_modify; reflexivity |]. intros _.
        apply settles_bind; [apply settles_modify; reflexivity |]. intros _.
        apply settles_Decode_dims. }
      exact (Hm (set_r d rest)).
Qed.

Lemma resolves_decodeCollection_loop (dec : list byte -> outcome (list byte) Geometry)
      (n : nat) :
  (forall rd : list byte, settled rd (dec rd)) ->
  forall geoms : list Geometry, resolves (decodeCollection_loop dec n geoms).
Proof.
  intros Hdec. induction n as [| n IH]; intros geoms; cbn [decodeCollection_loop];
    [apply resolves_settles; auto with settle |].
  intros d. specialize (Hdec (d_r d)).
  destruct (dec (d_r d)) as [g rest | e rest | |]; cbn [map_state]; auto.
  cbn [settled] in Hdec. destruct Hdec as [c ->].
  apply settled_after. apply (IH (geoms ++ [g]) (set_r d rest)).
Qed.

Lemma resolves_Decode_switch (dec : list byte -> outcome (list byte) Geometry) (h : Hdr) :
  (forall rd : list byte, settled rd (dec rd)) -> resolves (Decode_switch dec h).
Proof.
  intros Hdec. unfold Decode_switch.
  apply resolves_if;
    [apply resolves_settles;
     apply settles_bind; [apply settles_decodePoint | auto with settle] |].
  apply resolves_if;
    [apply resolves_settles;
     apply settles_bind; [apply settles_decodeLineString | auto with settle] |].
  apply resolves_if;
    [apply resolves_settles;
     apply settles_bind; [apply settles_decodePolygon | auto with settle] |].
  apply resolves_if.
  { apply resolves_settles. apply settles_bind; [| auto with settle].
    unfold decodeMultiPoint.
    auto 8 using settles_members_loop, settles_decodePoint with settle. }
  apply resolves_if.
  { apply resolves_settles. apply settles_bind; [| auto with settle].
    unfold decodeMultiLineString.
    auto 8 using settles_members_loop, settles_decodeLineString with settle. }
  apply resolves_if.
  { apply resolves_settles. apply settles_bind; [| auto with settle].
    unfold decodeMultiPolygon.
    auto 8 using settles_members_loop, settles_decodePolygon with settle. }
  apply resolves_if; [| apply resolves_settles; auto with settle].
  unfold decodeCollection.
  apply resolves_bind; [apply resolves_settles; auto with settle |]. intros m.
  unfold make_len. destruct (ngeoms m <? 0); [apply resolves_settles; auto with settle |].
  apply resolves_bind; [apply resolves_decodeCollection_loop; exact Hdec |].
  intros gs. apply resolves_settles. auto with settle.
Qed.

Lemma Decode_fuel_settled (fuel : nat) : forall rd : list byte, settled rd (Decode_fuel fuel rd).
Proof.
  induction fuel as [| fuel IH]; intros rd; [exact I |].
  cbn [Decode_fuel]. unfold run_Decode.
  assert (H : resolves (Decode_body (Decode_fuel fuel))).
  { unfold Decode_body. apply resolves_bind; [apply resolves_Decode_header |].
    intros h. apply resolves_Decode_switch. exact IH. }
  specialize (H (new_decoder rd)). cbn [d_r new_decoder] in H.
  destruct (Decode_body (Decode_fuel fuel) (new_decoder rd)); exact H.
Qed.

(** X13: on a reader over a byte slice, [Decode] reads a prefix of
    its input and nothing else, and each of its errors says where it
    stopped.  After a success the bytes left are a tail of the input.
    After [EOF] nothing is left: the input was read to its end.  After
    the unknown-geometry error the bytes left are the tail that follows
    a type byte whose low nibble is not one of the seven kinds: the
    first byte of the input, or that of a member of a collection. *)
Theorem Decode_reads_prefix (rd : list byte) :
  (forall (g : Geometry) (rest : list byte),
      Decode rd = Ok g rest -> exists c : list byte, rd = c ++ rest)
  /\ (forall rest : list byte, Decode rd = Err EOF rest -> rest = [])
  /\ (forall rest : list byte,
         Decode rd = Err ErrUnknownGeom rest ->
         exists (c : list byte) (t : byte),
           rd = c ++ t :: rest
           /\ ~ (POINT <= Z.land (uint8 t) 15 <= GEOMETRYCOLLECTION)).
Proof.
  pose proof (Decode_fuel_settled (S (List.length rd)) rd) as H. fold (Decode rd) in H.
  split; [| split].
  - intros g rest E. rewrite E in H. exact H.
  - intros rest E. rewrite E in H. exact H.
  - intros rest E. rewrite E in H. exact H.
Qed.

Lemma Decode_reads_prefix_witness :
  exists (c : list byte) (t : byte),
    bytes [7; 0; 2; 1; 0; 2; 4; 9; 6] = c ++ t :: bytes [6]
    /\ ~ (POINT <= Z.land (uint8 t) 15 <= GEOMETRYCOLLECTION).
Proof.
  apply (proj2 (proj2 (Decode_reads_prefix (bytes [7; 0; 2; 1; 0; 2; 4; 9; 6])))
           (bytes [6])).
  vm_compute. reflexivity.
Defined.

(** ** Collections *)

(** More fuel changes nothing once there is enough. *)
Lemma decodeCollection_loop_ext (dec1 dec2 : list byte -> outcome (list byte) Geometry)
      (n : nat) :
  (forall rd : list byte, dec1 rd <> OutOfFuel -> dec2 rd = dec1 rd) ->
  forall (acc : list Geometry) (d : decoder),
    decodeCollection_loop dec1 n acc d <> OutOfFuel ->
    decodeCollection_loop dec2 n acc d = decodeCollection_loop dec1 n acc d.
Proof.
  intros Hd. induction n as [| n IH]; intros acc d H; cbn [decodeCollection_loop] in *;
    [reflexivity |].
  destruct (dec1 (d_r d)) as [g rest | e rest | |] eqn:E.
  - rewrite Hd by (rewrite E; discriminate). rewrite E. apply IH. exact H.
  - rewrite Hd by (rewrite E; discriminate). rewrite E. reflexivity.
  - rewrite Hd by (rewrite E; discriminate). rewrite E. reflexivity.
  - contradiction H. reflexivity.
Qed.

Lemma bind_ext {A B : Type} (m : M A) (k1 k2 : A -> M B) (d : decoder) :
  (forall (a : A) (d1 : decoder), k1 a d1 <> OutOfFuel -> k2 a d1 = k1 a d1) ->
  bind m k1 d <> OutOfFuel -> bind m k2 d = bind m k1 d.
Proof.
  intros Hk H. unfold bind in *. destruct (m d) as [a d1 | e d1 | |]; auto.
Qed.

Lemma Decode_switch_ext (dec1 dec2 : list byte -> outcome (list byte) Geometry)
      (h : Hdr) (d : decoder) :
  (forall rd : list byte, dec1 rd <> OutOfFuel -> dec2 rd = dec1 rd) ->
  Decode_switch dec1 h d <> OutOfFuel ->
  Decode_switch dec2 h d = Decode_switch dec1 h d.
Proof.
  intros Hd H. unfold Decode_switch in *.
  repeat match goal with
         | |- (if ?c then _ else _) _ = _ => destruct c; [reflexivity |]
         end.
  destruct (gtype h =? GEOMETRYCOLLECTION); [| reflexivity].
  unfold decodeCollection in *.
  apply bind_ext; [| exact H]. intros m d1 H1.
  unfold make_len in *. destruct (ngeoms m <? 0); [reflexivity |].
  unfold bind in *.
  rewrite (decodeCollection_loop_ext dec1 dec2 _ Hd); [reflexivity |].
  intros E. rewrite E in H1. contradiction H1. reflexivity.
Qed.

Lemma Decode_fuel_more (fuel : nat) :
  forall rd : list byte,
    Decode_fuel fuel rd <> OutOfFuel -> Decode_fuel (S fuel) rd = Decode_fuel fuel rd.
Proof.
  induction fuel as [| fuel IH]; intros rd H; [contradiction H; reflexivity |].
  change (run_Decode (Decode_body (Decode_fuel (S fuel))) rd
          = run_Decode (Decode_body (Decode_fuel fuel)) rd).
  change (run_Decode (Decode_body (Decode_fuel fuel)) rd <> OutOfFuel) in H.
  assert (Hm : Decode_body (Decode_fuel fuel) (new_decoder rd) <> OutOfFuel).
  { intros E. apply H. unfold run_Decode. rewrite E. reflexivity. }
  assert (Hb : Decode_body (Decode_fuel (S fuel)) (new_decoder rd)
               = Decode_body (Decode_fuel fuel) (new_decoder rd)).
  { unfold Decode_body in *. apply bind_ext; [| exact Hm].
    intros h d1 H1. apply Decode_switch_ext; [exact IH | exact H1]. }
  unfold run_Decode. rewrite Hb. reflexivity.
Qed.

Lemma Decode_fuel_plus (k fuel : nat) (rd : list byte) :
  Decode_fuel fuel rd <> OutOfFuel -> Decode_fuel (k + fuel) rd = Decode_fuel fuel rd.
Proof.
  intros H. induction k as [| k IH]; [reflexivity |].
  cbn [Nat.add]. rewrite Decode_fuel_more; [exact IH | rewrite IH; exact H].
Qed.

(** Any fuel above the length of the input gives what [Decode] gives. *)
Lemma Decode_fuel_irrelevant (fuel : nat) (rd : list byte) :
  (List.length rd < fuel)%nat -> Decode_fuel fuel rd = Decode rd.
Proof.
  intros H. unfold Decode.
  replace fuel with ((fuel - S (List.length rd)) + S (List.length rd))%nat by lia.
  apply Decode_fuel_plus.
  pose proof (Decode_fuel_leaves (S (List.length rd)) rd (Nat.lt_succ_diag_r _)) as Hl.
  intros E. rewrite E in Hl. exact Hl.
Qed.

Lemma decodeCollection_loop_seq (fuel n : nat) :
  forall (acc gs : list Geometry) (d d' : decoder),
    (List.length (d_r d) < fuel)%nat ->
    decodeCollection_loop (Decode_fuel fuel) n acc d = Ok gs d' ->
    exists new : list Geometry,
      gs = acc ++ new /\ List.length new = n /\ decoded_seq (d_r d) new (d_r d').
Proof.
  induction n as [| n IH]; intros acc gs d d' Hlen H; cbn [decodeCollection_loop] in H.
  - inv_ret H. exists []. rewrite app_nil_r. repeat split. constructor.
  - pose proof (Decode_fuel_leaves fuel (d_r d) Hlen) as Hl.
    rewrite (Decode_fuel_irrelevant fuel (d_r d) Hlen) in H, Hl.
    destruct (Decode (d_r d)) as [g rest | e rest | |] eqn:E; try discriminate.
    cbn [leaves] in Hl.
    apply IH in H; [| cbn [d_r set_r]; lia].
    destruct H as (new & -> & Hn & Hs). cbn [d_r set_r] in Hs.
    exists (g :: new). rewrite <- app_assoc. cbn [app List.length].
    repeat split; [lia |]. econstructor; eassumption.
Qed.

(** X14: the members of a decoded GeometryCollection are what
    [Decode] itself returns, called again and again on the bytes after
    the multi-header: each member is a complete value with its own
    header, decoded by a fresh decoder from where the member before it
    stopped, and there are as many as the multi-header announced. *)
Theorem Decode_collection_members (rd rest : list byte) (h : option Hdr) (ids : list Z)
        (gs : list Geometry) :
  Decode rd = Ok (GGeometryCollection h ids gs) rest ->
  exists (hd : Hdr) (d1 : decoder) (m : mhdr) (d2 : decoder),
    Decode_header (new_decoder rd) = Ok hd d1
    /\ h = Some hd
    /\ readMHdr d1 = Ok m d2
    /\ ids = m_idlist m
    /\ List.length gs = Z.to_nat (ngeoms m)
    /\ decoded_seq (d_r d2) gs rest.
Proof.
  intros H. unfold Decode in H. cbn [Decode_fuel] in H. unfold run_Decode in H.
  destruct (Decode_body _ _) as [g' d' | | |] eqn:E; try discriminate.
  injection H as -> <-.
  unfold Decode_body in E. bind_inv E as hd d1 Hh.
  pose proof (bounded_Decode_header (new_decoder rd)) as Hb.
  rewrite Hh in Hb. cbn [after d_r new_decoder] in Hb.
  exists hd, d1. unfold Decode_switch in E.
  repeat match type of E with
         | (if ?c then _ else _) _ = _ =>
             destruct c; [bind_inv E as x dx Hx; inv_ret E; discriminate |]
         end.
  destruct (gtype hd =? GEOMETRYCOLLECTION); [| inv_ret E; discriminate].
  unfold decodeCollection in E. bind_inv E as m d2 Hm.
  apply make_len_Ok in E. destruct E as [_ E].
  bind_inv E as geoms d3 Hg. apply ret_Ok in E. destruct E as [E <-].
  injection E as <- <- <-.
  pose proof (readMHdr_shorter _ _ _ Hm) as Hs.
  apply decodeCollection_loop_seq in Hg; [| lia].
  destruct Hg as (new & -> & Hn & Hseq). cbn [app] in *.
  exists m, d2. repeat split; assumption.
Qed.

Lemma Decode_collection_members_witness :
  exists (hd : Hdr) (d1 : decoder) (m : mhdr) (d2 : decoder),
    Decode_header (new_decoder (bytes [7; 4; 2; 0; 2; 1; 0; 0; 2; 2; 0; 2; 8; 10; 4; 4]))
    = Ok hd d1
    /\ Some (mkHdr GEOMETRYCOLLECTION XY None) = Some hd
    /\ readMHdr d1 = Ok m d2
    /\ [0; 1] = m_idlist m
    /\ List.length
         [GPoint (mkPoint (Some (mkHdr POINT XY
                                       (Some [0%float; 1%float; 0%float; 1%float])))
                          [0%float; 1%float]);
          GLineString
            (mkLineString (Some (mkHdr LINESTRING XY
                                       (Some [4%float; 5%float; 6%float; 7%float])))
                          [[4%float; 5%float]; [6%float; 7%float]])]
       = Z.to_nat (ngeoms m)
    /\ decoded_seq (d_r d2)
         [GPoint (mkPoint (Some (mkHdr POINT XY
                                       (Some [0%float; 1%float; 0%float; 1%float])))
                          [0%float; 1%float]);
          GLineString
            (mkLineString (Some (mkHdr LINESTRING XY
                                       (Some [4%float; 5%float; 6%float; 7%float])))
                          [[4%float; 5%float]; [6%float; 7%float]])]
         [].
Proof.
  apply (Decode_collection_members
           (bytes [7; 4; 2; 0; 2; 1; 0; 0; 2; 2; 0; 2; 8; 10; 4; 4]) []).
  vm_compute. reflexivity.
Defined.

(** ** Panics *)

Lemma lor_uint64 (a b : Z) :
  0 <= a < 2 ^ 64 -> 0 <= b < 2 ^ 64 -> 0 <= Z.lor a b < 2 ^ 64.
Proof.
  intros Ha Hb.
  assert (Hn : 0 <= Z.lor a b) by (apply Z.lor_nonneg; lia).
  split; [exact Hn |].
  destruct (Z.eq_dec (Z.lor a b) 0) as [-> | Hz]; [lia |].
  apply Z.log2_lt_pow2; [lia |].
  rewrite Z.log2_lor by lia.
  apply Z.max_lub_lt.
  - destruct (Z.eq_dec a 0) as [-> | Haz]; [simpl; lia | apply Z.log2_lt_pow2; lia].
  - destruct (Z.eq_dec b 0) as [-> | Hbz]; [simpl; lia | apply Z.log2_lt_pow2; lia].
Qed.

Lemma shl64_uint64 (x s : Z) : 0 <= shl64 x s < 2 ^ 64.
Proof.
  unfold shl64. destruct (s <? 64); [apply wrap64_range | lia].
Qed.

(** The value of a varint is a [uint64]. *)
Lemma readVarInt64_loop_uint64 (bs : list byte) :
  forall (val s v : Z) (rest : list byte),
    0 <= val < 2 ^ 64 ->
    readVarInt64_loop val s bs = Some (v, rest) -> 0 <= v < 2 ^ 64.
Proof.
  induction bs as [| b tl IH]; intros val s v rest Hval H; cbn [readVarInt64_loop] in H;
    [discriminate |].
  destruct (Z.land (uint8 b) 128 =? 0).
  - injection H as <- _. apply lor_uint64; [exact Hval | apply shl64_uint64].
  - eapply IH; [| eassumption]. apply lor_uint64; [exact Hval | apply shl64_uint64].
Qed.

Lemma readVarInt64_uint64 (d d' : decoder) (v : Z) :
  readVarInt64 d = Ok v d' -> 0 <= v < 2 ^ 64.
Proof.
  unfold readVarInt64. intros H.
  destruct (readVarInt64_loop 0 0 (d_r d)) as [[v' rest] |] eqn:E; [| discriminate].
  injection H as <- _. eapply readVarInt64_loop_uint64; [| eassumption]. lia.
Qed.

(** [int64(n)] of a [uint64] is negative exactly from 2^63 on. *)
Lemma int64_negative (n : Z) : 0 <= n < 2 ^ 64 -> (int64 n <? 0) = (2 ^ 63 <=? n).
Proof.
  intros Hn. unfold int64. rewrite wrap64_small by exact Hn. cbv zeta.
  destruct (Z.ltb_spec n (2 ^ 63)) as [Hlt | Hge].
  - transitivity false; [apply Z.ltb_ge; lia | symmetry; apply Z.leb_gt; exact Hlt].
  - transitivity true; [apply Z.ltb_lt; lia | symmetry; apply Z.leb_le; exact Hge].
Qed.

Lemma calm_ret {A : Type} (a : A) : calm (ret a).
Proof. intros d. discriminate. Qed.

Lemma calm_get : calm get.
Proof. intros d. discriminate. Qed.

Lemma calm_fail {A : Type} (e : error) : calm (@fail A e).
Proof. intros d. discriminate. Qed.

Lemma calm_modify (f : decoder -> decoder) : calm (modify f).
Proof. intros d. discriminate. Qed.

Lemma calm_bind {A B : Type} (m : M A) (k : A -> M B) :
  calm m -> (forall a : A, calm (k a)) -> calm (bind m k).
Proof.
  intros Hm Hk d. unfold bind. specialize (Hm d).
  destruct (m d) as [a d1 | e d1 | |]; try discriminate; [apply Hk | now elim Hm].
Qed.

Lemma calm_if {A : Type} (c : bool) (m1 m2 : M A) :
  calm m1 -> calm m2 -> calm (if c then m1 else m2).
Proof. destruct c; auto. Qed.

Lemma calm_read : calm read.
Proof. intros d. unfold read. destruct (d_r d); discriminate. Qed.

Lemma calm_readVarInt64 : calm readVarInt64.
Proof.
  intros d. unfold readVarInt64.
  destruct (readVarInt64_loop 0 0 (d_r d)) as [[v rest] |]; discriminate.
Qed.

Lemma calm_accumulate (j : nat) (val : Z) : calm (accumulate j val).
Proof. intros d. discriminate. Qed.

Create HintDb calm.

#[local] Hint Resolve calm_ret calm_get calm_fail calm_modify calm_bind calm_if calm_read
  calm_readVarInt64 calm_accumulate : calm.

Lemma calm_readVarSInt64 : calm readVarSInt64.
Proof. unfold readVarSInt64. auto with calm. Qed.

#[local] Hint Resolve calm_readVarSInt64 : calm.

Lemma calm_readCoord_loop (k : nat) :
  forall (j : nat) (coord : Coordinate) (bb : option BBox), calm (readCoord_loop k j coord bb).
Proof.
  induction k as [| k IH]; intros j coord bb; cbn [readCoord_loop]; auto 7 with calm.
Qed.

Lemma calm_readCoords_loop (n : nat) :
  forall (coords : list Coordinate) (bb : option BBox), calm (readCoords_loop n coords bb).
Proof.
  induction n as [| n IH]; intros coords bb; cbn [readCoords_loop]; [auto with calm |].
  apply calm_bind; [auto with calm |]. intros d.
  apply calm_bind; [apply calm_readCoord_loop |]. intros [coord bb']. apply IH.
Qed.

Lemma calm_readBBox_loop (k : nat) :
  forall (idx n : nat) (bb : BBox), calm (readBBox_loop k idx n bb).
Proof.
  induction k as [| k IH]; intros idx n bb; cbn [readBBox_loop]; auto with calm.
Qed.

Lemma calm_Decode_dims (flag : Z) (gt : GeomType) : calm (Decode_dims flag gt).
Proof.
  unfold Decode_dims. apply calm_bind.
  - apply calm_if; [| auto with calm].
    apply calm_bind; [auto with calm |]. intros extended.
    apply calm_bind; [auto with calm |]. intros d.
    destruct (extended_dims extended (d_factors d)) as [[dm nd] fs]. auto with calm.
  - intros dm. apply calm_bind; [auto with calm |]. intros d.
    apply calm_bind; [auto with calm |]. intros _.
    apply calm_bind; [| auto with calm].
    apply calm_if; [| auto with calm].
    apply calm_bind; [apply calm_readBBox_loop | auto with calm].
Qed.

Lemma calm_Decode_header : calm Decode_header.
Proof.
  unfold Decode_header. apply calm_bind; [auto with calm |]. intros flag.
  apply calm_if; [auto with calm |].
  auto 8 using calm_Decode_dims with calm.
Qed.

(** [readCoords] panics on a negative count and on nothing else. *)
Lemma readCoords_Panic (n : Z) (d : decoder) : readCoords n d = Panic <-> n < 0.
Proof.
  unfold readCoords, make_len. destruct (Z.ltb_spec n 0) as [Hlt | Hge].
  - split; [intros _; exact Hlt | reflexivity].
  - split; [| lia]. intros H. exfalso. revert H.
    apply calm_bind; [auto with calm |]. intros x. apply calm_readCoords_loop.
Qed.

Lemma calm_decodePoint (h : option Hdr) : calm (decodePoint h).
Proof.
  intros d. unfold decodePoint, bind.
  destruct (readCoords 1 d) as [[coords bb] d1 | e d1 | |] eqn:E; try discriminate.
  - apply readCoords_one in E. destruct E as (c & bx & -> & _).
    destruct h; discriminate.
  - apply readCoords_Panic in E. lia.
Qed.

(** With memory unbounded, [decodeLineString] panics exactly when the
    count it read is 2^63 or more, a negative [int]. *)
Lemma decodeLineString_Panic (h : option Hdr) (d : decoder) :
  decodeLineString h d = Panic <->
  exists (n : Z) (d1 : decoder), readVarInt64 d = Ok n d1 /\ 2 ^ 63 <= n.
Proof.
  unfold decodeLineString, bind. split.
  - destruct (readVarInt64 d) as [n d1 | e d1 | |] eqn:En; try discriminate.
    + intros H. exists n, d1. split; [reflexivity |].
      destruct (readCoords (int64 n) d1) as [[coords bb] d2 | e d2 | |] eqn:Ec;
        try discriminate.
      * destruct h; discriminate.
      * apply readCoords_Panic in Ec. apply Z.ltb_lt in Ec.
        rewrite int64_negative in Ec by (eapply readVarInt64_uint64; eassumption).
        apply Z.leb_le. exact Ec.
    + intros _. exfalso. exact (calm_readVarInt64 _ En).
  - intros (n & d1 & En & Hn). rewrite En.
    assert (Hp : readCoords (int64 n) d1 = Panic).
    { apply readCoords_Panic. apply Z.ltb_lt.
      rewrite int64_negative by (eapply readVarInt64_uint64; eassumption).
      apply Z.leb_le. exact Hn. }
    rewrite Hp. reflexivity.
Qed.

(** X15: where slices are made and indexed.  Decoding a Point never
    panics, whatever the bytes: [coords[0]] is always there.  A
    LineString whose count is 2^63 or more, a negative [int], panics in
    the [make] of the coordinate slice, whatever follows the count. *)
Theorem panics_on_counts :
  (forall (t : byte) (rest : list byte),
      Z.land (uint8 t) 15 = POINT -> Decode (t :: rest) <> Panic)
  /\ (forall (p n : Z) (rest : list byte),
         0 <= p <= 7 -> 2 ^ 63 <= n < 2 ^ 64 ->
         Decode (byte_of (32 * p + LINESTRING) :: byte_of 0 :: encode_varint n ++ rest)
         = Panic).
Proof.
  split.
  - intros t rest Ht. unfold Decode. cbn [Decode_fuel]. unfold run_Decode.
    destruct (Decode_body _ _) as [g d' | e d' | |] eqn:E; try discriminate.
    exfalso. unfold Decode_body, bind in E.
    destruct (Decode_header (new_decoder (t :: rest))) as [hd d1 | e d1 | |] eqn:Eh;
      try discriminate.
    + apply Decode_header_full in Eh.
      destruct Eh as (t' & f & r & Er & Hg & _). injection Er as <- _.
      unfold Decode_switch in E. rewrite Hg, Ht in E.
      change (POINT =? POINT) with true in E. cbv iota in E. unfold bind, ret in E.
      destruct (decodePoint (Some hd) d1) as [p d2 | e d2 | |] eqn:Ep; try discriminate.
      exact (calm_decodePoint _ _ Ep).
    + exact (calm_Decode_header _ Eh).
  - intros p n rest Hp Hn. unfold Decode. cbn [Decode_fuel]. unfold run_Decode, Decode_body.
    unfold bind at 1.
    rewrite Decode_header_plain by (try exact Hp; unfold LINESTRING, POINT, GEOMETRYCOLLECTION; lia).
    unfold Decode_switch. cbn [gtype]. change (LINESTRING =? POINT) with false.
    change (LINESTRING =? LINESTRING) with true. cbv iota.
    unfold bind at 1.
    match goal with
    | |- context [decodeLineString ?h ?d] =>
        assert (Hl : decodeLineString h d = Panic)
    end.
    { apply decodeLineString_Panic. exists n. eexists. split.
      - apply readVarInt64_encode; [lia | reflexivity].
      - lia. }
    rewrite Hl. reflexivity.
Qed.

Lemma panics_on_counts_witness :
  Decode (byte_of 1 :: bytes [0; 2]) <> Panic.
Proof.
  apply (proj1 panics_on_counts (byte_of 1) (bytes [0; 2])).
  vm_compute. reflexivity.
Defined.

(** ** The header of the result *)

Lemma decodePoint_verbatim (h : Hdr) (d d' : decoder) (p : Point) :
  decodePoint (Some h) d = Ok p d' -> d_bbox d = true -> Point_Hdr p = Some h.
Proof.
  unfold decodePoint. intros H Hb. bind_inv H as cb d1 Hc. destruct cb as [coords bb].
  apply readCoords_bbox in Hc. destruct Hc as (_ & _ & ->). rewrite Hb in H.
  destruct coords as [| c tl]; [discriminate |]. inv_ret H. reflexivity.
Qed.

Lemma decodeLineString_verbatim (h : Hdr) (d d' : decoder) (l : LineString) :
  decodeLineString (Some h) d = Ok l d' -> d_bbox d = true -> LineString_Hdr l = Some h.
Proof.
  unfold decodeLineString. intros H Hb. bind_inv H as n d0 Hn.
  bind_inv H as cb d1 Hc. destruct cb as [coords bb].
  apply framed_Ok in Hn; [| apply framed_readVarInt64]. apply same_context_bbox in Hn.
  apply readCoords_bbox in Hc. destruct Hc as (_ & _ & ->). rewrite Hn, Hb in H.
  inv_ret H. reflexivity.
Qed.

Lemma Decode_switch_verbatim (dec : list byte -> outcome (list byte) Geometry)
      (h : Hdr) (d d' : decoder) (g : Geometry) :
  Decode_switch dec h d = Ok g d' ->
  d_bbox d = true \/ (gtype h <> POINT /\ gtype h <> LINESTRING) ->
  Geometry_Hdr g = Some h.
Proof.
  intros H Hc. unfold Decode_switch in H.
  destruct (gtype h =? POINT) eqn:E1.
  { apply Z.eqb_eq in E1. destruct Hc as [Hb | [Hp _]]; [| contradiction].
    bind_inv H as p d1 Hp. inv_ret H. cbn [Geometry_Hdr].
    eapply decodePoint_verbatim; eassumption. }
  destruct (gtype h =? LINESTRING) eqn:E2.
  { apply Z.eqb_eq in E2. destruct Hc as [Hb | [_ Hl]]; [| contradiction].
    bind_inv H as p d1 Hp. inv_ret H. cbn [Geometry_Hdr].
    eapply decodeLineString_verbatim; eassumption. }
  destruct (gtype h =? POLYGON).
  { bind_inv H as p d1 Hp. inv_ret H. cbn [Geometry_Hdr].
    eapply decodePolygon_header. eassumption. }
  destruct (gtype h =? MULTIPOINT).
  { bind_inv H as p d1 Hp. inv_ret H. unfold decodeMultiPoint in Hp.
    bind_inv Hp as m d2 Hm. apply make_len_Ok in Hp. destruct Hp as [_ Hp].
    bind_inv Hp as ps d3 Hps. inv_ret Hp. reflexivity. }
  destruct (gtype h =? MULTILINESTRING).
  { bind_inv H as p d1 Hp. inv_ret H. unfold decodeMultiLineString in Hp.
    bind_inv Hp as m d2 Hm. apply make_len_Ok in Hp. destruct Hp as [_ Hp].
    bind_inv Hp as ps d3 Hps. inv_ret Hp. reflexivity. }
  destruct (gtype h =? MULTIPOLYGON).
  { bind_inv H as p d1 Hp. inv_ret H. unfold decodeMultiPolygon in Hp.
    bind_inv Hp as m d2 Hm. apply make_len_Ok in Hp. destruct Hp as [_ Hp].
    bind_inv Hp as ps d3 Hps. inv_ret Hp. reflexivity. }
  destruct (gtype h =? GEOMETRYCOLLECTION).
  { unfold decodeCollection in H.
    bind_inv H as m d2 Hm. apply make_len_Ok in H. destruct H as [_ H].
    bind_inv H as gs d3 Hgs. inv_ret H. reflexivity. }
  inv_ret H. reflexivity.
Qed.

(** X16: which results carry the header as it was read.  When the
    bbox flag of the metadata byte is set, or the geometry is neither a
    Point nor a LineString, the header of the result is the header built
    from the first bytes of the input, untouched by the body decoder:
    its box is the one read from the stream when the flag is set and nil
    when it is not.  So a Polygon, a multi-geometry or a collection
    decoded without the flag has no box at all. *)
Theorem Decode_header_verbatim (t f : byte) (rest rest' : list byte) (g : Geometry) :
  Decode (t :: f :: rest) = Ok g rest' ->
  Z.land (uint8 f) bbox = bbox
  \/ (Z.land (uint8 t) 15 <> POINT /\ Z.land (uint8 t) 15 <> LINESTRING) ->
  exists (hd : Hdr) (d1 : decoder),
    Decode_header (new_decoder (t :: f :: rest)) = Ok hd d1
    /\ Geometry_Hdr g = Some hd
    /\ (hdr_bbox hd = None <-> Z.land (uint8 f) bbox <> bbox)
    /\ (forall b : BBox, hdr_bbox hd = Some b ->
          List.length b = (2 * ndims_of (dim hd))%nat).
Proof.
  unfold Decode. cbn [Decode_fuel]. unfold run_Decode. intros H Hc.
  destruct (Decode_body _ _) as [g' d' | | |] eqn:E; try discriminate.
  injection H as -> _.
  unfold Decode_body in E. bind_inv E as hd d1 Hh.
  exists hd, d1. split; [exact Hh |].
  apply Decode_header_full in Hh.
  destruct Hh as (t' & f' & r & Er & Hg & _ & Hb & _ & Hn & _ & _ & _ & _ & Hnone & Hlen).
  injection Er as <- <- _.
  split.
  - eapply Decode_switch_verbatim; [eassumption |].
    destruct Hc as [Hf | Hk].
    + left. rewrite Hb. apply Z.eqb_eq. exact Hf.
    + right. rewrite Hg. exact Hk.
  - split.
    + rewrite Hnone, Hb. split; intros Hx.
      * apply Z.eqb_neq. exact Hx.
      * apply Z.eqb_neq. exact Hx.
    + intros b Hbx. rewrite (Hlen b Hbx), Hn. lia.
Qed.

Lemma Decode_header_verbatim_witness :
  exists (hd : Hdr) (d1 : decoder),
    Decode_header (new_decoder (byte_of 1 :: byte_of 1 :: bytes [2; 0; 4; 0; 2; 4])) = Ok hd d1
    /\ Geometry_Hdr
         (GPoint (mkPoint (Some (mkHdr POINT XY (Some [1%float; 2%float; 1%float; 2%float])))
                          [1%float; 2%float]))
       = Some hd
    /\ (hdr_bbox hd = None <-> Z.land (uint8 (byte_of 1)) bbox <> bbox)
    /\ (forall b : BBox, hdr_bbox hd = Some b ->
          List.length b = (2 * ndims_of (dim hd))%nat).
Proof.
  apply (Decode_header_verbatim (byte_of 1) (byte_of 1) (bytes [2; 0; 4; 0; 2; 4]) []).
  - vm_compute. reflexivity.
  - left. vm_compute. reflexivity.
Defined.

(** The first bytes of a geometry of type [gt] and precision [p]. *)
Lemma first_byte_fields (gt p : Z) :
  POINT <= gt <= GEOMETRYCOLLECTION -> 0 <= p <= 7 ->
  Z.land (uint8 (byte_of (32 * p + gt))) 15 = gt
  /\ Pow10_int64 (precision (uint8 (byte_of (32 * p + gt)))) = 10 ^ p.
Proof.
  unfold POINT, GEOMETRYCOLLECTION. intros Hg Hp.
  assert (Hgc : gt = 1 \/ gt = 2 \/ gt = 3 \/ gt = 4 \/ gt = 5 \/ gt = 6 \/ gt = 7) by lia.
  assert (Hpc : p = 0 \/ p = 1 \/ p = 2 \/ p = 3 \/ p = 4 \/ p = 5 \/ p = 6 \/ p = 7) by lia.
  destruct Hgc as [-> | [-> | [-> | [-> | [-> | [-> | ->]]]]]];
    destruct Hpc as [-> | [-> | [-> | [-> | [-> | [-> | [-> | ->]]]]]]];
    vm_compute; split; reflexivity.
Qed.

(** The header of an XY geometry with a box: the metadata byte [1]. *)
Lemma Decode_header_boxed (gt p minx dx miny dy : Z) (r : list byte) :
  POINT <= gt <= GEOMETRYCOLLECTION -> 0 <= p <= 7 ->
  is_int64 minx -> is_int64 dx -> is_int64 miny -> is_int64 dy ->
  Decode_header
    (new_decoder (byte_of (32 * p + gt) :: byte_of 1
                  :: encode_svarints [minx; dx; miny; dy] ++ r))
  = Ok (mkHdr gt XY (Some [float64 minx; float64 miny;
                           float64 (int64 (minx + dx)); float64 (int64 (miny + dy))]))
       (mkDecoder r [0; 0; 0; 0] [10 ^ p; 10 ^ p; 0; 0] 2 true false false false 0).
Proof.
  intros Hg Hp Hminx Hdx Hminy Hdy.
  destruct (first_byte_fields gt p Hg Hp) as [Egt Epw].
  unfold Decode_header.
  rewrite (bind_read_cons _ (new_decoder _) (byte_of (32 * p + gt))
             (byte_of 1 :: encode_svarints [minx; dx; miny; dy] ++ r)) by reflexivity.
  rewrite Egt, Epw.
  replace ((gt >? GEOMETRYCOLLECTION) || (gt <? POINT)) with false
    by (symmetry; apply orb_false_iff; split;
        [rewrite Z.gtb_ltb; apply Z.ltb_ge | apply Z.ltb_ge]; lia).
  rewrite bind_modify.
  match goal with
  | |- bind read _ ?d = _ =>
      rewrite (bind_read_cons _ d (byte_of 1) (encode_svarints [minx; dx; miny; dy] ++ r))
        by reflexivity
  end.
  rewrite !bind_modify.
  change (uint8 (byte_of 1)) with 1.
  unfold Decode_dims.
  change (Z.land 1 exprec =? exprec) with false. cbv iota.
  unfold set_ndims, set_flags, set_r, set_factors, new_decoder.
  cbn [d_factors upd d_r d_refpoint d_ndims d_bbox d_size d_idlist d_empty d_length].
  change (Z.land 1 bbox =? bbox) with true. change (Z.land 1 size =? size) with false.
  change (Z.land 1 idlist =? idlist) with false. change (Z.land 1 empty =? empty) with false.
  unfold bind at 1, ret at 1. rewrite bind_get. cbn [d_size d_bbox d_ndims].
  unfold bind at 1, ret at 1. unfold bind at 1. unfold bind at 1.
  cbn [readBBox_loop repeat Nat.mul Nat.add].
  unfold encode_svarints. cbn [map concat]. rewrite <- !app_assoc, app_nil_l.
  unfold bind at 1.
  match goal with
  | |- context [readVarSInt64 ?d] =>
      rewrite (readVarSInt64_encode d minx _ Hminx) by reflexivity
  end.
  unfold bind at 1.
  match goal with
  | |- context [readVarSInt64 ?d] =>
      rewrite (readVarSInt64_encode d dx _ Hdx) by reflexivity
  end.
  unfold bind at 1.
  match goal with
  | |- context [readVarSInt64 ?d] =>
      rewrite (readVarSInt64_encode d miny _ Hminy) by reflexivity
  end.
  unfold bind at 1.
  match goal with
  | |- context [readVarSInt64 ?d] =>
      rewrite (readVarSInt64_encode d dy _ Hdy) by reflexivity
  end.
  reflexivity.
Qed.

(** X17: a Point written with a box in its header.  With the bbox
    flag set, the header holds, for each dimension in turn, a minimum
    and a delta as signed varints.  [Decode] returns them as
    [minx, miny, minx + dx, miny + dy], converted to [float64] as they
    are: the box is not divided by the precision factor, unlike the
    coordinate [(x / 10^p, y / 10^p)], and the body decoder computes no
    box of its own. *)
Theorem Decode_Point_boxed_roundtrip (p minx dx miny dy x y : Z) (rest : list byte) :
  0 <= p <= 7 ->
  is_int64 minx -> is_int64 dx -> is_int64 miny -> is_int64 dy ->
  is_int64 x -> is_int64 y ->
  Decode (byte_of (32 * p + POINT) :: byte_of 1
          :: encode_svarints [minx; dx; miny; dy] ++ encode_rows [[x; y]] ++ rest)
  = Ok (GPoint
          (mkPoint
             (Some (mkHdr POINT XY
                      (Some [float64 minx; float64 miny;
                             float64 (int64 (minx + dx)); float64 (int64 (miny + dy))])))
             [PrimFloat.div (float64 x) (float64 (10 ^ p));
              PrimFloat.div (float64 y) (float64 (10 ^ p))]))
       rest.
Proof.
  intros Hp Hminx Hdx Hminy Hdy Hx Hy.
  unfold Decode. cbn [Decode_fuel]. unfold run_Decode, Decode_body.
  unfold bind at 1.
  rewrite Decode_header_boxed
    by (try assumption; unfold POINT, GEOMETRYCOLLECTION; lia).
  unfold Decode_switch. cbn [gtype]. change (POINT =? POINT) with true. cbv iota.
  unfold bind at 1, decodePoint, bind at 1.
  change 1 with (Z.of_nat (List.length [[x; y]])).
  rewrite (readCoords_rows _ [[x; y]] rest).
  - cbn [d_ndims d_factors d_refpoint d_bbox d_r set_r set_refpoint delta_coords coord_at
         add_deltas seq map nth upd set_bbox ret].
    rewrite !Z.add_0_l, (int64_small x), (int64_small y) by assumption. reflexivity.
  - repeat first [assumption | constructor].
  - cbn [d_ndims d_refpoint List.length]. lia.
  - reflexivity.
Qed.

Lemma Decode_Point_boxed_roundtrip_witness :
  Decode (byte_of (32 * 2 + POINT) :: byte_of 1
          :: encode_svarints [100; 50; -200; 0] ++ encode_rows [[125; -200]] ++ bytes [9])
  = Ok (GPoint
          (mkPoint
             (Some (mkHdr POINT XY
                      (Some [float64 100; float64 (-200);
                             float64 (int64 (100 + 50)); float64 (int64 (-200 + 0))])))
             [PrimFloat.div (float64 125) (float64 (10 ^ 2));
              PrimFloat.div (float64 (-200)) (float64 (10 ^ 2))]))
       (bytes [9]).
Proof.
  apply (Decode_Point_boxed_roundtrip 2 100 50 (-200) 0 125 (-200) (bytes [9]));
    unfold is_int64, MinInt64, MaxInt64; lia.
Defined.

(** ** Polygons *)

Lemma length_final_refpoint (rows : list (list Z)) :
  forall rp : list Z, List.length (final_refpoint rp rows) = List.length rp.
Proof.
  unfold final_refpoint. induction rows as [| row tl IH]; intros rp; cbn [fold_left];
    [reflexivity |].
  rewrite IH. apply length_add_deltas.
Qed.

(** The ring loop on the bytes of rings of deltas. *)
Lemma decodePolygon_loop_rings (rings : list (list (list Z))) :
  forall (acc : list LinearRing) (d : decoder) (rest : list byte),
    Forall (is_ring (d_ndims d)) rings ->
    (d_ndims d <= List.length (d_refpoint d))%nat ->
    d_r d = encode_rings rings ++ rest ->
    decodePolygon_loop (List.length rings) acc d
    = Ok (acc ++ rings_coords (d_ndims d) (d_factors d) (d_refpoint d) rings)
         (set_refpoint (set_r d rest) (rings_refpoint (d_refpoint d) rings)).
Proof.
  induction rings as [| rows tl IH]; intros acc d rest Hrings Hn Hr;
    cbn [List.length decodePolygon_loop rings_coords].
  - unfold ret, rings_refpoint. cbn [fold_left].
    unfold encode_rings in Hr. cbn [map concat app] in Hr.
    rewrite app_nil_r, <- Hr. destruct d; reflexivity.
  - inversion Hrings as [| ? ? [Hrows Hlen] Htl]; subst.
    unfold encode_rings in Hr. cbn [map concat] in Hr. rewrite <- !app_assoc in Hr.
    fold (encode_rings tl) in Hr.
    unfold bind at 1.
    rewrite (readVarInt64_encode d (Z.of_nat (List.length rows)) _ ltac:(lia) Hr).
    rewrite int64_small by (unfold MinInt64, MaxInt64; lia).
    rewrite (readCoords_rows _ rows (encode_rings tl ++ rest));
      [| exact Hrows | exact Hn | reflexivity].
    rewrite (IH _ _ rest); [| exact Htl | | reflexivity].
    + cbn [d_ndims d_factors d_refpoint set_r set_refpoint].
      rewrite <- app_assoc. cbn [app]. unfold rings_refpoint. cbn [fold_left].
      destruct d; reflexivity.
    + cbn [d_ndims d_refpoint set_r set_refpoint]. rewrite length_final_refpoint. exact Hn.
Qed.

(** X18: a Polygon written the way the format says is read back.  For
    a precision [p] from 0 to 7, no metadata flag, the number of rings
    and then each ring as its count and its rows of two signed deltas,
    [Decode] returns one ring per ring written, each the running sums
    of its rows divided by [10^p].  The sums run on from ring to ring:
    the first point of a ring is a delta from the last point of the ring
    before.  The header has no box, and the bytes that follow are left
    untouched. *)
Theorem Decode_Polygon_roundtrip (p : Z) (rings : list (list (list Z))) (rest : list byte) :
  0 <= p <= 7 ->
  Forall (is_ring 2) rings ->
  Z.of_nat (List.length rings) < 2 ^ 63 ->
  Decode (byte_of (32 * p + POLYGON) :: byte_of 0
          :: encode_varint (Z.of_nat (List.length rings)) ++ encode_rings rings ++ rest)
  = Ok (GPolygon
          (mkPolygon (Some (mkHdr POLYGON XY None))
                     (rings_coords 2 [10 ^ p; 10 ^ p; 0; 0] [0; 0; 0; 0] rings)))
       rest.
Proof.
  intros Hp Hrings Hn.
  unfold Decode. cbn [Decode_fuel]. unfold run_Decode, Decode_body.
  unfold bind at 1.
  rewrite Decode_header_plain by (try exact Hp; unfold POLYGON, POINT,
                                   GEOMETRYCOLLECTION; lia).
  unfold Decode_switch. cbn [gtype].
  change (POLYGON =? POINT) with false.
  change (POLYGON =? LINESTRING) with false.
  change (POLYGON =? POLYGON) with true. cbv iota.
  unfold bind at 1, decodePolygon, bind at 1.
  rewrite (readVarInt64_encode _ (Z.of_nat (List.length rings))
             (encode_rings rings ++ rest)) by (try reflexivity; lia).
  rewrite int64_small by (unfold MinInt64, MaxInt64; lia).
  unfold make_len.
  destruct (Z.ltb_spec (Z.of_nat (List.length rings)) 0) as [Hlt | _]; [lia |].
  rewrite Nat2Z.id. unfold bind at 1.
  rewrite (decodePolygon_loop_rings rings [] _ rest);
    [| exact Hrings | cbn [d_ndims d_refpoint set_r List.length]; lia | reflexivity].
  reflexivity.
Qed.

Lemma Decode_Polygon_roundtrip_witness :
  Decode (byte_of (32 * 0 + POLYGON) :: byte_of 0
          :: encode_varint (Z.of_nat (List.length [[[1; 1]; [2; 0]]; [[-1; 3]]]))
             ++ encode_rings [[[1; 1]; [2; 0]]; [[-1; 3]]] ++ bytes [5])
  = Ok (GPolygon
          (mkPolygon (Some (mkHdr POLYGON XY None))
                     (rings_coords 2 [10 ^ 0; 10 ^ 0; 0; 0] [0; 0; 0; 0]
                                   [[[1; 1]; [2; 0]]; [[-1; 3]]])))
       (bytes [5]).
Proof.
  apply (Decode_Polygon_roundtrip 0 [[[1; 1]; [2; 0]]; [[-1; 3]]] (bytes [5])).
  - lia.
  - repeat first [constructor; [reflexivity |] | constructor
                  | unfold is_int64, MinInt64, MaxInt64; lia
                  | cbn [List.length]; lia].
  - cbn [List.length]. lia.
Defined.

(** ** The size field

    No decoder below the header looks at [size] or [length]. *)

Create HintDb sized.

Lemma unsized_ret {A : Type} (a : A) : unsized (ret a).
Proof. intros sz len d. reflexivity. Qed.

Lemma unsized_panic {A : Type} : unsized (@panic A).
Proof. intros sz len d. reflexivity. Qed.

Lemma unsized_fail {A : Type} (err : error) : unsized (@fail A err).
Proof. intros sz len d. reflexivity. Qed.

Lemma unsized_bind {A B : Type} (m : M A) (k : A -> M B) :
  unsized m -> (forall a : A, unsized (k a)) -> unsized (bind m k).
Proof.
  intros Hm Hk sz len d. unfold bind. rewrite Hm.
  destruct (m d) as [a d1 | err d1 | |]; cbn [map_state]; try reflexivity.
  apply Hk.
Qed.

Lemma unsized_get_bind {A : Type} (k : decoder -> M A) :
  (forall x : decoder, unsized (k x)) ->
  (forall (sz : bool) (len : Z) (x : decoder), k (set_sized sz len x) = k x) ->
  unsized (bind get k).
Proof.
  intros Hk Hx sz len d. unfold bind, get. rewrite Hx. apply Hk.
Qed.

Lemma unsized_if {A : Type} (c : bool) (m1 m2 : M A) :
  unsized m1 -> unsized m2 -> unsized (if c then m1 else m2).
Proof. destruct c; auto. Qed.

Lemma unsized_modify (f : decoder -> decoder) :
  (forall (sz : bool) (len : Z) (d : decoder), f (set_sized sz len d) = set_sized sz len (f d)) ->
  unsized (modify f).
Proof. intros Hf sz len d. unfold modify. rewrite Hf. reflexivity. Qed.

Lemma unsized_read : unsized read.
Proof. intros sz len d. unfold read. cbn [set_sized d_r]. destruct (d_r d); reflexivity. Qed.

Lemma unsized_readVarInt64 : unsized readVarInt64.
Proof.
  intros sz len d. unfold readVarInt64. cbn [set_sized d_r].
  destruct (readVarInt64_loop 0 0 (d_r d)) as [[v rest] |]; reflexivity.
Qed.

Lemma unsized_accumulate (j : nat) (val : Z) : unsized (accumulate j val).
Proof. intros sz len d. reflexivity. Qed.

Lemma unsized_make_len {A : Type} (n : Z) (k : nat -> M A) :
  (forall i : nat, unsized (k i)) -> unsized (make_len n k).
Proof. intros Hk. unfold make_len. destruct (n <? 0); [apply unsized_panic | apply Hk]. Qed.

#[local] Hint Resolve unsized_ret unsized_panic unsized_fail unsized_bind unsized_if unsized_read
  unsized_readVarInt64 unsized_accumulate unsized_make_len : sized.

Lemma unsized_readVarSInt64 : unsized readVarSInt64.
Proof. unfold readVarSInt64. auto with sized. Qed.

#[local] Hint Resolve unsized_readVarSInt64 : sized.

Lemma unsized_readIDList_loop (n : nat) : forall ids : list Z, unsized (readIDList_loop n ids).
Proof. induction n as [| n IH]; intros ids; cbn [readIDList_loop]; auto with sized. Qed.

Lemma unsized_readIDList (n : Z) : unsized (readIDList n).
Proof. unfold readIDList. auto using unsized_readIDList_loop with sized. Qed.

Lemma unsized_readMHdr : unsized readMHdr.
Proof.
  unfold readMHdr. apply unsized_bind; [auto with sized |]. intros n.
  apply unsized_get_bind; [| reflexivity]. intros d.
  auto using unsized_readIDList with sized.
Qed.

Lemma unsized_readCoord_loop (k : nat) :
  forall (j : nat) (coord : Coordinate) (bb : option BBox),
    unsized (readCoord_loop k j coord bb).
Proof.
  induction k as [| k IH]; intros j coord bb; cbn [readCoord_loop]; [auto with sized |].
  apply unsized_bind; [auto with sized |]. intros val.
  apply unsized_bind; [auto with sized |]. intros c.
  apply unsized_get_bind; [| reflexivity]. intros d. apply IH.
Qed.

Lemma unsized_readCoords_loop (n : nat) :
  forall (coords : list Coordinate) (bb : option BBox), unsized (readCoords_loop n coords bb).
Proof.
  induction n as [| n IH]; intros coords bb; cbn [readCoords_loop]; [auto with sized |].
  apply unsized_get_bind; [| reflexivity]. intros d.
  apply unsized_bind; [apply unsized_readCoord_loop |]. intros [coord bb']. apply IH.
Qed.

Lemma unsized_readCoords (n : Z) : unsized (readCoords n).
Proof.
  unfold readCoords. apply unsized_make_len. intros i.
  apply unsized_get_bind; [| reflexivity]. intros d. apply unsized_readCoords_loop.
Qed.

#[local] Hint Resolve unsized_readMHdr unsized_readCoords : sized.

Lemma unsized_decodePoint (h : option Hdr) : unsized (decodePoint h).
Proof.
  unfold decodePoint. apply unsized_bind; [auto with sized |]. intros [coords bb].
  destruct coords; [auto with sized |]. destruct h; auto with sized.
Qed.

Lemma unsized_decodeLineString (h : option Hdr) : unsized (decodeLineString h).
Proof.
  unfold decodeLineString. apply unsized_bind; [auto with sized |]. intros n.
  apply unsized_bind; [auto with sized |]. intros [coords bb].
  destruct h; auto with sized.
Qed.

Lemma unsized_decodePolygon_loop (n : nat) :
  forall rings : list LinearRing, unsized (decodePolygon_loop n rings).
Proof.
  induction n as [| n IH]; intros rings; cbn [decodePolygon_loop]; [auto with sized |].
  apply unsized_bind; [auto with sized |]. intros ringSize sz len d.
  rewrite unsized_readCoords.
  destruct (readCoords (int64 ringSize) d) as [[coords bb] d1 | err d1 | |];
    cbn [map_state]; try reflexivity; apply IH.
Qed.

Lemma unsized_decodePolygon (h : option Hdr) : unsized (decodePolygon h).
Proof.
  unfold decodePolygon. apply unsized_bind; [auto with sized |]. intros n.
  apply unsized_make_len. intros i.
  apply unsized_bind; [apply unsized_decodePolygon_loop | auto with sized].
Qed.

Lemma unsized_members_loop {A : Type} (body : option Hdr -> M A) (n : nat) :
  (forall h : option Hdr, unsized (body h)) ->
  forall acc : list A, unsized (members_loop body n acc).
Proof.
  intros Hb. induction n as [| n IH]; intros acc; cbn [members_loop]; auto with sized.
Qed.

Lemma unsized_decodeMultiPoint (h : option Hdr) : unsized (decodeMultiPoint h).
Proof.
  unfold decodeMultiPoint. apply unsized_bind; [auto with sized |]. intros m.
  apply unsized_make_len. intros i.
  apply unsized_bind; [| auto with sized].
  apply unsized_members_loop. apply unsized_decodePoint.
Qed.

Lemma unsized_decodeMultiLineString (h : option Hdr) : unsized (decodeMultiLineString h).
Proof.
  unfold decodeMultiLineString. apply unsized_bind; [auto with sized |]. intros m.
  apply unsized_make_len. intros i.
  apply unsized_bind; [| auto with sized].
  apply unsized_members_loop. apply unsized_decodeLineString.
Qed.

Lemma unsized_decodeMultiPolygon (h : option Hdr) : unsized (decodeMultiPolygon h).
Proof.
  unfold decodeMultiPolygon. apply unsized_bind; [auto with sized |]. intros m.
  apply unsized_make_len. intros i.
  apply unsized_bind; [| auto with sized].
  apply unsized_members_loop. apply unsized_decodePolygon.
Qed.

Lemma unsized_decodeCollection_loop (dec : list byte -> outcome (list byte) Geometry) (n : nat) :
  forall geoms : list Geometry, unsized (decodeCollection_loop dec n geoms).
Proof.
  induction n as [| n IH]; intros geoms; cbn [decodeCollection_loop]; [auto with sized |].
  intros sz len d. cbn [set_sized d_r].
  destruct (dec (d_r d)) as [g rest | err rest | |]; cbn [map_state]; try reflexivity.
  apply (IH (geoms ++ [g]) sz len (set_r d rest)).
Qed.

Lemma unsized_decodeCollection (dec : list byte -> outcome (list byte) Geometry)
      (h : option Hdr) : unsized (decodeCollection dec h).
Proof.
  unfold decodeCollection. apply unsized_bind; [auto with sized |]. intros m.
  apply unsized_make_len. intros i.
  apply unsized_bind; [apply unsized_decodeCollection_loop | auto with sized].
Qed.

Lemma unsized_readBBox_loop (k : nat) :
  forall (idx n : nat) (bb : BBox), unsized (readBBox_loop k idx n bb).
Proof.
  induction k as [| k IH]; intros idx n bb; cbn [readBBox_loop]; auto with sized.
Qed.

Lemma unsized_Decode_switch (dec : list byte -> outcome (list byte) Geometry) (hdr : Hdr) :
  unsized (Decode_switch dec hdr).
Proof.
  unfold Decode_switch.
  repeat (apply unsized_if;
          [apply unsized_bind; [| intros; apply unsized_ret] |]);
    auto using unsized_decodePoint, unsized_decodeLineString, unsized_decodePolygon,
      unsized_decodeMultiPoint, unsized_decodeMultiLineString, unsized_decodeMultiPolygon,
      unsized_decodeCollection with sized.
Qed.

Lemma bind_assoc {A B C : Type} (m : M A) (k : A -> M B) (h : B -> M C) (d : decoder) :
  bind (bind m k) h d = bind m (fun a => bind (k a) h) d.
Proof. unfold bind. destruct (m d); reflexivity. Qed.

(** Two metadata bytes that agree outside the bits cleared in [k] pass
    the same tests on the masks inside [k]. *)
Lemma flag_test_outside (k x y m : Z) :
  Z.land x k = Z.land y k -> Z.land k m = m ->
  (Z.land x m =? m) = (Z.land y m =? m).
Proof.
  intros Hxy Hm.
  rewrite <- Hm at 1 3.
  rewrite !Z.land_assoc, Hxy. reflexivity.
Qed.

(** [Decode_dims] from the size on: with the flag set it reads one
    varint more, stores it, and goes on as without the flag. *)
Lemma Decode_dims_tail_sized (gt : GeomType) (dm : Z) (B0 : decoder) (n l : Z)
      (rest : list byte) :
  0 <= n < 2 ^ 64 -> d_size B0 = false ->
  (d <- get ;;
   _ <- (if d_size d
         then len <- readVarInt64 ;; modify (fun d => set_length d len)
         else ret tt) ;;
   bb <- (if d_bbox d
          then b <- readBBox_loop (d_ndims d) 0 (d_ndims d)
                                  (repeat 0%float (d_ndims d * 2)) ;;
               ret (Some b)
          else ret None) ;;
   ret (mkHdr gt dm bb))
    (set_sized true l (set_r B0 (encode_varint n ++ rest)))
  = map_state (set_sized true n)
      ((d <- get ;;
        _ <- (if d_size d
              then len <- readVarInt64 ;; modify (fun d => set_length d len)
              else ret tt) ;;
        bb <- (if d_bbox d
               then b <- readBBox_loop (d_ndims d) 0 (d_ndims d)
                                       (repeat 0%float (d_ndims d * 2)) ;;
                    ret (Some b)
               else ret None) ;;
        ret (mkHdr gt dm bb))
         (set_r B0 rest)).
Proof.
  intros Hn Hs. rewrite !bind_get.
  cbn [d_size d_bbox d_ndims set_sized set_r]. rewrite Hs.
  rewrite bind_assoc. unfold bind at 1.
  match goal with
  | |- context [readVarInt64 ?d] =>
      rewrite (readVarInt64_encode d n rest Hn) by reflexivity
  end.
  rewrite bind_modify.
  replace (set_length (set_r (set_sized true l (set_r B0 (encode_varint n ++ rest))) rest) n)
    with (set_sized true n (set_r B0 rest)) by reflexivity.
  change (bind (ret tt) ?k ?d) with (k tt d). cbv beta.
  apply unsized_bind; [| auto with sized].
  apply unsized_if; [| auto with sized].
  apply unsized_bind; [apply unsized_readBBox_loop | auto with sized].
Qed.

(** [Decode_dims] with and without the size flag. *)
Lemma Decode_dims_sized (flagA flagB : Z) (gt : GeomType) (B0 : decoder) (ext : list byte)
      (n l : Z) (rest : list byte) :
  (Z.land flagA exprec =? exprec) = (Z.land flagB exprec =? exprec) ->
  List.length ext = (if Z.land flagA exprec =? exprec then 1%nat else 0%nat) ->
  0 <= n < 2 ^ 64 -> d_size B0 = false ->
  Decode_dims flagA gt (set_sized true l (set_r B0 (ext ++ encode_varint n ++ rest)))
  = map_state (set_sized true n) (Decode_dims flagB gt (set_r B0 (ext ++ rest))).
Proof.
  intros Hf Hext Hn Hs. unfold Decode_dims. rewrite <- Hf.
  destruct (Z.land flagA exprec =? exprec).
  - destruct ext as [| e [| e' ext]]; try discriminate Hext. cbn [app].
    rewrite !bind_assoc.
    rewrite (bind_read_cons _ (set_sized true l _) e (encode_varint n ++ rest))
      by reflexivity.
    rewrite (bind_read_cons _ (set_r B0 (e :: rest)) e rest) by reflexivity.
    rewrite !bind_assoc, !bind_get.
    cbn [d_factors set_r set_sized].
    destruct (extended_dims (uint8 e) (d_factors B0)) as [[dm' nd] fs].
    rewrite !bind_assoc, !bind_modify.
    change (bind (ret dm') ?k ?d) with (k dm' d). cbv beta.
    apply (Decode_dims_tail_sized gt dm'
             (set_ndims (set_factors B0 fs) nd) n l rest Hn Hs).
  - destruct ext as [| e ext]; try discriminate Hext. cbn [app].
    change (bind (ret XY) ?k ?d) with (k XY d). cbv beta.
    apply (Decode_dims_tail_sized gt XY B0 n l rest Hn Hs).
Qed.

Lemma Decode_header_sized (t f f' : byte) (ext : list byte) (n : Z) (rest : list byte) :
  POINT <= Z.land (uint8 t) 15 <= GEOMETRYCOLLECTION ->
  Z.land (uint8 f) size = size -> Z.land (uint8 f') size <> size ->
  Z.land (uint8 f) 253 = Z.land (uint8 f') 253 ->
  List.length ext = (if Z.land (uint8 f) exprec =? exprec then 1%nat else 0%nat) ->
  0 <= n < 2 ^ 64 ->
  Decode_header (new_decoder (t :: f :: ext ++ encode_varint n ++ rest))
  = map_state (set_sized true n)
      (Decode_header (new_decoder (t :: f' :: ext ++ rest))).
Proof.
  intros Ht Hf Hf' Hff Hext Hn. unfold Decode_header.
  rewrite (bind_read_cons _ (new_decoder (t :: f :: _)) t
             (f :: ext ++ encode_varint n ++ rest)) by reflexivity.
  rewrite (bind_read_cons _ (new_decoder (t :: f' :: _)) t (f' :: ext ++ rest))
    by reflexivity.
  replace ((Z.land (uint8 t) 15 >? GEOMETRYCOLLECTION) || (Z.land (uint8 t) 15 <? POINT))
    with false
    by (symmetry; apply orb_false_iff; split;
        [rewrite Z.gtb_ltb; apply Z.ltb_ge | apply Z.ltb_ge]; lia).
  rewrite !bind_modify.
  match goal with
  | |- bind read _ ?dA = map_state _ (bind read _ ?dB) =>
      rewrite (bind_read_cons _ dA f (ext ++ encode_varint n ++ rest)) by reflexivity;
      rewrite (bind_read_cons _ dB f' (ext ++ rest)) by reflexivity
  end.
  rewrite !bind_modify.
  rewrite (flag_test_outside 253 _ _ bbox Hff) by reflexivity.
  rewrite (flag_test_outside 253 _ _ idlist Hff) by reflexivity.
  rewrite (flag_test_outside 253 _ _ empty Hff) by reflexivity.
  apply Z.eqb_eq in Hf. apply Z.eqb_neq in Hf'. rewrite Hf, Hf'.
  match goal with
  | |- _ = map_state _ (Decode_dims _ _ ?dB) =>
      apply (Decode_dims_sized (uint8 f) (uint8 f') _
               (set_r dB []) ext n 0 rest)
  end.
  - apply (flag_test_outside 253 _ _ exprec Hff). reflexivity.
  - exact Hext.
  - exact Hn.
  - reflexivity.
Qed.

(** X19: the size field is read and never used.  A geometry whose
    metadata byte has the size flag set carries, after the optional
    extended-dimensions byte, one unsigned varint.  [Decode] reads it
    and then gives, for every value of it, exactly what it gives on the
    same bytes without the flag and without the field: same geometry or
    same error, same bytes left. *)
Theorem Decode_size_ignored (t f f' : byte) (ext : list byte) (n : Z) (rest : list byte) :
  POINT <= Z.land (uint8 t) 15 <= GEOMETRYCOLLECTION ->
  Z.land (uint8 f) size = size -> Z.land (uint8 f') size <> size ->
  Z.land (uint8 f) 253 = Z.land (uint8 f') 253 ->
  List.length ext = (if Z.land (uint8 f) exprec =? exprec then 1%nat else 0%nat) ->
  0 <= n < 2 ^ 64 ->
  Decode (t :: f :: ext ++ encode_varint n ++ rest) = Decode (t :: f' :: ext ++ rest).
Proof.
  intros Ht Hf Hf' Hff Hext Hn.
  rewrite <- (Decode_fuel_irrelevant
                (S (List.length (t :: f :: ext ++ encode_varint n ++ rest)))
                (t :: f' :: ext ++ rest))
    by (cbn [List.length]; rewrite !length_app; lia).
  unfold Decode. cbn [Decode_fuel]. unfold run_Decode, Decode_body, bind.
  rewrite (Decode_header_sized t f f' ext n rest Ht Hf Hf' Hff Hext Hn).
  destruct (Decode_header (new_decoder (t :: f' :: ext ++ rest))) as [h d1 | e d1 | |];
    cbn [map_state]; try reflexivity.
  rewrite unsized_Decode_switch.
  match goal with
  | |- context [Decode_switch ?dec h d1] => destruct (Decode_switch dec h d1)
  end; reflexivity.
Qed.

Lemma Decode_size_ignored_witness :
  Decode (byte_of 2 :: byte_of 2 :: [] ++ encode_varint 1000 ++ bytes [2; 2; 2; 4; 6])
  = Decode (byte_of 2 :: byte_of 0 :: [] ++ bytes [2; 2; 2; 4; 6]).
Proof.
  apply (Decode_size_ignored (byte_of 2) (byte_of 2) (byte_of 0) [] 1000
           (bytes [2; 2; 2; 4; 6]));
    try (vm_compute; intuition discriminate); reflexivity.
Defined.

(** ** The members of the multi-geometries *)

Lemma members_same_context {A : Type} (body : option Hdr -> M A) (hdr_of : A -> option Hdr)
      (obs : decoder -> A -> decoder -> Prop) (d d' : decoder) (ps : list A) :
  members body hdr_of obs d ps d' -> same_context d d'.
Proof.
  induction 1 as [d | d d1 d2 p ps Hb Hc Hh Ho Hm IH]; [apply same_context_refl |].
  eapply same_context_trans; eassumption.
Qed.




(** *** What was read, from what was returned *)





(** *** The reference point keeps its length, whatever is read *)





(** *** One member *)




Lemma length_rings_refpoint (rrows : list (list (list Z))) :
  forall rp : list Z, List.length (rings_refpoint rp rrows) = List.length rp.
Proof.
  unfold rings_refpoint. induction rrows as [| rows tl IH]; intros rp; cbn [fold_left];
    [reflexivity |].
  rewrite IH. apply length_final_refpoint.
Qed.





